(** * The cooperative scheduler of [trezor/loop.py]

    A shallow embedding of the event loop of [core/src/trezor/loop.py]:
    the three process-wide tables ([_queue], [_paused], [_finalizers]),
    the stepper [_step], the loop [run] and the syscalls [sleep], [wait],
    [signal] and [spawn].

    Python generators are opaque to the loop; they are modelled by a type
    [code] of suspended frames and a function [run_code] that runs a frame
    until its next suspension point.  The calls the loop makes to callbacks
    it does not define (finalizers passed to [schedule], the
    [after_step_hook], [io.poll], the logger) are recorded in a trace. *)

From stdpp Require Import gmap list.
From Stdlib Require Import ZArith Lia.

Local Open Scope Z_scope.

(** ** Values, failures and requests *)

(** Failure objects.  [GeneratorExit] and [BaseExc] derive from
    [BaseException] only; every other one derives from [Exception]. *)
Inductive exn :=
| GeneratorExit
| BaseExc (n : nat)
| RuntimeError
| TypeError
| ValueError
| NameError
| AttributeError
| IndexError
| QueueFull
| Exc (n : nat).

Definition is_Exception (e : exn) : bool :=
  match e with
  | GeneratorExit | BaseExc _ => false
  | _ => true
  end.

Inductive value :=
| VNone
| VInt (z : Z)
| VExc (e : exn)
| VObj (n : nat).

(** [id(task)]: the identity of a generator object. *)
Definition Task := nat.

Global Instance exn_eq_dec : EqDecision exn.
Proof. solve_decision. Defined.
Global Instance value_eq_dec : EqDecision value.
Proof. solve_decision. Defined.

(** ** Clock arithmetic *)

Module utime.

(** Modelled from the spec: [utime.ticks_add], the monotonic microsecond
    counter is a 32-bit value that wraps (about every 71 minutes). *)
Definition ticks_add (ticks delta : Z) : Z := (ticks + delta) mod 2 ^ 32.

(** Modelled from the spec: [utime.ticks_diff], the wrap-aware signed
    32-bit difference, [(a - b)] interpreted as signed. *)
Definition ticks_diff (a b : Z) : Z := (a - b + 2 ^ 31) mod 2 ^ 32 - 2 ^ 31.

End utime.

(** ** The timer queue *)

Module utimeq.

(** The [utimeq] extension module is a C module of the firmware; the loop
    uses its constructor and the methods [push], [peektime], [pop] and
    [discard], and the truth value of a queue. *)

(** Modelled from the spec: a scheduled entry, the triple
    [(deadline_us, task, value)]. *)
Record entry := Entry { deadline : Z; task : Task; value_ : value }.

(** Modelled from the spec: the timer queue, a bounded queue of entries
    with a fixed capacity.  The entries are kept in insertion order. *)
Record t := Queue { capacity : nat; heap : list entry }.

(** Modelled from the spec: [utimeq.utimeq(capacity)], the empty queue. *)
Definition utimeq (capacity : nat) : t := Queue capacity [].

(** Modelled from the spec: [len / nonempty], the truth value of the
    queue. *)
Definition nonempty (q : t) : bool :=
  match heap q with [] => false | _ => true end.

(** Modelled from the spec: the comparison of deadlines, by wrap-aware
    signed difference: [a] is strictly earlier than [b]. *)
Definition earlier (a b : entry) : bool :=
  utime.ticks_diff (deadline a) (deadline b) <? 0.

(** Modelled from the spec: the earliest entry of the queue and the rest
    of it; entries are ordered by deadline, ties broken by insertion
    order: an entry is selected over the ones inserted before it only
    when it is strictly earlier. *)
Fixpoint pop_earliest (l : list entry) : option (entry * list entry) :=
  match l with
  | [] => None
  | e :: l' =>
      match pop_earliest l' with
      | None => Some (e, [])
      | Some (m, r) => if earlier m e then Some (m, e :: r) else Some (e, l')
      end
  end.

(** Modelled from the spec: [push(deadline, task, value)], which fails
    with [QueueFull] when the capacity is exhausted. *)
Definition push (q : t) (d : Z) (tk : Task) (v : value) : option t :=
  if decide (length (heap q) < capacity q)%nat
  then Some (Queue (capacity q) (heap q ++ [Entry d tk v]))
  else None.

(** Modelled from the spec: [peek_time()], the earliest deadline, without
    removing its entry. *)
Definition peektime (q : t) : option Z :=
  match pop_earliest (heap q) with
  | Some (m, _) => Some (deadline m)
  | None => None
  end.

(** Modelled from the spec: [pop_earliest()], which removes the earliest
    entry. *)
Definition pop (q : t) : option (entry * t) :=
  match pop_earliest (heap q) with
  | Some (m, r) => Some (m, Queue (capacity q) r)
  | None => None
  end.

(** Modelled from the spec: [remove(task)], which drops any entry for
    [task]; no error if absent. *)
Definition discard (q : t) (tk : Task) : t :=
  Queue (capacity q) (filter (λ e, task e ≠ tk) (heap q)).

(** The order in which successive [pop]s return the entries. *)
Fixpoint drain (fuel : nat) (l : list entry) : list entry :=
  match fuel with
  | O => []
  | S n =>
      match pop_earliest l with
      | None => []
      | Some (m, r) => m :: drain n r
      end
  end.

Definition pop_order (q : t) : list entry := drain (length (heap q)) (heap q).

End utimeq.

(** ** Requests a task may yield *)

Inductive Syscall :=
| SysBase                      (* a plain [Syscall()], [handle] does nothing *)
| SysSleep (delay_us : Z)      (* [sleep(delay_us)] *)
| SysWait (msg_iface : Z)      (* [wait(msg_iface)] *)
| SysSignal (s : nat)          (* a [signal] object *)
| SysSpawn (s : nat).          (* a [spawn] object *)

Inductive yielded :=
| YSyscall (sc : Syscall)
| YNone
| YOther (v : value).

Global Instance Syscall_eq_dec : EqDecision Syscall.
Proof. solve_decision. Defined.

(** What a generator receives when it is resumed. *)
Inductive resume_input :=
| Send (v : value)
| Throw (e : exn).

(** A finalizer: the bound method [spawn._finish] of a spawn object, or a
    callback of the caller of [schedule], known by its identity only. *)
Inductive Finalizer :=
| FinSpawn (s : nat)
| FinExt (f : nat).

(** The outcome of [io.poll(_paused, msg_entry, delay)] *)
Inductive poll_outcome :=
| Message (iface : Z) (payload : value)
| Timeout.

(** One call of [io.poll]: the time that passed in it and its outcome. *)
Record poll_result := Poll { elapsed_us : Z; outcome : poll_outcome }.

(** Calls to code outside the loop, and the writes of the finalizer table. *)
Inductive event :=
| EvSend (t : Task) (v : value)              (* [task.send(value)] *)
| EvThrow (t : Task) (e : exn)               (* [task.throw(value)] *)
| EvClose (t : Task)                         (* [task.close()] *)
| EvInstall (t : Task) (f : Finalizer)       (* [_finalizers[id(task)] = f] *)
| EvFinalizer (f : Finalizer) (t : Task) (v : value)  (* [fn(task, value)] *)
| EvHook                                     (* [after_step_hook()] *)
| EvPoll (delay : Z)                         (* [io.poll(_, _, delay)] *)
| EvLogDebug (t : Task)                      (* [log.debug "finish"] *)
| EvLogException (e : exn)                   (* [log.exception] *)
| EvLogError (y : value).                    (* [log.error "unknown syscall"] *)

Section Loop.

(** The frames of the tasks' own code, and what a frame does when it is
    resumed: it runs to its next suspension point. *)
Context {code : Type}.

Inductive step_result :=
| OYield (y : yielded) (k : code)   (* [yield y], directly *)
| OAwait (sc : Syscall) (k : code)  (* [await sc]: suspended in [sc.__iter__] *)
| OReturn (v : value)
| ORaise (e : exn).

Variable run_code : code -> resume_input -> step_result.

(** A generator object. *)
Inductive gen :=
| GFresh (c : code)                       (* created, not started *)
| GSusp (via : option Syscall) (c : code) (* suspended at a [yield] *)
| GRunning                                (* executing *)
| GDone.                                  (* returned, failed or closed *)

(** A child of a [spawn]: a generator object, or another awaitable, from
    which [iter] makes a new generator running the given code. *)
Inductive awaitable :=
| AGen (t : Task)
| AIter (obj : nat) (c : code).

Record signal_obj := Signal { sig_value : option value; sig_task : option Task }.

Record spawn_obj := Spawn {
  children : list awaitable;
  exit_others : bool;
  finished : list awaitable;
  scheduled : list Task;
  callback : option Task
}.

(** ** Process-wide state *)

Record state := State {
  after_step_hook : bool;
  _queue : utimeq.t;
  _paused : gmap Z (gset Task);
  _finalizers : gmap Task Finalizer;
  signals : gmap nat signal_obj;
  spawns : gmap nat spawn_obj;
  gens : gmap Task gen;
  next_task : Task;
  ticks_us : Z;
  trace : list event
}.

Definition set_hook (h : bool) (st : state) : state :=
  State h (_queue st) (_paused st) (_finalizers st) (signals st) (spawns st)
        (gens st) (next_task st) (ticks_us st) (trace st).
Definition set_queue (q : utimeq.t) (st : state) : state :=
  State (after_step_hook st) q (_paused st) (_finalizers st) (signals st)
        (spawns st) (gens st) (next_task st) (ticks_us st) (trace st).
Definition set_paused (p : gmap Z (gset Task)) (st : state) : state :=
  State (after_step_hook st) (_queue st) p (_finalizers st) (signals st)
        (spawns st) (gens st) (next_task st) (ticks_us st) (trace st).
Definition set_finalizers (f : gmap Task Finalizer) (st : state) : state :=
  State (after_step_hook st) (_queue st) (_paused st) f (signals st)
        (spawns st) (gens st) (next_task st) (ticks_us st) (trace st).
Definition set_signals (s : gmap nat signal_obj) (st : state) : state :=
  State (after_step_hook st) (_queue st) (_paused st) (_finalizers st) s
        (spawns st) (gens st) (next_task st) (ticks_us st) (trace st).
Definition set_spawns (s : gmap nat spawn_obj) (st : state) : state :=
  State (after_step_hook st) (_queue st) (_paused st) (_finalizers st)
        (signals st) s (gens st) (next_task st) (ticks_us st) (trace st).
Definition set_gens (g : gmap Task gen) (st : state) : state :=
  State (after_step_hook st) (_queue st) (_paused st) (_finalizers st)
        (signals st) (spawns st) g (next_task st) (ticks_us st) (trace st).
Definition set_next_task (n : Task) (st : state) : state :=
  State (after_step_hook st) (_queue st) (_paused st) (_finalizers st)
        (signals st) (spawns st) (gens st) n (ticks_us st) (trace st).
Definition set_ticks (now : Z) (st : state) : state :=
  State (after_step_hook st) (_queue st) (_paused st) (_finalizers st)
        (signals st) (spawns st) (gens st) (next_task st) now (trace st).
Definition set_trace (tr : list event) (st : state) : state :=
  State (after_step_hook st) (_queue st) (_paused st) (_finalizers st)
        (signals st) (spawns st) (gens st) (next_task st) (ticks_us st) tr.

(** The state of the module when it is loaded, with the generator,
    signal and spawn objects of the application. *)
Definition initial (sg : gmap nat signal_obj) (sp : gmap nat spawn_obj)
    (gs : gmap Task gen) (fresh : Task) (now : Z) : state :=
  State false (utimeq.utimeq 64) ∅ ∅ sg sp gs fresh now [].

(** ** A state and failure monad

    [Fail e st]: the call raised [e], having changed the state to [st].
    [OutOfFuel]: the nesting of [close] calls exceeded the given bound. *)

Inductive res (A : Type) :=
| Done (a : A) (st : state)
| Fail (e : exn) (st : state)
| OutOfFuel.
Arguments Done {A} a st.
Arguments Fail {A} e st.
Arguments OutOfFuel {A}.

Definition M (A : Type) : Type := state -> res A.

Definition ret {A} (a : A) : M A := λ st, Done a st.
Definition bind {A B} (m : M A) (k : A -> M B) : M B :=
  λ st, match m st with
        | Done a st' => k a st'
        | Fail e st' => Fail e st'
        | OutOfFuel => OutOfFuel
        end.
Definition raise {A} (e : exn) : M A := λ st, Fail e st.
Definition get : M state := λ st, Done st st.
Definition modify (f : state -> state) : M unit := λ st, Done tt (f st).
Definition diverge {A} : M A := λ _, OutOfFuel.

(** [try: m except BaseException as e: h e] *)
Definition catch {A} (m : M A) (h : exn -> M A) : M A :=
  λ st, match m st with
        | Fail e st' => h e st'
        | r => r
        end.

Notation "x <- m ;; k" := (bind m (λ x, k))
  (at level 100, m at next level, right associativity).
Notation "m ;;; k" := (bind m (λ _, k))
  (at level 100, right associativity).

Fixpoint for_each {A} (f : A -> M unit) (l : list A) : M unit :=
  match l with
  | [] => ret tt
  | x :: l' => f x ;;; for_each f l'
  end.

Definition emit (ev : event) : M unit :=
  modify (λ st, set_trace (trace st ++ [ev]) st).


(** ** Objects on the heap

    A signal or spawn object that has not been written yet is as its
    constructor leaves it. *)

Definition get_signal (s : nat) : M signal_obj :=
  st <- get ;; ret (default (Signal None None) (signals st !! s)).
Definition update_signal (s : nat) (f : signal_obj -> signal_obj) : M unit :=
  sg <- get_signal s ;;
  modify (λ st, set_signals (<[s := f sg]> (signals st)) st).

Definition get_spawn (s : nat) : M spawn_obj :=
  st <- get ;; ret (default (Spawn [] true [] [] None) (spawns st !! s)).
Definition update_spawn (s : nat) (f : spawn_obj -> spawn_obj) : M unit :=
  sp <- get_spawn s ;;
  modify (λ st, set_spawns (<[s := f sp]> (spawns st)) st).

(** A generator the store does not know is exhausted. *)
Definition get_gen (t : Task) : M gen :=
  st <- get ;; ret (default GDone (gens st !! t)).
Definition set_gen (t : Task) (g : gen) : M unit :=
  modify (λ st, set_gens (<[t := g]> (gens st)) st).

(** ** [schedule], [pause], [finalize] *)

Definition schedule (task : Task) (value : value) (deadline : option Z)
    (finalizer : option Finalizer) : M unit :=
  st <- get ;;
  let deadline := match deadline with
                  | None => ticks_us st
                  | Some d => d
                  end in
  match finalizer with
  | Some fn =>
      modify (λ st, set_finalizers (<[task := fn]> (_finalizers st)) st) ;;;
      emit (EvInstall task fn)
  | None => ret tt
  end ;;;
  st <- get ;;
  match utimeq.push (_queue st) deadline task value with
  | Some q => modify (set_queue q)
  | None => raise QueueFull
  end.

Definition pause (task : Task) (iface : Z) : M unit :=
  modify (λ st,
    let tasks := default ∅ (_paused st !! iface) in
    set_paused (<[iface := tasks ∪ {[task]}]> (_paused st)) st).

(** [fn(task, value)], for the finalizer [fn] *)
Definition call_finalizer (finish : nat -> Task -> value -> M unit)
    (fn : Finalizer) (task : Task) (v : value) : M unit :=
  emit (EvFinalizer fn task v) ;;;
  match fn with
  | FinSpawn s => finish s task v
  | FinExt _ => ret tt
  end.

Definition finalize_with (finish : nat -> Task -> value -> M unit)
    (task : Task) (v : value) : M unit :=
  st <- get ;;
  match _finalizers st !! task with
  | Some fn =>
      modify (λ st, set_finalizers (delete task (_finalizers st)) st) ;;;
      call_finalizer finish fn task v
  | None => ret tt
  end.

(** ** [spawn.exit] and [spawn._finish], over the [close] they call *)

Fixpoint index_of (task : Task) (l : list Task) : option nat :=
  match l with
  | [] => None
  | x :: l' => if decide (x = task) then Some O else S <$> index_of task l'
  end.

Definition spawn_exit_with (closef : Task -> M unit) (s : nat)
    (except_for : option Task) : M unit :=
  sp <- get_spawn s ;;
  for_each (λ task, if decide (Some task ≠ except_for)
                    then closef task else ret tt)
           (scheduled sp).

Definition spawn__finish_with (closef : Task -> M unit) (s : nat)
    (task : Task) (result : value) : M unit :=
  sp <- get_spawn s ;;
  match finished sp with
  | [] =>
      match index_of task (scheduled sp) with
      | Some index =>
          match children sp !! index with
          | Some child =>
              update_spawn s (λ sp, Spawn (children sp) (exit_others sp)
                                      (finished sp ++ [child])
                                      (scheduled sp) (callback sp)) ;;;
              (if exit_others sp
               then spawn_exit_with closef s (Some task) else ret tt) ;;;
              sp <- get_spawn s ;;
              match callback sp with
              | Some parent => schedule parent result None None
              | None => raise AttributeError
              end
          | None => raise IndexError
          end
      | None => raise NameError   (* [child] was never bound *)
      end
  | _ :: _ => ret tt
  end.

(** ** Generator objects: [send], [throw], [close] *)

Inductive gen_result :=
| Yielded (y : yielded)
| Returned (v : value)      (* [StopIteration(v)] *)
| Raised (e : exn).

(** The generator [t] has run to [r]. *)
Definition settle (t : Task) (r : step_result) : M gen_result :=
  match r with
  | OYield y k => set_gen t (GSusp None k) ;;; ret (Yielded y)
  | OAwait sc k => set_gen t (GSusp (Some sc) k) ;;; ret (Yielded (YSyscall sc))
  | OReturn v => set_gen t GDone ;;; ret (Returned v)
  | ORaise e => set_gen t GDone ;;; ret (Raised e)
  end.

(** The [except:] clause of the [__iter__] the generator is suspended
    in: [signal.__iter__] forgets the waiter, [spawn.__iter__] kills the
    children, [Syscall.__iter__] has none. *)
Definition iter_except (closef : Task -> M unit) (via : option Syscall)
    : M unit :=
  match via with
  | Some (SysSignal s) =>
      update_signal s (λ sg, Signal (sig_value sg) None)
  | Some (SysSpawn s) => spawn_exit_with closef s None
  | _ => ret tt
  end.

Definition gen_send (t : Task) (v : value) : M gen_result :=
  g <- get_gen t ;;
  match g with
  | GFresh c =>
      if decide (v = VNone) then settle t (run_code c (Send VNone))
      else ret (Raised TypeError)
  | GSusp _ c => settle t (run_code c (Send v))
  | GRunning => ret (Raised ValueError)
  | GDone => ret (Returned VNone)
  end.

Definition gen_throw (closef : Task -> M unit) (t : Task) (e : exn)
    : M gen_result :=
  g <- get_gen t ;;
  match g with
  | GFresh _ => set_gen t GDone ;;; ret (Raised e)
  | GSusp via c =>
      set_gen t GRunning ;;;
      (* the clause runs, then re-raises; a failure of the clause itself
         takes the place of [e] *)
      e' <- catch (iter_except closef via ;;; ret e) (λ e', ret e') ;;
      settle t (run_code c (Throw e'))
  | GRunning => ret (Raised ValueError)
  | GDone => ret (Raised e)
  end.

Definition gen_close (closef : Task -> M unit) (t : Task) : M unit :=
  g <- get_gen t ;;
  match g with
  | GFresh _ => set_gen t GDone
  | GSusp _ _ =>
      r <- gen_throw closef t GeneratorExit ;;
      match r with
      | Yielded _ => raise RuntimeError   (* ignored GeneratorExit *)
      | Returned _ => ret tt
      | Raised GeneratorExit => ret tt
      | Raised e => raise e
      end
  | GRunning => raise ValueError
  | GDone => ret tt
  end.

(** ** [close] *)

Definition close_body (closef : Task -> M unit) (task : Task) : M unit :=
  modify (λ st, set_paused ((λ tasks, tasks ∖ {[task]}) <$> _paused st) st) ;;;
  modify (λ st, set_queue (utimeq.discard (_queue st) task) st) ;;;
  emit (EvClose task) ;;;
  gen_close closef task ;;;
  finalize_with (spawn__finish_with closef) task (VExc GeneratorExit).

(** [fuel] bounds the nesting of [close] calls (a task closing the
    children of the spawn it awaits, a finalizer closing siblings). *)
Fixpoint close (fuel : nat) (task : Task) : M unit :=
  match fuel with
  | O => diverge
  | S n => close_body (close n) task
  end.

Definition spawn_exit (fuel : nat) := spawn_exit_with (close fuel).
Definition spawn__finish (fuel : nat) := spawn__finish_with (close fuel).
Definition finalize (fuel : nat) := finalize_with (spawn__finish fuel).

(** ** The syscalls' [handle] *)

Definition sleep_handle (delay_us : Z) (task : Task) : M unit :=
  st <- get ;;
  let deadline := utime.ticks_add (ticks_us st) delay_us in
  schedule task (VInt deadline) (Some deadline) None.

Definition wait_handle (msg_iface : Z) (task : Task) : M unit :=
  pause task msg_iface.

Definition signal_reset (s : nat) : M unit :=
  update_signal s (λ _, Signal None None).

Definition signal__deliver (s : nat) : M unit :=
  sg <- get_signal s ;;
  match sig_task sg, sig_value sg with
  | Some task, Some v =>
      schedule task v None None ;;;
      update_signal s (λ sg, Signal (sig_value sg) None) ;;;
      update_signal s (λ sg, Signal None (sig_task sg))
  | _, _ => ret tt
  end.

Definition signal_handle (s : nat) (task : Task) : M unit :=
  update_signal s (λ sg, Signal (sig_value sg) (Some task)) ;;;
  signal__deliver s.

Definition signal_send (s : nat) (v : value) : M unit :=
  update_signal s (λ sg, Signal (Some v) (sig_task sg)) ;;;
  signal__deliver s.

(** [child] if it is a generator, [iter(child)] otherwise *)
Definition child_task_of (child : awaitable) : M Task :=
  match child with
  | AGen t => ret t
  | AIter _ c =>
      st <- get ;;
      let t := next_task st in
      modify (set_next_task (S t)) ;;;
      set_gen t (GFresh c) ;;;
      ret t
  end.

Definition spawn_handle (s : nat) (task : Task) : M unit :=
  update_spawn s (λ sp, Spawn (children sp) (exit_others sp)
                          (finished sp) (scheduled sp) (Some task)) ;;;
  update_spawn s (λ sp, Spawn (children sp) (exit_others sp)
                          (finished sp) [] (callback sp)) ;;;
  update_spawn s (λ sp, Spawn (children sp) (exit_others sp)
                          [] (scheduled sp) (callback sp)) ;;;
  sp <- get_spawn s ;;
  for_each (λ child,
      child_task <- child_task_of child ;;
      schedule child_task VNone None (Some (FinSpawn s)) ;;;
      update_spawn s (λ sp, Spawn (children sp) (exit_others sp)
                              (finished sp) (scheduled sp ++ [child_task])
                              (callback sp)))
    (children sp).

Definition handle (sc : Syscall) (task : Task) : M unit :=
  match sc with
  | SysBase => ret tt
  | SysSleep delay_us => sleep_handle delay_us task
  | SysWait msg_iface => wait_handle msg_iface task
  | SysSignal s => signal_handle s task
  | SysSpawn s => spawn_handle s task
  end.

(** ** [_step] *)

(** The [except] clauses and the [else] clause of [_step], for the
    result [r] of resuming the task. *)
Definition _step_result (fuel : nat) (task : Task) (r : gen_result)
    : M unit :=
  match r with
  | Returned v =>          (* except StopIteration as e *)
      emit (EvLogDebug task) ;;;
      finalize fuel task v
  | Raised e =>            (* except Exception as e *)
      if is_Exception e
      then emit (EvLogException e) ;;; finalize fuel task (VExc e)
      else raise e
  | Yielded result =>      (* else *)
      match result with
      | YSyscall sc => handle sc task
      | YNone => schedule task VNone None None
      | YOther v => emit (EvLogError v)
      end ;;;
      st <- get ;;
      if after_step_hook st then emit EvHook else ret tt
  end.

Definition _step (fuel : nat) (task : Task) (value : value) : M unit :=
  r <- match value with
       | VExc e => emit (EvThrow task e) ;;; gen_throw (close fuel) task e
       | _ => emit (EvSend task value) ;;; gen_send task value
       end ;;
  _step_result fuel task r.

(** ** [run] and [clear] *)

Definition max_delay : Z := 1000000.

(** The maximum amount of time the loop can wait for a message. *)
Definition poll_delay : M Z :=
  st <- get ;;
  if utimeq.nonempty (_queue st)
  then match utimeq.peektime (_queue st) with
       | Some tm => ret (utime.ticks_diff tm (ticks_us st))
       | None => raise IndexError
       end
  else ret max_delay.

(** [io.poll(_paused, msg_entry, delay)], giving the answer [p] *)
Definition io_poll (delay : Z) (p : poll_result) : M poll_outcome :=
  emit (EvPoll delay) ;;;
  modify (λ st, set_ticks (utime.ticks_add (ticks_us st) (elapsed_us p)) st) ;;;
  ret (outcome p).

(** The two branches of the loop body, after [io.poll]. *)
Definition dispatch (fuel : nat) (o : poll_outcome) : M unit :=
  match o with
  | Message iface payload =>
      (* message received, run tasks paused on the interface *)
      st <- get ;;
      let msg_tasks := default ∅ (_paused st !! iface) in
      modify (λ st, set_paused (delete iface (_paused st)) st) ;;;
      for_each (λ task, _step fuel task payload) (elements msg_tasks)
  | Timeout =>
      (* timeout occurred, run the first scheduled task *)
      st <- get ;;
      if utimeq.nonempty (_queue st)
      then match utimeq.pop (_queue st) with
           | Some (task_entry, q) =>
               modify (set_queue q) ;;;
               _step fuel (utimeq.task task_entry) (utimeq.value_ task_entry)
           | None => raise IndexError
           end
      else ret tt
  end.

(** One turn of the [while] loop of [run], for the given answer of
    [io.poll]. *)
Definition run_turn (fuel : nat) (p : poll_result) : M unit :=
  delay <- poll_delay ;;
  o <- io_poll delay p ;;
  dispatch fuel o.

(** [while _queue or _paused] *)
Definition running (st : state) : bool :=
  utimeq.nonempty (_queue st) || bool_decide (_paused st ≠ ∅).

(** [run()], against the answers [io.poll] gives in turn.  The result is
    [true] when the loop has ended, [false] when the answers ran out. *)
Fixpoint run (fuel : nat) (polls : list poll_result) : M bool :=
  st <- get ;;
  if running st then
    match polls with
    | [] => ret false
    | p :: polls' => run_turn fuel p ;;; run fuel polls'
    end
  else ret true.

Fixpoint pop_all (n : nat) (q : utimeq.t) : utimeq.t :=
  match n with
  | O => q
  | S n' => match utimeq.pop q with
            | Some (_, q') => pop_all n' q'
            | None => q
            end
  end.

Definition clear : M unit :=
  modify (λ st, set_queue (pop_all (length (utimeq.heap (_queue st))) (_queue st)) st) ;;;
  modify (set_paused ∅) ;;;
  modify (set_finalizers ∅).

(** ** Sequences of scheduler operations *)

Inductive op :=
| OpSchedule (task : Task) (v : value) (deadline : option Z)
             (finalizer : option Finalizer)
| OpPause (task : Task) (iface : Z)
| OpClose (task : Task)
| OpClear
| OpTurn (p : poll_result)
| OpSend (s : nat) (v : value)
| OpReset (s : nat)
| OpSetHook (h : bool)
| OpTick (elapsed : Z).

Definition run_op (fuel : nat) (o : op) : M unit :=
  match o with
  | OpSchedule task v deadline finalizer => schedule task v deadline finalizer
  | OpPause task iface => pause task iface
  | OpClose task => close fuel task
  | OpClear => clear
  | OpTurn p => run_turn fuel p
  | OpSend s v => signal_send s v
  | OpReset s => signal_reset s
  | OpSetHook h => modify (set_hook h)
  | OpTick elapsed =>
      modify (λ st, set_ticks (utime.ticks_add (ticks_us st) elapsed) st)
  end.

(** The caller of a failing operation goes on with the next one. *)
Fixpoint exec (fuel : nat) (ops : list op) (st : state) : option state :=
  match ops with
  | [] => Some st
  | o :: ops' =>
      match run_op fuel o st with
      | Done _ st' | Fail _ st' => exec fuel ops' st'
      | OutOfFuel => None
      end
  end.

End Loop.

Arguments Done {code A} a st.
Arguments Fail {code A} e st.
Arguments OutOfFuel {code A}.

(** ** Task bodies for the scenarios

    A body is a straight line of suspension points.  [TryYield y k h] is
    [try: yield y  except: h], followed by [k]; at the other suspension
    points a failure thrown into the task propagates. *)

Inductive script :=
| Return (v : value)
| Raise (e : exn)
| Yield (y : yielded) (k : script)
| Await (sc : Syscall) (k : script)
| TryYield (y : yielded) (k : script) (h : script).

Inductive frame :=
| Start (body : script)
| Resume (k : script) (h : option script).

Definition run_script (s : script) : @step_result frame :=
  match s with
  | Return v => OReturn v
  | Raise e => ORaise e
  | Yield y k => OYield y (Resume k None)
  | Await sc k => OAwait sc (Resume k None)
  | TryYield y k h => OYield y (Resume k (Some h))
  end.

Definition run_frame (f : frame) (i : resume_input) : @step_result frame :=
  match f, i with
  | Start body, Send _ => run_script body
  | Start _, Throw e => ORaise e
  | Resume k _, Send _ => run_script k
  | Resume _ (Some h), Throw _ => run_script h
  | Resume _ None, Throw e => ORaise e
  end.

(** *** Scenarios *)

Module Scenario.

Local Open Scope nat_scope.

(** Task 1 yields the integer 5, which is no syscall. *)
Definition unknown_request : @state frame :=
  initial ∅ ∅ {[ 1 := GFresh (Start (Yield (YOther (VInt 5)) (Return VNone))) ]}
          2 0%Z.

(** Task 1 awaits spawn 0, whose only child is the generator 2, itself
    about to sleep. *)
Definition parent_and_child : @state frame :=
  initial ∅ {[ 0 := Spawn [AGen 2] true [] [] None ]}
          {[ 1 := GFresh (Start (Await (SysSpawn 0) (Return VNone)));
             2 := GFresh (Start (Await (SysSleep 1000) (Return VNone))) ]}
          3 0%Z.

(** Task 1 returns at once, task 2 fails at once; a hook is installed. *)
Definition hooked : @state frame :=
  set_hook true
    (initial ∅ ∅ {[ 1 := GFresh (Start (Return (VInt 7)));
                    2 := GFresh (Start (Raise (Exc 3))) ]}
             3 0%Z).

(** Task 1 is scheduled for the instant 0. *)
Definition one_task : @state frame :=
  initial ∅ ∅ {[ 1 := GFresh (Start (Return VNone)) ]} 2 0%Z.

(** Task 1 yields inside a [try] whose handler fails with [Exc 7]. *)
Definition failing_unwind : @state frame :=
  initial ∅ ∅
          {[ 1 := GFresh (Start (TryYield YNone (Return VNone) (Raise (Exc 7)))) ]}
          2 0%Z.

(** Task 1 awaits spawn 0, which has no children. *)
Definition empty_spawn : @state frame :=
  initial ∅ {[ 0 := Spawn [] true [] [] None ]}
          {[ 1 := GFresh (Start (Await (SysSpawn 0) (Return VNone))) ]}
          2 0%Z.

(** Tasks 1 and 2 wait on interface 7; task 1 waits on it again. *)
Definition two_waiters : @state frame :=
  initial ∅ ∅
          {[ 1 := GFresh (Start (Await (SysWait 7)
                                   (Await (SysWait 7) (Return VNone))));
             2 := GFresh (Start (Await (SysWait 7) (Return VNone))) ]}
          3 0%Z.

(** Task 1 sleeps 2000 microseconds, task 2 sleeps 1000. *)
Definition sleepers : @state frame :=
  initial ∅ ∅
          {[ 1 := GFresh (Start (Await (SysSleep 2000) (Return VNone)));
             2 := GFresh (Start (Await (SysSleep 1000) (Return VNone))) ]}
          3 0%Z.

End Scenario.

(** ** Vocabulary of the statements *)

(** Every run of [m] that ends, normally or with a failure, relates the
    state it starts in to the state it ends in. *)
Definition respects {code A} (R : relation (@state code)) (m : @M code A)
    : Prop :=
  ∀ st, match m st with
        | Done _ st' | Fail _ st' => R st st'
        | OutOfFuel => True
        end.

(** The state in which a run ended, normally or with a failure. *)
Definition final_state {code A} (r : @res code A) : option (@state code) :=
  match r with
  | Done _ st | Fail _ st => Some st
  | OutOfFuel => None
  end.

(** [m'] ends as [m] does, whenever [m] ends within its bound. *)
Definition below {code A} (m m' : @M code A) : Prop :=
  ∀ st, m st = OutOfFuel ∨ m st = m' st.

Definition count_events (p : event -> bool) (tr : list event) : nat :=
  length (List.filter p tr).

(** [ev] is a call of a finalizer on task [t] *)
Definition is_call_of (t : Task) (ev : event) : bool :=
  match ev with
  | EvFinalizer _ t' _ => bool_decide (t' = t)
  | _ => false
  end.

(** [ev] is the installation of a finalizer for task [t] *)
Definition is_install_of (t : Task) (ev : event) : bool :=
  match ev with
  | EvInstall t' _ => bool_decide (t' = t)
  | _ => false
  end.

Definition fired (t : Task) (tr : list event) : nat :=
  count_events (is_call_of t) tr.
Definition installs (t : Task) (tr : list event) : nat :=
  count_events (is_install_of t) tr.

(** 1 when a finalizer is installed for [t], 0 otherwise *)
Definition pending {code} (t : Task) (st : @state code) : nat :=
  match _finalizers st !! t with
  | Some _ => 1
  | None => 0
  end.

(** From [st] to [st'], no task had more finalizer calls than it had
    finalizers consumed or newly installed. *)
Definition fin_le {code} (st st' : @state code) : Prop :=
  ∀ t, (fired t (trace st') + pending t st' + installs t (trace st)
        ≤ fired t (trace st) + pending t st + installs t (trace st'))%nat.

(** [ev] resumes a task: [task.send] or [task.throw] *)
Definition is_resume (ev : event) : bool :=
  match ev with
  | EvSend _ _ | EvThrow _ _ => true
  | _ => false
  end.

(** How [_step(task, value)] resumes the task. *)
Definition resume_event (v : value) (t : Task) : event :=
  match v with
  | VExc e => EvThrow t e
  | _ => EvSend t v
  end.

(** [st'] has the trace of [st] and further events, all of them in [P]. *)
Definition appends {code} (P : event -> bool) (st st' : @state code) : Prop :=
  ∃ evs, trace st' = trace st ++ evs ∧ forallb P evs = true.

(** The delay the loop computes for [io.poll] in the state [st]. *)
Definition budget {code} (st : @state code) : Z :=
  match utimeq.peektime (_queue st) with
  | Some tm => utime.ticks_diff tm (ticks_us st)
  | None => max_delay
  end.

(** The state in which [io.poll] returns, called with [delay] and taking
    [elapsed] microseconds. *)
Definition polled {code} (delay elapsed : Z) (st : @state code) : state :=
  set_ticks (utime.ticks_add (ticks_us st) elapsed)
            (set_trace (trace st ++ [EvPoll delay]) st).

(** The signal object [s] and the spawn object [s] in the state [st]. *)
Definition signal_of {code} (st : @state code) (s : nat) : signal_obj :=
  default (Signal None None) (signals st !! s).
Definition spawn_of {code} (st : @state code) (s : nat) : @spawn_obj code :=
  default (Spawn [] true [] [] None) (spawns st !! s).

(** [ev] resumes the task [t]: [t.send] or [t.throw] *)
Definition resumes (t : Task) (ev : event) : bool :=
  match ev with
  | EvSend t' _ | EvThrow t' _ => bool_decide (t' = t)
  | _ => false
  end.

(** Among the events [evs], no resumption of [b] comes before the event
    [ra]. *)
Definition resumed_first (ra : event) (b : Task) (evs : list event) : Prop :=
  ∀ pre ev post, evs = pre ++ ev :: post -> resumes b ev = true -> ra ∈ pre.

(** [P] holds afterwards whenever it held before. *)
Definition preserves {code} (P : @state code -> Prop)
    : relation (@state code) :=
  λ st st', P st -> P st'.

(** No spawn refers to the task [t], which is an existing generator: it is
    not a child of a spawn and none has scheduled it.  (The identities
    from [next_task] on are those of the generators [iter] has yet to
    make.) *)
Definition outside_spawns {code} (st : @state code) (t : Task) : Prop :=
  (t < next_task st)%nat
  ∧ ∀ s, t ∉ scheduled (spawn_of st s) ∧ AGen t ∉ children (spawn_of st s).

(** Nothing is due to resume the task [t]: it has no entry in the queue
    and waits on no interface, for no spawn and for no signal. *)
Definition idle {code} (st : @state code) (t : Task) : Prop :=
  (∀ e, e ∈ utimeq.heap (_queue st) -> utimeq.task e ≠ t)
  ∧ (∀ i ws, _paused st !! i = Some ws -> t ∉ ws)
  ∧ (∀ s, callback (spawn_of st s) ≠ Some t)
  ∧ (∀ s, sig_task (signal_of st s) ≠ Some t).

(** The spawn [sp] refers neither to [a] nor to [b]. *)
Definition spawn_apart {code} (a b : Task) (sp : @spawn_obj code) : Prop :=
  callback sp ≠ Some b
  ∧ a ∉ scheduled sp ∧ b ∉ scheduled sp
  ∧ AGen a ∉ children sp ∧ AGen b ∉ children sp.

(** The entry [ea] is in the queue, inserted before the entry [eb], which
    is the only thing due to resume its task; no spawn refers to the task
    of either. *)
Definition tie_pending {code} (ea eb : utimeq.entry) (st : @state code)
    : Prop :=
  (∃ l1 l2 l3, utimeq.heap (_queue st) = l1 ++ ea :: l2 ++ eb :: l3)
  ∧ filter (λ e, utimeq.task e = utimeq.task eb) (utimeq.heap (_queue st))
    = [eb]
  ∧ (∀ i ws, _paused st !! i = Some ws -> utimeq.task eb ∉ ws)
  ∧ (∀ s, sig_task (signal_of st s) ≠ Some (utimeq.task eb))
  ∧ (∀ s, spawn_apart (utimeq.task ea) (utimeq.task eb) (spawn_of st s))
  ∧ (utimeq.task ea < next_task st)%nat
  ∧ (utimeq.task eb < next_task st)%nat.

(** Since the trace was [tr0]: the task of [ea] has been resumed with the
    value of [ea] and that of [eb] was not resumed before; or the task of
    [eb] has not been resumed and the two entries are still pending. *)
Definition tie_inv {code} (tr0 : list event) (ea eb : utimeq.entry)
    (st : @state code) : Prop :=
  ∃ evs, trace st = tr0 ++ evs
    ∧ ((∃ pre post,
           evs = pre ++ resume_event (utimeq.value_ ea) (utimeq.task ea) :: post
           ∧ Forall (λ ev, resumes (utimeq.task eb) ev = false) pre)
       ∨ (Forall (λ ev, resumes (utimeq.task eb) ev = false) evs
          ∧ tie_pending ea eb st)).

(** [fn(task, value)], for the finalizer [fn] that [finalize] has popped *)
Definition finalizer_body {code}
    (run_code : code -> resume_input -> @step_result code) fuel
    (fn : Finalizer) (task : Task) (v : value) : @M code unit :=
  match fn with
  | FinSpawn s => spawn__finish run_code fuel s task v
  | FinExt _ => ret tt
  end.

(** The elementary changes of state made by [close], by [finalize] and by
    what they call: the unwinding of a generator, [spawn.exit] and
    [spawn._finish]. *)
Inductive cancel_step {code} : relation (@state code) :=
| cs_gen st t g :
    cancel_step st (set_gens (<[t := g]> (gens st)) st)
| cs_forget_waiter st s :          (* [self.task = None] *)
    cancel_step st
      (set_signals (<[s := Signal (sig_value (signal_of st s)) None]>
                      (signals st)) st)
| cs_finished st s child :         (* [self.finished.append(child)] *)
    finished (spawn_of st s) = [] ->
    cancel_step st
      (set_spawns (<[s := Spawn (children (spawn_of st s))
                             (exit_others (spawn_of st s))
                             [child]
                             (scheduled (spawn_of st s))
                             (callback (spawn_of st s))]>
                     (spawns st)) st)
| cs_emit st ev :                  (* [task.close()], [fn(task, value)] *)
    match ev with EvClose _ | EvFinalizer _ _ _ => True | _ => False end ->
    cancel_step st (set_trace (trace st ++ [ev]) st)
| cs_push st t v q :               (* [schedule(self.callback, result)] *)
    utimeq.push (_queue st) (ticks_us st) t v = Some q ->
    cancel_step st (set_queue q st)
| cs_discard st t :                (* [_queue.discard(task)] *)
    cancel_step st (set_queue (utimeq.discard (_queue st) t) st)
| cs_unpause st t :                (* [_paused[iface].discard(task)] *)
    cancel_step st
      (set_paused ((λ tasks, tasks ∖ {[t]}) <$> _paused st) st)
| cs_pop_finalizer st t :          (* [_finalizers.pop(id(task), None)] *)
    cancel_step st (set_finalizers (delete t (_finalizers st)) st).

(** The elementary changes of state made by the syscalls' [handle] and by
    [schedule]. *)
Inductive handle_step {code} : relation (@state code) :=
| hs_install st t fn :             (* [_finalizers[id(task)] = finalizer] *)
    handle_step st (set_finalizers (<[t := fn]> (_finalizers st)) st)
| hs_pause st t iface :            (* [pause(task, iface)] *)
    handle_step st
      (set_paused (<[iface := default ∅ (_paused st !! iface) ∪ {[t]}]>
                     (_paused st)) st)
| hs_signal st s sg :              (* a slot of a signal *)
    handle_step st (set_signals (<[s := sg]> (signals st)) st)
| hs_spawn st s sp :               (* an attribute of a spawn *)
    handle_step st (set_spawns (<[s := sp]> (spawns st)) st)
| hs_iter st t c :                 (* [iter(child)] *)
    handle_step st
      (set_gens (<[t := GFresh c]> (gens st)) (set_next_task (S t) st))
| hs_emit st t fn :
    handle_step st (set_trace (trace st ++ [EvInstall t fn]) st)
| hs_push st d t v q :             (* [_queue.push(deadline, task, value)] *)
    utimeq.push (_queue st) d t v = Some q ->
    handle_step st (set_queue q st).

(** * Properties *)

(** ** The monad *)

Section Respects.

Context {code : Type}.
Variable R : relation (@state code).
Context `{!PreOrder R}.

Lemma respects_ret {A} (a : A) : respects R (ret a).
Proof. intros st. simpl. reflexivity. Qed.

Lemma respects_raise {A} (e : exn) : respects R (@raise code A e).
Proof. intros st. simpl. reflexivity. Qed.

Lemma respects_get : respects R get.
Proof. intros st. simpl. reflexivity. Qed.

Lemma respects_diverge {A} : respects R (@diverge code A).
Proof. intros st. exact I. Qed.

Lemma respects_bind {A B} (m : M A) (k : A -> M B) :
  respects R m -> (∀ a, respects R (k a)) -> respects R (bind m k).
Proof.
  intros Hm Hk st. unfold bind. specialize (Hm st).
  destruct (m st) as [a st1|e st1|]; [|assumption|exact I].
  specialize (Hk a st1).
  destruct (k a st1); [| |exact I]; etransitivity; eassumption.
Qed.

Lemma respects_catch {A} (m : M A) (h : exn -> M A) :
  respects R m -> (∀ e, respects R (h e)) -> respects R (catch m h).
Proof.
  intros Hm Hh st. unfold catch. specialize (Hm st).
  destruct (m st) as [a st1|e st1|]; [assumption| |exact I].
  specialize (Hh e st1).
  destruct (h e st1); [| |exact I]; etransitivity; eassumption.
Qed.

Lemma respects_for_each {A} (f : A -> M unit) (l : list A) :
  (∀ x, respects R (f x)) -> respects R (for_each f l).
Proof.
  intros Hf. induction l as [|x l IH]; simpl.
  - apply respects_ret.
  - apply respects_bind; [apply Hf | intros _; exact IH].
Qed.

Lemma respects_modify (f : state -> state) :
  (∀ st, R st (f st)) -> respects R (modify f).
Proof. intros Hf st. simpl. apply Hf. Qed.

End Respects.

(** ** Relations every scheduler function respects

    A preorder [R] on states that allows the elementary changes the
    functions below make is respected by each of them. *)

Create HintDb respects.

Ltac respects_step :=
  lazymatch goal with
  | |- respects ?R (ret _) => refine (respects_ret R _)
  | |- respects ?R (raise _) => refine (respects_raise R _)
  | |- respects ?R get => refine (respects_get R)
  | |- respects ?R diverge => refine (respects_diverge R)
  | |- respects ?R (bind _ _) => refine (respects_bind R _ _ _ _); [| intros ?]
  | |- respects ?R (catch _ _) => refine (respects_catch R _ _ _ _); [| intros ?]
  | |- respects ?R (for_each _ _) => refine (respects_for_each R _ _ _); intros ?
  | |- respects _ (match ?x with _ => _ end) => destruct x
  | |- respects _ _ => solve [eauto with respects]
  end.

Ltac respects_auto := repeat (cbv zeta; respects_step).

Section Core.

Context {code : Type} (run_code : code -> resume_input -> @step_result code).
Variable R : relation (@state code).
Context `{!PreOrder R}.

(** changes outside the finalizer table and the trace *)
Hypothesis R_frame : ∀ st st',
  _finalizers st' = _finalizers st -> trace st' = trace st -> R st st'.
(** [task.close()] *)
Hypothesis R_close : ∀ st t,
  R st (set_trace (trace st ++ [EvClose t]) st).
(** the logger and the hook *)
Hypothesis R_quiet : ∀ st ev,
  match ev with
  | EvHook | EvLogDebug _ | EvLogException _ | EvLogError _ => True
  | _ => False
  end ->
  R st (set_trace (trace st ++ [ev]) st).
(** [_finalizers[id(task)] = fn] *)
Hypothesis R_install : ∀ st t fn,
  R st (set_trace (trace st ++ [EvInstall t fn])
          (set_finalizers (<[t := fn]> (_finalizers st)) st)).
(** [fn = _finalizers.pop(id(task)); fn(task, value)] *)
Hypothesis R_fire : ∀ st t fn v,
  _finalizers st !! t = Some fn ->
  R st (set_trace (trace st ++ [EvFinalizer fn t v])
          (set_finalizers (delete t (_finalizers st)) st)).

Lemma respects_frame (f : state -> state) :
  (∀ st, _finalizers (f st) = _finalizers st) ->
  (∀ st, trace (f st) = trace st) ->
  respects R (modify f).
Proof. intros H1 H2. apply respects_modify. intros st. apply R_frame; auto. Qed.

Local Hint Resolve respects_frame : respects.

Lemma respects_get_signal s : respects R (@get_signal code s).
Proof. unfold get_signal. respects_auto. Qed.
Lemma respects_get_spawn s : respects R (@get_spawn code s).
Proof. unfold get_spawn. respects_auto. Qed.
Lemma respects_get_gen t : respects R (@get_gen code t).
Proof. unfold get_gen. respects_auto. Qed.
Local Hint Resolve respects_get_signal respects_get_spawn respects_get_gen
  : respects.

Lemma respects_update_signal s f : respects R (@update_signal code s f).
Proof. unfold update_signal. respects_auto. Qed.
Lemma respects_update_spawn s f : respects R (@update_spawn code s f).
Proof. unfold update_spawn. respects_auto. Qed.
Lemma respects_set_gen t g : respects R (@set_gen code t g).
Proof. unfold set_gen. respects_auto. Qed.
Local Hint Resolve respects_update_signal respects_update_spawn
  respects_set_gen : respects.

Lemma respects_emit_close t : respects R (@emit code (EvClose t)).
Proof. apply respects_modify. intros st. apply R_close. Qed.
Lemma respects_emit_quiet ev :
  match ev with
  | EvHook | EvLogDebug _ | EvLogException _ | EvLogError _ => True
  | _ => False
  end ->
  respects R (@emit code ev).
Proof. intros H. apply respects_modify. intros st. apply R_quiet, H. Qed.
Local Hint Resolve respects_emit_close : respects.
Local Hint Extern 1 (respects _ (emit _)) =>
  (apply respects_emit_quiet; exact I) : respects.

Lemma respects_schedule task v deadline finalizer :
  respects R (@schedule code task v deadline finalizer).
Proof.
  intros st. unfold schedule, bind, get, modify, emit, ret, raise.
  destruct finalizer as [fn|]; simpl.
  - destruct (utimeq.push _ _ _ _); simpl.
    + etransitivity; [apply R_install|]. apply R_frame; reflexivity.
    + apply R_install.
  - destruct (utimeq.push _ _ _ _); simpl.
    + apply R_frame; reflexivity.
    + reflexivity.
Qed.

Lemma respects_pause task iface : respects R (@pause code task iface).
Proof. unfold pause. respects_auto. Qed.
Local Hint Resolve respects_schedule respects_pause : respects.

Lemma respects_finalize_with finish task v :
  (∀ s t w, respects R (finish s t w)) ->
  respects R (@finalize_with code finish task v).
Proof.
  intros Hfin st.
  unfold finalize_with, call_finalizer, bind, get, modify, emit, ret.
  destruct (_finalizers st !! task) as [fn|] eqn:E; simpl; [|reflexivity].
  pose proof (R_fire st task fn v E) as HR.
  destruct fn as [s|f]; simpl; [|exact HR].
  match goal with |- context [finish s task v ?st1] =>
    pose proof (Hfin s task v st1) as H1; destruct (finish s task v st1) end;
    [| |exact I]; etransitivity; eassumption.
Qed.

Section WithClose.

Variable closef : Task -> @M code unit.
Hypothesis respects_closef : ∀ t, respects R (closef t).
Local Hint Resolve respects_closef : respects.

Lemma respects_spawn_exit_with s except_for :
  respects R (spawn_exit_with closef s except_for).
Proof. unfold spawn_exit_with. respects_auto. Qed.
Local Hint Resolve respects_spawn_exit_with : respects.

Lemma respects_spawn__finish_with s task result :
  respects R (spawn__finish_with closef s task result).
Proof. unfold spawn__finish_with. respects_auto. Qed.
Local Hint Resolve respects_spawn__finish_with : respects.

Lemma respects_settle t r : respects R (@settle code t r).
Proof. unfold settle. respects_auto. Qed.
Local Hint Resolve respects_settle : respects.

Lemma respects_iter_except via : respects R (iter_except closef via).
Proof. unfold iter_except. respects_auto. Qed.
Local Hint Resolve respects_iter_except : respects.

Lemma respects_gen_send t v : respects R (gen_send run_code t v).
Proof. unfold gen_send. respects_auto. Qed.

Lemma respects_gen_throw t e : respects R (gen_throw run_code closef t e).
Proof. unfold gen_throw. respects_auto. Qed.
Local Hint Resolve respects_gen_throw : respects.

Lemma respects_gen_close t : respects R (gen_close run_code closef t).
Proof. unfold gen_close. respects_auto. Qed.
Local Hint Resolve respects_gen_close : respects.

Lemma respects_close_body t : respects R (close_body run_code closef t).
Proof.
  unfold close_body. respects_auto.
  apply respects_finalize_with. intros. apply respects_spawn__finish_with.
Qed.

End WithClose.

Lemma respects_close fuel t : respects R (close run_code fuel t).
Proof.
  revert t. induction fuel as [|n IH]; intros t; simpl.
  - apply respects_diverge.
  - apply respects_close_body. exact IH.
Qed.

Lemma respects_finalize fuel t v : respects R (finalize run_code fuel t v).
Proof.
  apply respects_finalize_with. intros.
  apply respects_spawn__finish_with, respects_close.
Qed.

Local Hint Resolve respects_close respects_finalize respects_gen_send
  respects_gen_throw : respects.

Lemma respects_signal__deliver s : respects R (@signal__deliver code s).
Proof. unfold signal__deliver. respects_auto. Qed.
Local Hint Resolve respects_signal__deliver : respects.

Lemma respects_signal_send s v : respects R (@signal_send code s v).
Proof. unfold signal_send. respects_auto. Qed.

Lemma respects_signal_reset s : respects R (@signal_reset code s).
Proof. unfold signal_reset. respects_auto. Qed.

Lemma respects_child_task_of child : respects R (@child_task_of code child).
Proof. unfold child_task_of. respects_auto. Qed.
Local Hint Resolve respects_child_task_of : respects.

Lemma respects_handle sc task : respects R (@handle code sc task).
Proof.
  unfold handle, sleep_handle, wait_handle, signal_handle, spawn_handle.
  respects_auto.
Qed.
Local Hint Resolve respects_handle : respects.

Lemma respects__step_result fuel task r :
  respects R (_step_result run_code fuel task r).
Proof. unfold _step_result. respects_auto. Qed.


Section Outer.

(** [task.send(value)], [task.throw(value)] *)
Hypothesis R_resume : ∀ st ev,
  is_resume ev = true -> R st (set_trace (trace st ++ [ev]) st).
(** [io.poll] *)
Hypothesis R_poll : ∀ st delay, R st (set_trace (trace st ++ [EvPoll delay]) st).
(** [_finalizers.clear()] *)
Hypothesis R_clear : ∀ st, R st (set_finalizers ∅ st).

Local Hint Resolve respects_frame respects_close respects_finalize
  respects_gen_send respects_gen_throw respects_schedule respects_pause
  respects_signal_send respects_signal_reset respects__step_result
  : respects.

Lemma respects__step fuel task v : respects R (_step run_code fuel task v).
Proof.
  unfold _step. respects_auto;
    apply respects_modify; intros st; apply R_resume; reflexivity.
Qed.
Local Hint Resolve respects__step : respects.

Lemma respects_poll_delay : respects R (@poll_delay code).
Proof. unfold poll_delay. respects_auto. Qed.

Lemma respects_io_poll delay p : respects R (@io_poll code delay p).
Proof.
  unfold io_poll. respects_auto.
  apply respects_modify. intros st. apply R_poll.
Qed.

Lemma respects_dispatch fuel o : respects R (dispatch run_code fuel o).
Proof. unfold dispatch. respects_auto. Qed.
Local Hint Resolve respects_poll_delay respects_io_poll respects_dispatch
  : respects.

Lemma respects_run_turn fuel p : respects R (run_turn run_code fuel p).
Proof. unfold run_turn. respects_auto. Qed.

Lemma respects_clear : respects R (@clear code).
Proof.
  unfold clear. respects_auto.
Qed.
Local Hint Resolve respects_run_turn respects_clear : respects.

Lemma respects_run fuel polls : respects R (run run_code fuel polls).
Proof.
  induction polls as [|p polls IH]; simpl; respects_auto.
Qed.

Lemma respects_run_op fuel o : respects R (run_op run_code fuel o).
Proof. unfold run_op. respects_auto. Qed.

Lemma respects_exec fuel ops : ∀ st st',
  exec run_code fuel ops st = Some st' -> R st st'.
Proof.
  induction ops as [|o ops IH]; simpl; intros st st' H.
  - inversion H. reflexivity.
  - pose proof (respects_run_op fuel o st) as Ho.
    destruct (run_op run_code fuel o st) as [[] st1|e st1|];
      [| |discriminate]; (etransitivity; [exact Ho | apply IH, H]).
Qed.

End Outer.

End Core.

(** ** Counting events *)

Lemma count_events_app p l1 l2 :
  count_events p (l1 ++ l2) = (count_events p l1 + count_events p l2)%nat.
Proof. unfold count_events. rewrite List.filter_app, length_app. reflexivity. Qed.

Lemma fired_snoc t tr ev :
  fired t (tr ++ [ev]) = (fired t tr + if is_call_of t ev then 1 else 0)%nat.
Proof.
  unfold fired. rewrite count_events_app. unfold count_events at 2. simpl.
  destruct (is_call_of t ev); reflexivity.
Qed.

Lemma installs_snoc t tr ev :
  installs t (tr ++ [ev])
  = (installs t tr + if is_install_of t ev then 1 else 0)%nat.
Proof.
  unfold installs. rewrite count_events_app. unfold count_events at 2. simpl.
  destruct (is_install_of t ev); reflexivity.
Qed.

(** ** Finalizer calls never outnumber installations *)

Section FinLe.

Context {code : Type} (run_code : code -> resume_input -> @step_result code).

Global Instance fin_le_preorder : PreOrder (@fin_le code).
Proof.
  split.
  - intros st t. lia.
  - intros st1 st2 st3 H12 H23 t. specialize (H12 t). specialize (H23 t). lia.
Qed.

Lemma fin_le_frame (st st' : @state code) :
  _finalizers st' = _finalizers st -> trace st' = trace st -> fin_le st st'.
Proof. intros Hf Ht t. unfold pending. rewrite Hf, Ht. lia. Qed.

Lemma fin_le_neutral (st : @state code) ev :
  match ev with EvInstall _ _ | EvFinalizer _ _ _ => False | _ => True end ->
  fin_le st (set_trace (trace st ++ [ev]) st).
Proof.
  intros Hev t. unfold pending. simpl. rewrite fired_snoc, installs_snoc.
  destruct ev; simpl; try lia; contradiction.
Qed.

Lemma fin_le_install (st : @state code) t fn :
  fin_le st (set_trace (trace st ++ [EvInstall t fn])
               (set_finalizers (<[t := fn]> (_finalizers st)) st)).
Proof.
  intros t'. unfold pending. simpl. rewrite fired_snoc, installs_snoc. simpl.
  rewrite lookup_insert. case_bool_decide; subst.
  - rewrite decide_True by reflexivity.
    destruct (_finalizers st !! t'); lia.
  - rewrite decide_False by assumption.
    destruct (_finalizers st !! t'); lia.
Qed.

Lemma fin_le_fire (st : @state code) t fn v :
  _finalizers st !! t = Some fn ->
  fin_le st (set_trace (trace st ++ [EvFinalizer fn t v])
               (set_finalizers (delete t (_finalizers st)) st)).
Proof.
  intros Hfn t'. unfold pending. simpl. rewrite fired_snoc, installs_snoc.
  simpl. rewrite lookup_delete. case_bool_decide; subst.
  - rewrite decide_True by reflexivity. rewrite Hfn. lia.
  - rewrite decide_False by assumption.
    destruct (_finalizers st !! t'); lia.
Qed.

Lemma fin_le_clear (st : @state code) : fin_le st (set_finalizers ∅ st).
Proof.
  intros t. unfold pending. simpl. rewrite lookup_empty.
  destruct (_finalizers st !! t); lia.
Qed.

Lemma fin_le_exec fuel ops (st st' : @state code) :
  exec run_code fuel ops st = Some st' -> fin_le st st'.
Proof.
  apply (respects_exec run_code fin_le).
  - apply fin_le_frame.
  - intros. apply fin_le_neutral. exact I.
  - intros s ev Hev. apply fin_le_neutral. destruct ev; tauto.
  - apply fin_le_install.
  - apply fin_le_fire.
  - intros s ev Hev. apply fin_le_neutral. destruct ev; try discriminate; exact I.
  - intros. apply fin_le_neutral. exact I.
  - apply fin_le_clear.
Qed.

End FinLe.

(** ** Traces only grow *)

Section Appends.

Context {code : Type} (run_code : code -> resume_input -> @step_result code).
Variable P : event -> bool.

Global Instance appends_preorder : PreOrder (@appends code P).
Proof.
  split.
  - intros st. exists []. rewrite app_nil_r. auto.
  - intros st1 st2 st3 [e1 [H1 F1]] [e2 [H2 F2]]. exists (e1 ++ e2).
    rewrite H2, H1, <- app_assoc, forallb_app, F1, F2. auto.
Qed.

Lemma appends_frame (st st' : @state code) :
  trace st' = trace st -> appends P st st'.
Proof. intros H. exists []. rewrite app_nil_r. auto. Qed.

Lemma appends_emit (st st' : @state code) ev :
  trace st' = trace st ++ [ev] -> P ev = true -> appends P st st'.
Proof. intros Ht H. exists [ev]. simpl. rewrite H. auto. Qed.

End Appends.

Section AppendsQuiet.

Context {code : Type} (run_code : code -> resume_input -> @step_result code).

(** Beyond the resumption itself, a step resumes no task. *)
Abbreviation quiet := (appends (λ ev, negb (is_resume ev))).

Lemma quiet_gen_send t v : respects quiet (gen_send run_code t v).
Proof.
  apply respects_gen_send; try exact _.
  intros; apply appends_frame; assumption.
Qed.

Lemma quiet_gen_throw fuel t e :
  respects quiet (gen_throw run_code (close run_code fuel) t e).
Proof.
  apply respects_gen_throw; try exact _.
  - intros; apply appends_frame; assumption.
  - apply respects_close; try exact _.
    + intros; apply appends_frame; assumption.
    + intros; eapply appends_emit; reflexivity.
    + intros; eapply appends_emit; reflexivity.
    + intros; eapply appends_emit; reflexivity.
Qed.

Lemma quiet__step_result fuel t r :
  respects quiet (_step_result run_code fuel t r).
Proof.
  apply respects__step_result; try exact _.
  - intros; apply appends_frame; assumption.
  - intros; eapply appends_emit; reflexivity.
  - intros s ev Hev; eapply appends_emit; [reflexivity|]; destruct ev; try contradiction; reflexivity.
  - intros; eapply appends_emit; reflexivity.
  - intros; eapply appends_emit; reflexivity.
Qed.

(** A loop turn only adds events. *)
Lemma grows_dispatch fuel o :
  respects (appends (λ _, true)) (dispatch run_code fuel o).
Proof.
  apply respects_dispatch; try exact _;
    intros; first [apply appends_frame; assumption
                  | eapply appends_emit; reflexivity
                  | apply appends_frame; reflexivity ].
Qed.

End AppendsQuiet.

(** * The claims *)


(** C2 fails on the code.  Task 1 awaits spawn 0, whose child is task 2.
    [close] of task 1 returns normally, but the unwinding of
    [spawn.__iter__] closes task 2, whose finalizer [spawn._finish]
    schedules the parent again: after [close] has returned the queue holds
    task 1, and the next loop turn hands it to the stepper, which calls
    [task.throw] with the [GeneratorExit] that [_finish] received. *)
Lemma C2_closed_parent_is_resumed :
  ∃ st1 st2 st3 : @state frame,
    exec run_frame 2 [OpSchedule 1%nat VNone None None; OpTurn (Poll 0 Timeout)]
         Scenario.parent_and_child = Some st1
    ∧ gens st1 !! 1%nat
      = Some (GSusp (Some (SysSpawn 0)) (Resume (Return VNone) None))
    ∧ close run_frame 2 1%nat st1 = Done tt st2
    ∧ trace st2 = trace st1 ++ [EvClose 1%nat; EvClose 2%nat;
                                EvFinalizer (FinSpawn 0) 2%nat (VExc GeneratorExit)]
    ∧ utimeq.heap (_queue st2) = [utimeq.Entry 0 1%nat (VExc GeneratorExit)]
    ∧ final_state (run_turn run_frame 2 (Poll 0 Timeout) st2) = Some st3
    ∧ ∃ evs, trace st3
             = trace st2 ++ EvPoll 0 :: EvThrow 1%nat GeneratorExit :: evs.
Proof.
  do 3 eexists.
  split; [vm_compute; reflexivity|].
  split; [vm_compute; reflexivity|].
  split; [vm_compute; reflexivity|].
  split; [vm_compute; reflexivity|].
  split; [vm_compute; reflexivity|].
  split; [vm_compute; reflexivity|].
  eexists. vm_compute. reflexivity.
Qed.

(** When resuming the task ended in a return or in a failure, the rest of
    the step does not call the hook, installed or not. *)
Lemma no_hook_after_completion {code}
    (run_code : code -> resume_input -> @step_result code) fuel task r
    (st : @state code) :
  (∀ y, r ≠ Yielded y) ->
  match _step_result run_code fuel task r st with
  | Done _ st' | Fail _ st' =>
      ∃ evs, trace st' = trace st ++ evs ∧ EvHook ∉ evs
  | OutOfFuel => True
  end.
Proof.
  intros Hr.
  set (P := λ ev, match ev with EvHook => false | _ => true end).
  assert (Hfin : ∀ v, respects (appends P) (finalize run_code fuel task v)).
  { intros v. apply respects_finalize; try exact _.
    - intros; apply appends_frame; assumption.
    - intros; eapply appends_emit; reflexivity.
    - intros; eapply appends_emit; reflexivity.
    - intros; eapply appends_emit; reflexivity. }
  assert (Hemit : ∀ ev, P ev = true -> respects (appends P) (@emit code ev)).
  { intros ev Hev. apply respects_modify. intros s.
    eapply appends_emit; [reflexivity|exact Hev]. }
  assert (H : respects (appends P) (_step_result run_code fuel task r)).
  { destruct r as [y|v|e]; [destruct (Hr y eq_refl)| |]; simpl.
    - apply respects_bind; [exact _|apply Hemit; reflexivity|intros _; apply Hfin].
    - destruct (is_Exception e).
      + apply respects_bind;
          [exact _|apply Hemit; reflexivity|intros _; apply Hfin].
      + apply respects_raise. exact _. }
  specialize (H st).
  destruct (_step_result run_code fuel task r st) as [a st'|e st'|];
    [| |exact I]; destruct H as [evs [Ht HP]]; exists evs; (split; [exact Ht|]);
    intros Hin; rewrite forallb_forall in HP;
    apply list_elem_of_In in Hin; specialize (HP _ Hin); discriminate.
Qed.

(** C4 fails on the code.  With a hook installed, the step in which task 1
    returns and the step in which task 2 fails end without a call of the
    hook: it is called in the [else] clause only, after a task has
    yielded. *)
Lemma C4_no_hook_after_return_or_failure :
  after_step_hook Scenario.hooked = true
  ∧ (∃ st1, _step run_frame 1 1%nat VNone Scenario.hooked = Done tt st1
            ∧ trace st1 = [EvSend 1%nat VNone; EvLogDebug 1%nat])
  ∧ (∃ st2, _step run_frame 1 2%nat VNone Scenario.hooked = Done tt st2
            ∧ trace st2 = [EvSend 2%nat VNone; EvLogException (Exc 3)]).
Proof.
  split; [reflexivity|].
  split; eexists; (split; vm_compute; reflexivity).
Qed.

(** ** The budget of [io.poll] *)

Lemma peektime_nonempty q tm :
  utimeq.peektime q = Some tm -> utimeq.nonempty q = true.
Proof.
  unfold utimeq.peektime, utimeq.nonempty.
  destruct (utimeq.heap q); simpl; [discriminate | reflexivity].
Qed.

Lemma run_turn_polled {code}
    (run_code : code -> resume_input -> @step_result code) fuel p st tm :
  utimeq.peektime (_queue st) = Some tm ->
  run_turn run_code fuel p st
  = dispatch run_code fuel (outcome p)
      (polled (utime.ticks_diff tm (ticks_us st)) (elapsed_us p) st).
Proof.
  intros Hpeek. unfold run_turn, poll_delay, io_poll, bind, get, emit, modify, ret.
  rewrite (peektime_nonempty _ _ Hpeek), Hpeek. reflexivity.
Qed.

Lemma run_turn_polled_idle {code}
    (run_code : code -> resume_input -> @step_result code) fuel p st :
  utimeq.nonempty (_queue st) = false ->
  run_turn run_code fuel p st
  = dispatch run_code fuel (outcome p) (polled max_delay (elapsed_us p) st).
Proof.
  intros Hq. unfold run_turn, poll_delay, io_poll, bind, get, emit, modify, ret.
  rewrite Hq. reflexivity.
Qed.

(** C5, as stated, fails: task 1 is due at the instant 0 and the clock is
    at 10; the loop turn calls [io.poll] with the budget -10. *)
Lemma C5_negative_budget :
  ∃ st1 st2 : @state frame,
    exec run_frame 1 [OpSchedule 1%nat VNone (Some 0) None; OpTick 10]
         Scenario.one_task = Some st1
    ∧ utimeq.peektime (_queue st1) = Some 0
    ∧ ticks_us st1 = 10
    ∧ run_turn run_frame 1 (Poll 0 Timeout) st1 = Done tt st2
    ∧ trace st2 = [EvPoll (-10); EvSend 1%nat VNone; EvLogDebug 1%nat].
Proof.
  do 2 eexists.
  split; [vm_compute; reflexivity|].
  split; [vm_compute; reflexivity|].
  split; [vm_compute; reflexivity|].
  split; vm_compute; reflexivity.
Qed.

(** C5, amended.  On every loop turn where the timer queue is nonempty,
    the budget passed to [io.poll] is the wrap-aware difference between
    the earliest deadline and the current time, as it is: when the
    earliest deadline is past, [io.poll] is called with that negative
    difference, and the turn goes on from the state [io.poll] returns
    in. *)
Theorem C5_budget_is_ticks_diff {code}
    (run_code : code -> resume_input -> @step_result code) fuel p
    (st : @state code) tm :
  utimeq.peektime (_queue st) = Some tm ->
  run_turn run_code fuel p st
  = dispatch run_code fuel (outcome p)
      (polled (utime.ticks_diff tm (ticks_us st)) (elapsed_us p) st)
  ∧ match run_turn run_code fuel p st with
    | Done _ st' | Fail _ st' =>
        ∃ evs, trace st'
               = trace st ++ EvPoll (utime.ticks_diff tm (ticks_us st)) :: evs
    | OutOfFuel => True
    end.
Proof.
  intros Hpeek. split; [apply run_turn_polled, Hpeek|].
  rewrite (run_turn_polled run_code fuel p st tm Hpeek).
  pose proof (grows_dispatch run_code fuel (outcome p)
                (polled (utime.ticks_diff tm (ticks_us st)) (elapsed_us p) st))
    as H.
  destruct (dispatch run_code fuel (outcome p) _) as [[] st'|e st'|];
    [| |exact I]; destruct H as [evs [H _]]; exists evs; rewrite H; simpl;
    rewrite <- app_assoc; reflexivity.
Qed.

Lemma C5_budget_is_ticks_diff_witness :
  let st := set_ticks 10
              (set_queue (utimeq.Queue 64 [utimeq.Entry 0 1%nat VNone])
                         Scenario.one_task) in
  utimeq.peektime (_queue st) = Some 0
  ∧ match run_turn run_frame 1 (Poll 0 Timeout) st with
    | Done _ st' | Fail _ st' => ∃ evs, trace st' = trace st ++ EvPoll (-10) :: evs
    | OutOfFuel => True
    end.
Proof.
  intros st. split; [reflexivity|].
  exact (proj2 (C5_budget_is_ticks_diff run_frame 1 (Poll 0 Timeout) st 0
                  eq_refl)).
Defined.

(** ** A failing unwind *)

(** C6, as stated, fails: task 1, with the finalizer [FinExt 0] installed,
    is suspended in a [try] whose handler fails with [Exc 7].  [close]
    raises [Exc 7] to its caller; nothing is logged, the finalizer is not
    called and stays installed. *)
Lemma C6_close_raises_unwind_failure :
  ∃ st1 st2 : @state frame,
    exec run_frame 1 [OpSchedule 1%nat VNone None (Some (FinExt 0));
                      OpTurn (Poll 0 Timeout)]
         Scenario.failing_unwind = Some st1
    ∧ close run_frame 1 1%nat st1 = Fail (Exc 7) st2
    ∧ trace st2 = trace st1 ++ [EvClose 1%nat]
    ∧ fired 1%nat (trace st2) = 0%nat
    ∧ _finalizers st2 !! 1%nat = Some (FinExt 0).
Proof.
  do 2 eexists.
  split; [vm_compute; reflexivity|].
  split; [vm_compute; reflexivity|].
  split; [vm_compute; reflexivity|].
  split; vm_compute; reflexivity.
Qed.

(** C6, amended.  For every task [t] suspended outside a spawn whose
    cancel hook raises a failure [e] during unwind, [close(t)] removes [t]
    from the paused sets and from the timer queue, calls [t.close()] and
    raises [e] to its caller: the failure is neither logged nor
    swallowed, and the finalizer of [t] is not fired and stays
    installed. *)
Theorem C6_close_propagates_unwind_failure {code}
    (run_code : code -> resume_input -> @step_result code) fuel
    (st : @state code) t via c e :
  gens st !! t = Some (GSusp via c) ->
  (∀ s, via ≠ Some (SysSpawn s)) ->
  run_code c (Throw GeneratorExit) = ORaise e ->
  e ≠ GeneratorExit ->
  ∃ st', close run_code (S fuel) t st = Fail e st'
         ∧ _finalizers st' = _finalizers st
         ∧ trace st' = trace st ++ [EvClose t]
         ∧ _queue st' = utimeq.discard (_queue st) t
         ∧ _paused st' = (λ tasks, tasks ∖ {[t]}) <$> _paused st.
Proof.
  intros Hg Hvia Hrun He.
  assert (Hcases : via = None ∨ via = Some SysBase
                   ∨ (∃ d, via = Some (SysSleep d))
                   ∨ (∃ i, via = Some (SysWait i))
                   ∨ (∃ s, via = Some (SysSignal s))).
  { destruct via as [[| | | |s]|]; eauto 10. destruct (Hvia s eq_refl). }
  simpl. unfold close_body, gen_close, gen_throw, iter_except, update_signal,
    get_signal, finalize_with, settle, set_gen, get_gen, catch, bind, get,
    modify, emit, ret, raise.
  simpl. rewrite Hg. simpl.
  destruct Hcases as [->|[->|[[d ->]|[[i ->]|[s ->]]]]];
    repeat (simpl; rewrite ?Hg); simpl; rewrite Hrun; simpl;
    (destruct e; try congruence; eexists; (split; [reflexivity|]); simpl; auto).
Qed.

Lemma C6_close_propagates_unwind_failure_witness :
  let st := set_finalizers {[ 1%nat := FinExt 0 ]}
              (set_gens {[ 1%nat := GSusp None (Resume (Return VNone)
                                                       (Some (Raise (Exc 7)))) ]}
                        Scenario.failing_unwind) in
  ∃ st', close run_frame 1 1%nat st = Fail (Exc 7) st'
         ∧ _finalizers st' = _finalizers st
         ∧ trace st' = trace st ++ [EvClose 1%nat]
         ∧ _queue st' = utimeq.discard (_queue st) 1%nat
         ∧ _paused st' = (λ tasks, tasks ∖ {[1%nat]}) <$> _paused st.
Proof.
  intros st.
  refine (C6_close_propagates_unwind_failure run_frame 0 st 1%nat None
            (Resume (Return VNone) (Some (Raise (Exc 7)))) (Exc 7) _ _ _ _).
  - reflexivity.
  - intros s; discriminate.
  - reflexivity.
  - discriminate.
Defined.

(** ** A spawn without children *)

(** C7, as stated, fails: task 1 awaits a spawn with no children.  The
    step signals no error; afterwards nothing is scheduled or paused, the
    loop ends, and the parent is still suspended in the spawn. *)
Lemma C7_empty_spawn_no_error :
  ∃ st1 st2 : @state frame,
    schedule 1%nat VNone None None Scenario.empty_spawn = Done tt st1
    ∧ run run_frame 1 [Poll 0 Timeout] st1 = Done true st2
    ∧ utimeq.heap (_queue st2) = []
    ∧ _paused st2 = ∅
    ∧ gens st2 !! 1%nat
      = Some (GSusp (Some (SysSpawn 0)) (Resume (Return VNone) None))
    ∧ trace st2 = [EvPoll 0; EvSend 1%nat VNone].
Proof.
  do 2 eexists.
  split; [vm_compute; reflexivity|].
  split; [vm_compute; reflexivity|].
  split; [vm_compute; reflexivity|].
  split; [vm_compute; reflexivity|].
  split; vm_compute; reflexivity.
Qed.

(** C7, amended.  Handling a spawn constructed with zero children is not
    an error: [handle] returns normally, having recorded the parent as the
    callback and emptied the lists of the spawn; it schedules nothing and
    installs no finalizer, so the parent stays suspended until it is
    closed. *)
Theorem C7_empty_spawn_suspends_parent {code} (st : @state code) s task :
  let sp := default (Spawn [] true [] [] None) (spawns st !! s) in
  children sp = [] ->
  ∃ st', handle (SysSpawn s) task st = Done tt st'
         ∧ spawns st' !! s = Some (Spawn [] (exit_others sp) [] [] (Some task))
         ∧ _queue st' = _queue st
         ∧ _paused st' = _paused st
         ∧ _finalizers st' = _finalizers st
         ∧ trace st' = trace st.
Proof.
  intros sp Hch.
  unfold handle, spawn_handle, update_spawn, get_spawn, bind, get, modify, ret.
  simpl. rewrite !lookup_insert_eq. simpl. fold sp. rewrite Hch. simpl.
  eexists. split; [reflexivity|]. simpl. rewrite lookup_insert_eq. auto.
Qed.

Lemma C7_empty_spawn_suspends_parent_witness :
  ∃ st', handle (SysSpawn 0) 1%nat Scenario.empty_spawn = Done tt st'
         ∧ spawns st' !! 0%nat = Some (Spawn [] true [] [] (Some 1%nat))
         ∧ _queue st' = _queue Scenario.empty_spawn
         ∧ _paused st' = _paused Scenario.empty_spawn
         ∧ _finalizers st' = _finalizers Scenario.empty_spawn
         ∧ trace st' = trace Scenario.empty_spawn.
Proof.
  exact (C7_empty_spawn_suspends_parent Scenario.empty_spawn 0%nat 1%nat
           eq_refl).
Defined.

(** ** What a step adds to the trace *)

Section StepTrace.

Context {code : Type} (run_code : code -> resume_input -> @step_result code).

Lemma bind_emit {A B} ev (m : @M code A) (k : A -> M B) st :
  bind (bind (emit ev) (λ _, m)) k st
  = bind m k (set_trace (trace st ++ [ev]) st).
Proof. reflexivity. Qed.

(** The step resumes the task once, first of all. *)
Lemma _step_trace fuel t v (st : @state code) :
  match _step run_code fuel t v st with
  | Done _ st' | Fail _ st' =>
      ∃ evs, trace st' = trace st ++ resume_event v t :: evs
             ∧ forallb (λ ev, negb (is_resume ev)) evs = true
  | OutOfFuel => True
  end.
Proof.
  assert (Hk : ∀ m : M gen_result,
             respects (appends (λ ev, negb (is_resume ev))) m ->
             match bind m (_step_result run_code fuel t)
                        (set_trace (trace st ++ [resume_event v t]) st) with
             | Done _ st' | Fail _ st' =>
                 ∃ evs, trace st' = trace st ++ resume_event v t :: evs
                        ∧ forallb (λ ev, negb (is_resume ev)) evs = true
             | OutOfFuel => True
             end).
  { intros m Hm.
    pose proof (respects_bind _ m (_step_result run_code fuel t) Hm
                  (quiet__step_result run_code fuel t)
                  (set_trace (trace st ++ [resume_event v t]) st)) as H.
    destruct (bind m _ _) as [a st'|e st'|]; [| |exact I];
      destruct H as [evs [H F]]; exists evs; simpl in H;
      rewrite H, <- app_assoc; auto. }
  unfold _step.
  destruct v; rewrite bind_emit;
    first [apply Hk, quiet_gen_send | apply Hk, quiet_gen_throw].
Qed.

End StepTrace.

Lemma pop_peektime q e q' :
  utimeq.pop q = Some (e, q') -> utimeq.peektime q = Some (utimeq.deadline e).
Proof.
  unfold utimeq.pop, utimeq.peektime.
  destruct (utimeq.pop_earliest (utimeq.heap q)) as [[m r]|]; [|discriminate].
  intros H. inversion H. reflexivity.
Qed.

(** A loop turn that times out steps the entry that [pop] returns, with
    the value of the entry. *)
Lemma run_turn_timeout {code}
    (run_code : code -> resume_input -> @step_result code) fuel elapsed
    (st : @state code) e q :
  utimeq.pop (_queue st) = Some (e, q) ->
  run_turn run_code fuel (Poll elapsed Timeout) st
  = _step run_code fuel (utimeq.task e) (utimeq.value_ e)
      (set_queue q (polled (utime.ticks_diff (utimeq.deadline e) (ticks_us st))
                           elapsed st)).
Proof.
  intros Hpop.
  rewrite (run_turn_polled run_code fuel _ st _ (pop_peektime _ _ _ Hpop)).
  unfold dispatch, bind, get, modify. simpl.
  rewrite (peektime_nonempty _ _ (pop_peektime _ _ _ Hpop)), Hpop. reflexivity.
Qed.

(** ** Sleep *)



Example sleep_orders_by_deadline :
  ∃ st' : @state frame,
    exec run_frame 1 [OpSchedule 1%nat VNone None None;
                      OpSchedule 2%nat VNone None None;
                      OpTurn (Poll 0 Timeout); OpTurn (Poll 0 Timeout);
                      OpTurn (Poll 1000 Timeout); OpTurn (Poll 1000 Timeout)]
         Scenario.sleepers = Some st'
    ∧ trace st' = [EvPoll 0; EvSend 1%nat VNone; EvPoll 0; EvSend 2%nat VNone;
                   EvPoll 1000; EvSend 2%nat (VInt 1000); EvLogDebug 2%nat;
                   EvPoll 1000; EvSend 1%nat (VInt 2000); EvLogDebug 1%nat]
    ∧ running st' = false.
Proof.
  eexists. split; [vm_compute; reflexivity|]. split; vm_compute; reflexivity.
Qed.

(** ** Replacing a finalizer *)

(** C9.  When task [t] has the finalizer [f1] installed, [schedule] with
    the finalizer [f2] leaves [f2] installed for [t], whether the push
    succeeds or the queue is full, and changes no other task's finalizer;
    the next [finalize] of [t] pops and calls [f2]: [f1] is no longer in
    the table and is not called. *)
Theorem C9_schedule_replaces_finalizer {code} (st : @state code)
    task v deadline f1 f2 :
  _finalizers st !! task = Some f1 ->
  ∃ st', (schedule task v deadline (Some f2) st = Done tt st'
          ∨ schedule task v deadline (Some f2) st = Fail QueueFull st')
         ∧ _finalizers st' = <[task := f2]> (_finalizers st)
         ∧ _finalizers st' !! task = Some f2
         ∧ (∀ t, t ≠ task -> _finalizers st' !! t = _finalizers st !! t)
         ∧ ∀ finish w,
             finalize_with finish task w st'
             = call_finalizer finish f2 task w
                 (set_finalizers (delete task (_finalizers st)) st').
Proof.
  intros Hf1.
  unfold schedule, bind, get, modify, emit, ret, raise. simpl.
  destruct (utimeq.push _ _ _ _) as [q|]; eexists;
    (split; [first [left; reflexivity | right; reflexivity]|]); simpl;
    (split; [reflexivity|]);
    (split; [apply lookup_insert_eq|]);
    (split; [intros t Ht; apply lookup_insert_ne; congruence|]);
    intros finish w; unfold finalize_with, bind, get, modify; simpl;
    rewrite lookup_insert_eq; cbn [_finalizers set_queue set_trace set_finalizers];
    rewrite delete_insert_eq; reflexivity.
Qed.

Lemma C9_schedule_replaces_finalizer_witness :
  let st := set_finalizers {[ 1%nat := FinExt 0 ]} Scenario.one_task in
  ∃ st', (schedule 1%nat VNone None (Some (FinExt 1)) st = Done tt st'
          ∨ schedule 1%nat VNone None (Some (FinExt 1)) st = Fail QueueFull st')
         ∧ _finalizers st' = <[1%nat := FinExt 1]> (_finalizers st)
         ∧ _finalizers st' !! 1%nat = Some (FinExt 1)
         ∧ (∀ t, t ≠ 1%nat -> _finalizers st' !! t = _finalizers st !! t)
         ∧ ∀ finish w,
             finalize_with finish 1%nat w st'
             = call_finalizer finish (FinExt 1) 1%nat w
                 (set_finalizers (delete 1%nat (_finalizers st)) st').
Proof.
  intros st.
  exact (C9_schedule_replaces_finalizer st 1%nat VNone None (FinExt 0)
           (FinExt 1) eq_refl).
Defined.

(** ** Messages *)

Lemma peektime_empty q :
  utimeq.peektime q = None -> utimeq.nonempty q = false.
Proof.
  unfold utimeq.peektime, utimeq.nonempty.
  destruct (utimeq.heap q) as [|e l]; [reflexivity|]. simpl.
  destruct (utimeq.pop_earliest l) as [[m r]|]; [|discriminate].
  destruct (utimeq.earlier m e); discriminate.
Qed.

Lemma run_turn_budget {code}
    (run_code : code -> resume_input -> @step_result code) fuel p
    (st : @state code) :
  run_turn run_code fuel p st
  = dispatch run_code fuel (outcome p) (polled (budget st) (elapsed_us p) st).
Proof.
  unfold budget. destruct (utimeq.peektime (_queue st)) as [tm|] eqn:E.
  - apply run_turn_polled, E.
  - apply run_turn_polled_idle, peektime_empty, E.
Qed.

Lemma filter_quiet evs :
  forallb (λ ev, negb (is_resume ev)) evs = true ->
  List.filter is_resume evs = [].
Proof.
  induction evs as [|ev evs IH]; simpl; [reflexivity|].
  destruct (is_resume ev); simpl; [discriminate|exact IH].
Qed.

Lemma is_resume_resume_event v t : is_resume (resume_event v t) = true.
Proof. destruct v; reflexivity. Qed.

(** Stepping the tasks of a list in turn resumes a prefix of the list,
    each task once, in the order of the list. *)
Lemma for_each_step_trace {code}
    (run_code : code -> resume_input -> @step_result code) fuel payload l :
  ∀ st : @state code,
    match for_each (λ task, _step run_code fuel task payload) l st with
    | Done _ st' | Fail _ st' =>
        ∃ stepped evs,
          stepped `prefix_of` l
          ∧ trace st' = trace st ++ evs
          ∧ List.filter is_resume evs = map (resume_event payload) stepped
    | OutOfFuel => True
    end.
Proof.
  induction l as [|x l IH]; intros st; simpl.
  - exists [], []. rewrite app_nil_r. split; [apply prefix_nil|auto].
  - unfold bind. pose proof (_step_trace run_code fuel x payload st) as Hx.
    destruct (_step run_code fuel x payload st) as [[] st1|e st1|];
      [| |exact I]; destruct Hx as [evs1 [Ht1 Hq1]].
    + specialize (IH st1).
      destruct (for_each _ l st1) as [[] st'|e st'|]; [| |exact I];
        destruct IH as [stepped [evs [Hp [Ht Hf]]]];
        exists (x :: stepped), (resume_event payload x :: evs1 ++ evs);
        (split; [apply prefix_cons, Hp|]);
        (split; [rewrite Ht, Ht1, <- app_assoc; reflexivity|]);
        simpl; rewrite is_resume_resume_event, List.filter_app,
          (filter_quiet _ Hq1), Hf; reflexivity.
    + exists [x], (resume_event payload x :: evs1).
      split; [apply prefix_cons, prefix_nil|].
      split; [exact Ht1|].
      simpl. rewrite is_resume_resume_event, (filter_quiet _ Hq1). reflexivity.
Qed.

(** C10.  On a loop turn where [io.poll] reports a message on interface
    [iface], the loop steps the waiters from the state in which the whole
    waiter set of [iface] has left the paused index; a task pausing on
    [iface] from then on enters a new set; and the tasks resumed in the
    turn are a prefix of the waiter set, which has no duplicates, each
    resumed once with the message: a waiter that pauses again on [iface]
    during its step is not stepped again in this turn. *)
Theorem C10_waiters_taken_before_steps {code}
    (run_code : code -> resume_input -> @step_result code) fuel elapsed
    (st : @state code) iface payload :
  let msg_tasks := default ∅ (_paused st !! iface) in
  let st0 := set_paused (delete iface (_paused st))
                        (polled (budget st) elapsed st) in
  run_turn run_code fuel (Poll elapsed (Message iface payload)) st
  = for_each (λ task, _step run_code fuel task payload) (elements msg_tasks) st0
  ∧ _paused st0 !! iface = None
  ∧ (∀ task (st1 : @state code),
        _paused st1 !! iface = None ->
        ∃ st2, pause task iface st1 = Done tt st2
               ∧ _paused st2 !! iface = Some {[task]})
  ∧ NoDup (elements msg_tasks)
  ∧ match run_turn run_code fuel (Poll elapsed (Message iface payload)) st with
    | Done _ st' | Fail _ st' =>
        ∃ stepped evs,
          stepped `prefix_of` elements msg_tasks
          ∧ trace st' = trace st0 ++ evs
          ∧ List.filter is_resume evs = map (resume_event payload) stepped
    | OutOfFuel => True
    end.
Proof.
  intros msg_tasks st0.
  assert (Hrun : run_turn run_code fuel (Poll elapsed (Message iface payload)) st
                 = for_each (λ task, _step run_code fuel task payload)
                            (elements msg_tasks) st0).
  { rewrite run_turn_budget. reflexivity. }
  split; [exact Hrun|].
  split; [apply lookup_delete_eq|].
  split.
  { intros task st1 H1. unfold pause, modify. eexists. split; [reflexivity|].
    simpl. rewrite lookup_insert_eq, H1. simpl. f_equal. apply (left_id_L ∅ (∪)). }
  split; [apply NoDup_elements|].
  rewrite Hrun. apply for_each_step_trace.
Qed.

Example two_waiters_one_message :
  ∃ st1 st2 : @state frame,
    exec run_frame 1 [OpSchedule 1%nat VNone None None;
                      OpSchedule 2%nat VNone None None;
                      OpTurn (Poll 0 Timeout); OpTurn (Poll 0 Timeout)]
         Scenario.two_waiters = Some st1
    ∧ _paused st1 !! 7 = Some {[1%nat; 2%nat]}
    ∧ run_turn run_frame 1 (Poll 5 (Message 7 (VObj 9))) st1 = Done tt st2
    ∧ trace st2 = trace st1 ++ [EvPoll max_delay; EvSend 2%nat (VObj 9);
                                EvLogDebug 2%nat; EvSend 1%nat (VObj 9)]
    ∧ _paused st2 !! 7 = Some {[1%nat]}.
Proof.
  do 2 eexists.
  split; [vm_compute; reflexivity|].
  split; [vm_compute; reflexivity|].
  split; [vm_compute; reflexivity|].
  split; vm_compute; reflexivity.
Qed.

(** ** The order of the timer queue *)

Section PopOrder.

Import utimeq.

Lemma pop_earliest_some l : l ≠ [] -> is_Some (pop_earliest l).
Proof.
  destruct l as [|e l]; [congruence|]. intros _. simpl.
  destruct (pop_earliest l) as [[m r]|]; [destruct (earlier m e)|]; eauto.
Qed.

Lemma pop_earliest_none l : pop_earliest l = None -> l = [].
Proof.
  intros H. destruct l as [|e l]; [reflexivity|].
  destruct (pop_earliest_some (e :: l)) as [x Hx]; congruence.
Qed.

Lemma pop_earliest_perm l m r :
  pop_earliest l = Some (m, r) -> l ≡ₚ m :: r.
Proof.
  revert m r. induction l as [|e l IH]; intros m r; simpl; [discriminate|].
  destruct (pop_earliest l) as [[m' r']|] eqn:E.
  - specialize (IH m' r' eq_refl).
    destruct (earlier m' e); intros H; inversion H; subst.
    + rewrite IH. apply Permutation_swap.
    + reflexivity.
  - intros H; inversion H; subst.
    rewrite (pop_earliest_none _ E). reflexivity.
Qed.

Lemma pop_earliest_length l m r :
  pop_earliest l = Some (m, r) -> length l = S (length r).
Proof. intros H. rewrite (pop_earliest_perm _ _ _ H). reflexivity. Qed.

Lemma drain_perm n l : length l = n -> drain n l ≡ₚ l.
Proof.
  revert l. induction n as [|n IH]; intros l Hl; simpl.
  - destruct l; [reflexivity|discriminate].
  - destruct (pop_earliest l) as [[m r]|] eqn:E.
    + pose proof (pop_earliest_length _ _ _ E) as Hlen.
      rewrite (pop_earliest_perm _ _ _ E). constructor. apply IH. lia.
    + destruct l; [discriminate|].
      destruct (pop_earliest_some (e :: l)) as [x Hx]; congruence.
Qed.

(** Of two entries with the same deadline, the one inserted later is
    not selected while the other one is in the queue. *)
Lemma pop_earliest_tie l1 ea l2 eb l3 m r :
  deadline ea = deadline eb ->
  pop_earliest (l1 ++ ea :: l2 ++ eb :: l3) = Some (m, r) ->
  (m = ea ∧ r = l1 ++ l2 ++ eb :: l3)
  ∨ (∃ l1' l2' l3', r = l1' ++ ea :: l2' ++ eb :: l3').
Proof.
  intros Hd. revert m r. induction l1 as [|x l1 IH]; intros m r; simpl.
  - destruct (pop_earliest (l2 ++ eb :: l3)) as [[m' r']|] eqn:E.
    + destruct (earlier m' ea) eqn:Hearly; intros H; inversion H; subst.
      * right.
        assert (Hin : eb ∈ m :: r').
        { rewrite <- (pop_earliest_perm _ _ _ E). set_solver. }
        apply elem_of_cons in Hin. destruct Hin as [->|Hin].
        -- unfold earlier in Hearly. rewrite Hd in Hearly.
           unfold utime.ticks_diff in Hearly.
           rewrite Z.sub_diag in Hearly. discriminate.
        -- apply list_elem_of_split in Hin. destruct Hin as [k1 [k2 ->]].
           exists [], k1, k2. reflexivity.
      * left. auto.
    + destruct (pop_earliest_some (l2 ++ eb :: l3)) as [y Hy];
        [destruct l2; discriminate | congruence].
  - destruct (pop_earliest (l1 ++ ea :: l2 ++ eb :: l3)) as [[m' r']|] eqn:E.
    + specialize (IH m' r' eq_refl).
      destruct (earlier m' x); intros H; inversion H; subst.
      * destruct IH as [[-> ->]|[k1 [k2 [k3 ->]]]].
        -- left. auto.
        -- right. exists (x :: k1), k2, k3. reflexivity.
      * right. exists l1, l2, l3. reflexivity.
    + destruct (pop_earliest_some (l1 ++ ea :: l2 ++ eb :: l3)) as [y Hy];
        [destruct l1; discriminate | congruence].
Qed.

Lemma drain_tie n : ∀ l1 ea l2 eb l3,
  deadline ea = deadline eb ->
  length (l1 ++ ea :: l2 ++ eb :: l3) = n ->
  ∃ k1 k2 k3, drain n (l1 ++ ea :: l2 ++ eb :: l3) = k1 ++ ea :: k2 ++ eb :: k3.
Proof.
  induction n as [|n IH]; intros l1 ea l2 eb l3 Hd Hlen.
  - destruct l1; discriminate.
  - simpl. destruct (pop_earliest (l1 ++ ea :: l2 ++ eb :: l3))
      as [[m r]|] eqn:E.
    + pose proof (pop_earliest_length _ _ _ E) as Hl.
      destruct (pop_earliest_tie _ _ _ _ _ _ _ Hd E)
        as [[-> ->]|[k1 [k2 [k3 ->]]]].
      * assert (Hin : eb ∈ drain n (l1 ++ l2 ++ eb :: l3)).
        { rewrite drain_perm by lia. set_solver. }
        apply list_elem_of_split in Hin. destruct Hin as [k2 [k3 ->]].
        exists [], k2, k3. reflexivity.
      * destruct (IH k1 ea k2 eb k3 Hd) as [j1 [j2 [j3 ->]]]; [lia|].
        exists (m :: j1), j2, j3. reflexivity.
    + destruct (pop_earliest_some (l1 ++ ea :: l2 ++ eb :: l3)) as [y Hy];
        [destruct l1; discriminate | congruence].
Qed.

End PopOrder.

Example wrap_aware_order :
  utimeq.pop_order
    (utimeq.Queue 64 [utimeq.Entry 500 2%nat VNone;
                      utimeq.Entry 4294967000 1%nat VNone])
  = [utimeq.Entry 4294967000 1%nat VNone; utimeq.Entry 500 2%nat VNone].
Proof. vm_compute. reflexivity. Qed.

Lemma schedule_done {code} (st st' : @state code) task v deadline finalizer :
  schedule task v deadline finalizer st = Done tt st' ->
  utimeq.heap (_queue st')
  = utimeq.heap (_queue st)
    ++ [utimeq.Entry (default (ticks_us st) deadline) task v]
  ∧ ticks_us st' = ticks_us st.
Proof.
  unfold schedule, bind, get, modify, emit, ret, raise, utimeq.push.
  destruct finalizer, deadline; simpl;
    (destruct (decide _); intros H; inversion H; simpl; auto).
Qed.

(** When [schedule] is called for task [a] and then for task [b] with
    equal deadlines, the order in which the timer queue returns its
    entries, each of them once, has the entry of [a] before the entry of
    [b]. *)
Lemma schedule_tie_pop_order {code}
    (st st1 st2 : @state code) a va da fa b vb db fb d :
  default (ticks_us st) da = d ->
  default (ticks_us st) db = d ->
  schedule a va da fa st = Done tt st1 ->
  schedule b vb db fb st1 = Done tt st2 ->
  utimeq.heap (_queue st2)
  = utimeq.heap (_queue st) ++ [utimeq.Entry d a va; utimeq.Entry d b vb]
  ∧ (∃ k1 k2 k3,
      utimeq.pop_order (_queue st2)
      = k1 ++ utimeq.Entry d a va :: k2 ++ utimeq.Entry d b vb :: k3)
  ∧ utimeq.pop_order (_queue st2)
    ≡ₚ utimeq.heap (_queue st) ++ [utimeq.Entry d a va; utimeq.Entry d b vb].
Proof.
  intros Hda Hdb Ha Hb.
  destruct (schedule_done _ _ _ _ _ _ Ha) as [Hq1 Hnow].
  destruct (schedule_done _ _ _ _ _ _ Hb) as [Hq2 _].
  rewrite Hnow, Hdb in Hq2. rewrite Hda in Hq1. rewrite Hq1 in Hq2.
  rewrite <- app_assoc in Hq2. simpl in Hq2.
  split; [exact Hq2|].
  unfold utimeq.pop_order. rewrite Hq2.
  split.
  - change (utimeq.heap (_queue st) ++ [utimeq.Entry d a va; utimeq.Entry d b vb])
      with (utimeq.heap (_queue st) ++ utimeq.Entry d a va :: [] ++ utimeq.Entry d b vb :: []).
    apply drain_tie; reflexivity.
  - apply drain_perm. reflexivity.
Qed.

(** [schedule] changes the queue, the finalizers and the trace only. *)
Lemma schedule_elsewhere {code} (st st' : @state code) task v deadline fin :
  final_state (schedule task v deadline fin st) = Some st' ->
  _paused st' = _paused st ∧ signals st' = signals st
  ∧ spawns st' = spawns st ∧ next_task st' = next_task st.
Proof.
  unfold schedule, bind, get, modify, emit, ret, raise.
  destruct fin; simpl; destruct (utimeq.push _ _ _ _); simpl;
    intros H; inversion H; subst; simpl; auto.
Qed.

Lemma filter_none {A} (P : A -> Prop) `{!∀ x, Decision (P x)} (l : list A) :
  (∀ x, x ∈ l -> ¬ P x) -> filter P l = [].
Proof.
  induction l as [|x l IH]; intros Hl; [reflexivity|].
  rewrite filter_cons_False by (apply Hl; left).
  apply IH. intros y Hy. apply Hl. right. exact Hy.
Qed.

Lemma filter_filter_comm {A} (P Q : A -> Prop)
    `{!∀ x, Decision (P x)} `{!∀ x, Decision (Q x)} (l : list A) :
  filter P (filter Q l) = filter Q (filter P l).
Proof.
  induction l as [|x l IH]; [reflexivity|].
  destruct (decide (Q x)) as [HQ|HQ], (decide (P x)) as [HP|HP];
    rewrite ?(filter_cons_True Q x) by exact HQ;
    rewrite ?(filter_cons_False Q x) by exact HQ;
    rewrite ?(filter_cons_True P x) by exact HP;
    rewrite ?(filter_cons_False P x) by exact HP;
    rewrite ?(filter_cons_True Q x) by exact HQ;
    rewrite ?(filter_cons_False Q x) by exact HQ;
    rewrite IH; reflexivity.
Qed.

Global Instance preserves_preorder {code} (P : @state code -> Prop) :
  PreOrder (preserves P).
Proof.
  split.
  - intros st H. exact H.
  - intros st1 st2 st3 H12 H23 H. exact (H23 (H12 H)).
Qed.

Lemma respects_for_each_in {code A} (R : relation (@state code))
    `{!PreOrder R} (f : A -> M unit) (l : list A) :
  (∀ x, x ∈ l -> respects R (f x)) -> respects R (for_each f l).
Proof.
  induction l as [|x l IH]; intros Hf; simpl.
  - apply respects_ret. exact _.
  - apply respects_bind; [exact _| |intros _].
    + apply Hf. left.
    + apply IH. intros y Hy. apply Hf. right. exact Hy.
Qed.

(** ** The pending tie is kept by the steps of other tasks *)

Section TieOrder.

Context {code : Type} (run_code : code -> resume_input -> @step_result code).
Variables ea eb : utimeq.entry.
Hypothesis Hab : utimeq.task ea ≠ utimeq.task eb.
Hypothesis Hd : utimeq.deadline ea = utimeq.deadline eb.

Local Abbreviation a := (utimeq.task ea).
Local Abbreviation b := (utimeq.task eb).
Local Abbreviation W := (@tie_pending code ea eb).
Local Abbreviation keeps := (respects (preserves (@tie_pending code ea eb))).

Lemma tie_frame (st st' : @state code) :
  _queue st' = _queue st -> _paused st' = _paused st ->
  signals st' = signals st -> spawns st' = spawns st ->
  next_task st' = next_task st ->
  W st -> W st'.
Proof.
  intros Hq Hp Hg Hs Hn. unfold tie_pending, signal_of, spawn_of.
  rewrite Hq, Hp, Hg, Hs, Hn. auto.
Qed.

Ltac tie_framed :=
  apply respects_modify; intros ?; unfold preserves;
  refine (tie_frame _ _ eq_refl eq_refl eq_refl eq_refl eq_refl).

Lemma keeps_emit ev : keeps (emit ev).
Proof. unfold emit. tie_framed. Qed.

Lemma keeps_set_gen t g : keeps (set_gen t g).
Proof. unfold set_gen. tie_framed. Qed.

Lemma keeps_get_gen t : keeps (get_gen t).
Proof. unfold get_gen. respects_auto. Qed.

Lemma keeps_get_spawn s : keeps (get_spawn s).
Proof. unfold get_spawn. respects_auto. Qed.

Local Hint Resolve keeps_emit keeps_set_gen keeps_get_gen keeps_get_spawn
  : respects.

Lemma keeps_update_signal s f :
  (∀ sg, sig_task sg ≠ Some b -> sig_task (f sg) ≠ Some b) ->
  keeps (update_signal s f).
Proof.
  intros Hf st. unfold update_signal, get_signal, bind, get, ret, modify.
  simpl. intros (HQ & HF & HP & HG & HS & HN).
  unfold tie_pending. simpl.
  split; [exact HQ|]. split; [exact HF|]. split; [exact HP|].
  split; [|split; [exact HS|exact HN]].
  intros s'. unfold signal_of. simpl.
  destruct (decide (s' = s)) as [->|Hne].
  - rewrite lookup_insert_eq. simpl. apply Hf, HG.
  - rewrite lookup_insert_ne by congruence. apply HG.
Qed.

Lemma keeps_update_spawn s f :
  (∀ sp, spawn_apart a b sp -> spawn_apart a b (f sp)) ->
  keeps (update_spawn s f).
Proof.
  intros Hf st. unfold update_spawn, get_spawn, bind, get, ret, modify.
  simpl. intros (HQ & HF & HP & HG & HS & HN).
  unfold tie_pending. simpl.
  split; [exact HQ|]. split; [exact HF|]. split; [exact HP|].
  split; [exact HG|]. split; [|exact HN].
  intros s'. unfold spawn_of. simpl.
  destruct (decide (s' = s)) as [->|Hne].
  - rewrite lookup_insert_eq. simpl. apply Hf, HS.
  - rewrite lookup_insert_ne by congruence. apply HS.
Qed.

Lemma tie_push (st : @state code) q d t v :
  t ≠ b ->
  utimeq.push (_queue st) d t v = Some q ->
  W st -> W (set_queue q st).
Proof.
  intros Ht Hpush (HQ & HF & HP & HG & HS & HN).
  unfold utimeq.push in Hpush.
  destruct (decide _); [|discriminate]. inversion Hpush; subst q.
  unfold tie_pending. simpl.
  split; [|split; [|auto]].
  - destruct HQ as [l1 [l2 [l3 HQ]]]. exists l1, l2, (l3 ++ [utimeq.Entry d t v]).
    rewrite HQ, <- !app_assoc. simpl. rewrite <- app_assoc. reflexivity.
  - rewrite filter_app, HF. simpl.
    rewrite filter_cons_False by (simpl; exact Ht). reflexivity.
Qed.

Lemma keeps_schedule t v deadline fin :
  t ≠ b -> keeps (schedule t v deadline fin).
Proof.
  intros Ht st. unfold schedule, bind, get, modify, emit, ret, raise.
  destruct fin as [fn|]; simpl;
    destruct (utimeq.push _ _ _ _) as [q|] eqn:E; simpl; intros HW.
  - refine (tie_push _ q _ t v Ht E _).
    revert HW. refine (tie_frame _ _ eq_refl eq_refl eq_refl eq_refl eq_refl).
  - revert HW. refine (tie_frame _ _ eq_refl eq_refl eq_refl eq_refl eq_refl).
  - exact (tie_push st q _ t v Ht E HW).
  - exact HW.
Qed.

Lemma keeps_pause t iface : t ≠ b -> keeps (pause t iface).
Proof.
  intros Ht. unfold pause. apply respects_modify.
  intros st (HQ & HF & HP & HG & HS & HN).
  unfold tie_pending. simpl.
  split; [exact HQ|]. split; [exact HF|]. split; [|auto].
  intros i ws. destruct (decide (i = iface)) as [->|Hne].
  - rewrite lookup_insert_eq. intros H. inversion H; subst ws.
    destruct (_paused st !! iface) as [ws0|] eqn:E; simpl.
    + specialize (HP _ _ E). set_solver.
    + set_solver.
  - rewrite lookup_insert_ne by congruence. apply HP.
Qed.

(** A continuation that depends on the spawn, the signal or the state it
    reads may rely on what the invariant says about them. *)
Lemma keeps_read_spawn {B} s (k : spawn_obj -> @M code B) :
  (∀ sp, spawn_apart a b sp -> keeps (k sp)) ->
  keeps (bind (get_spawn s) k).
Proof.
  intros Hk st. unfold bind, get_spawn, get, ret. simpl.
  destruct (k _ st) as [x st'|e st'|] eqn:E; [| |exact I]; intros HW;
    destruct HW as (HQ & HF & HP & HG & HS & HN);
    pose proof (Hk _ (HS s) st) as H; unfold spawn_of in H;
    rewrite E in H; apply H; unfold tie_pending; auto 10.
Qed.

Lemma keeps_read_signal {B} s (k : signal_obj -> @M code B) :
  (∀ sg, sig_task sg ≠ Some b -> keeps (k sg)) ->
  keeps (bind (get_signal s) k).
Proof.
  intros Hk st. unfold bind, get_signal, get, ret. simpl.
  destruct (k _ st) as [x st'|e st'|] eqn:E; [| |exact I]; intros HW;
    destruct HW as (HQ & HF & HP & HG & HS & HN);
    pose proof (Hk _ (HG s) st) as H; unfold signal_of in H;
    rewrite E in H; apply H; unfold tie_pending; auto 10.
Qed.

Lemma keeps_read {B} (k : state -> @M code B) :
  (∀ st, W st -> keeps (k st)) -> keeps (bind get k).
Proof.
  intros Hk st. unfold bind, get.
  destruct (k st st) as [x st'|e st'|] eqn:E; [| |exact I]; intros HW;
    pose proof (Hk st HW st) as H; rewrite E in H; exact (H HW).
Qed.

Lemma keeps_finalize_with finish t v :
  (∀ s t w, keeps (finish s t w)) ->
  keeps (@finalize_with code finish t v).
Proof.
  intros Hfin. unfold finalize_with, call_finalizer.
  respects_auto; try apply Hfin; tie_framed.
Qed.

Section WithClose.

Variable closef : Task -> @M code unit.
Hypothesis keeps_closef : ∀ t, t ≠ a -> t ≠ b -> keeps (closef t).

Lemma keeps_spawn_exit_with s except_for :
  keeps (spawn_exit_with closef s except_for).
Proof.
  unfold spawn_exit_with. apply keeps_read_spawn.
  intros sp (_ & Ha & Hb & _). apply respects_for_each_in; [exact _|].
  intros t Ht. destruct (decide _).
  - apply keeps_closef; intros ->; contradiction.
  - apply respects_ret. exact _.
Qed.

Lemma keeps_spawn__finish_with s task result :
  keeps (spawn__finish_with closef s task result).
Proof.
  unfold spawn__finish_with.
  apply respects_bind; [exact _|apply keeps_get_spawn|intros sp].
  destruct (finished sp); [|apply respects_ret; exact _].
  destruct (index_of task (scheduled sp)); [|apply respects_raise; exact _].
  destruct (children sp !! _); [|apply respects_raise; exact _].
  apply respects_bind; [exact _| |intros _].
  { apply keeps_update_spawn. intros sp0 H. exact H. }
  apply respects_bind; [exact _| |intros _].
  { destruct (exit_others sp);
      [apply keeps_spawn_exit_with|apply respects_ret; exact _]. }
  apply keeps_read_spawn. intros sp1 (Hc & _).
  destruct (callback sp1) as [parent|]; [|apply respects_raise; exact _].
  apply keeps_schedule. intros ->. apply Hc. reflexivity.
Qed.

Lemma keeps_settle t r : keeps (@settle code t r).
Proof. unfold settle. respects_auto. Qed.

Lemma keeps_iter_except via : keeps (iter_except closef via).
Proof.
  unfold iter_except. destruct via as [[| | |s|s]|];
    try (apply respects_ret; exact _).
  - apply keeps_update_signal. intros sg _. discriminate.
  - apply keeps_spawn_exit_with.
Qed.

Local Hint Resolve keeps_settle keeps_iter_except : respects.

Lemma keeps_gen_send t v : keeps (gen_send run_code t v).
Proof. unfold gen_send. respects_auto. Qed.

Lemma keeps_gen_throw t e : keeps (gen_throw run_code closef t e).
Proof. unfold gen_throw. respects_auto. Qed.

Local Hint Resolve keeps_gen_throw : respects.

Lemma keeps_gen_close t : keeps (gen_close run_code closef t).
Proof. unfold gen_close. respects_auto. Qed.

Lemma tie_discard (st : @state code) t :
  t ≠ a -> t ≠ b ->
  W st -> W (set_queue (utimeq.discard (_queue st) t) st).
Proof.
  intros Hta Htb (HQ & HF & HP & HG & HS & HN).
  unfold tie_pending, utimeq.discard. simpl.
  split; [|split; [|auto]].
  - destruct HQ as [l1 [l2 [l3 HQ]]]. rewrite HQ.
    exists (filter (λ e, utimeq.task e ≠ t) l1),
           (filter (λ e, utimeq.task e ≠ t) l2),
           (filter (λ e, utimeq.task e ≠ t) l3).
    rewrite filter_app, filter_cons_True by (simpl; congruence).
    rewrite filter_app, filter_cons_True by (simpl; congruence).
    reflexivity.
  - rewrite filter_filter_comm, HF.
    rewrite filter_cons_True by (simpl; congruence). reflexivity.
Qed.

Lemma tie_unpause (st : @state code) t :
  W st -> W (set_paused ((λ tasks, tasks ∖ {[t]}) <$> _paused st) st).
Proof.
  intros (HQ & HF & HP & HG & HS & HN).
  unfold tie_pending. simpl.
  split; [exact HQ|]. split; [exact HF|]. split; [|auto].
  intros i ws. rewrite lookup_fmap.
  destruct (_paused st !! i) as [ws0|] eqn:E; simpl; [|discriminate].
  intros H. inversion H; subst ws. specialize (HP _ _ E). set_solver.
Qed.

Lemma keeps_close_body t :
  t ≠ a -> t ≠ b -> keeps (close_body run_code closef t).
Proof.
  intros Hta Htb. unfold close_body.
  apply respects_bind; [exact _| |intros _].
  { apply respects_modify. intros st. exact (tie_unpause st t). }
  apply respects_bind; [exact _| |intros _].
  { apply respects_modify. intros st. exact (tie_discard st t Hta Htb). }
  apply respects_bind; [exact _|apply keeps_emit|intros _].
  apply respects_bind; [exact _|apply keeps_gen_close|intros _].
  apply keeps_finalize_with. intros. apply keeps_spawn__finish_with.
Qed.

End WithClose.

Lemma keeps_close fuel : ∀ t, t ≠ a -> t ≠ b -> keeps (close run_code fuel t).
Proof.
  induction fuel as [|n IH]; intros t Hta Htb; simpl.
  - apply respects_diverge.
  - apply keeps_close_body; assumption.
Qed.

Lemma keeps_finalize fuel t v : keeps (finalize run_code fuel t v).
Proof.
  apply keeps_finalize_with. intros.
  apply keeps_spawn__finish_with, keeps_close.
Qed.

Lemma keeps_signal_handle s t : t ≠ b -> keeps (@signal_handle code s t).
Proof.
  intros Ht. unfold signal_handle, signal__deliver.
  apply respects_bind; [exact _| |intros _].
  { apply keeps_update_signal. intros sg _. simpl. congruence. }
  apply keeps_read_signal. intros sg Hsg.
  destruct (sig_task sg) as [t'|]; [|apply respects_ret; exact _].
  destruct (sig_value sg) as [v|]; [|apply respects_ret; exact _].
  apply respects_bind; [exact _| |intros _].
  { apply keeps_schedule. congruence. }
  apply respects_bind; [exact _| |intros _].
  { apply keeps_update_signal. intros sg' _. discriminate. }
  apply keeps_update_signal. intros sg' H. exact H.
Qed.

Lemma keeps_spawn_child s child :
  child ≠ AGen a -> child ≠ AGen b ->
  keeps (bind (child_task_of child) (λ child_task,
    bind (schedule child_task VNone None (Some (FinSpawn s))) (λ _,
      update_spawn s (λ sp, Spawn (children sp) (exit_others sp)
                              (finished sp) (scheduled sp ++ [child_task])
                              (callback sp))))).
Proof.
  intros Hca Hcb.
  assert (Hk : ∀ t, t ≠ a -> t ≠ b ->
    keeps (bind (schedule t VNone None (Some (FinSpawn s))) (λ _,
      update_spawn s (λ sp, @Spawn code (children sp) (exit_others sp)
                              (finished sp) (scheduled sp ++ [t])
                              (callback sp))))).
  { intros t Hta Htb. apply respects_bind; [exact _| |intros _].
    - apply keeps_schedule, Htb.
    - apply keeps_update_spawn. intros sp (Hc & Ha & Hb & Hchildren).
      unfold spawn_apart. simpl. split; [exact Hc|].
      split; [set_solver|]. split; [set_solver|]. exact Hchildren. }
  destruct child as [t|obj c]; simpl.
  - intros st. unfold bind at 1, ret.
    apply (Hk t); congruence.
  - intros st. unfold child_task_of, set_gen.
    unfold bind at 1 2 3 4, get, modify, ret.
    set (t := next_task st).
    set (st1 := set_gens _ _).
    pose proof (λ Hta Htb, Hk t Hta Htb st1) as H.
    destruct (bind _ _ st1) as [x st'|e st'|]; [| |exact I]; intros HW;
      (assert (HW1 : W st1);
       [destruct HW as (HQ & HF & HP & HG & HS & Ha & Hb);
        unfold tie_pending; simpl;
        split; [exact HQ|]; split; [exact HF|]; split; [exact HP|];
        split; [exact HG|]; split; [exact HS|]; lia|]);
      destruct HW as (_ & _ & _ & _ & _ & Ha & Hb);
      apply H; try exact HW1; unfold t; lia.
Qed.

Lemma keeps_spawn_handle s t : t ≠ b -> keeps (@spawn_handle code s t).
Proof.
  intros Ht. unfold spawn_handle.
  apply respects_bind; [exact _| |intros _].
  { apply keeps_update_spawn. intros sp (Hc & Hrest).
    unfold spawn_apart. simpl. split; [congruence|exact Hrest]. }
  apply respects_bind; [exact _| |intros _].
  { apply keeps_update_spawn. intros sp (Hc & Ha & Hb & Hchildren).
    unfold spawn_apart. simpl. split; [exact Hc|].
    split; [set_solver|]. split; [set_solver|]. exact Hchildren. }
  apply respects_bind; [exact _| |intros _].
  { apply keeps_update_spawn. intros sp H. exact H. }
  apply keeps_read_spawn. intros sp (_ & _ & _ & Hca & Hcb).
  apply respects_for_each_in; [exact _|]. intros child Hchild.
  apply keeps_spawn_child; intros ->; contradiction.
Qed.

Lemma keeps_handle sc t : t ≠ b -> keeps (@handle code sc t).
Proof.
  intros Ht. destruct sc as [|delay|iface|s|s]; simpl.
  - apply respects_ret. exact _.
  - unfold sleep_handle. apply respects_bind; [exact _| |intros st].
    + apply respects_get. exact _.
    + apply keeps_schedule, Ht.
  - apply keeps_pause, Ht.
  - apply keeps_signal_handle, Ht.
  - apply keeps_spawn_handle, Ht.
Qed.

Lemma keeps__step_result fuel t r :
  t ≠ b -> keeps (_step_result run_code fuel t r).
Proof.
  intros Ht.
  pose proof (keeps_finalize fuel t) as Hfin.
  pose proof (keeps_handle) as Hhandle.
  pose proof (keeps_schedule t VNone None None Ht) as Hsched.
  unfold _step_result. respects_auto; auto.
Qed.

Lemma keeps__step fuel t v : t ≠ b -> keeps (_step run_code fuel t v).
Proof.
  intros Ht.
  pose proof (keeps__step_result fuel t) as Hres.
  pose proof (keeps_gen_send t) as Hsend.
  pose proof (λ e, keeps_gen_throw (close run_code fuel)
                     (keeps_close fuel) t e) as Hthrow.
  unfold _step. respects_auto; auto.
Qed.

(** *** What the loop pops while the tie is pending *)

Lemma tie_pop (st : @state code) m q :
  W st ->
  utimeq.pop (_queue st) = Some (m, q) ->
  m = ea ∨ (utimeq.task m ≠ b ∧ W (set_queue q st)).
Proof.
  intros (HQ & HF & HP & HG & HS & HN) Hpop.
  unfold utimeq.pop in Hpop.
  destruct (utimeq.pop_earliest (utimeq.heap (_queue st))) as [[m' r]|] eqn:E;
    [|discriminate].
  inversion Hpop; subst m' q. clear Hpop.
  destruct HQ as [l1 [l2 [l3 HQ]]]. rewrite HQ in E.
  destruct (pop_earliest_tie _ _ _ _ _ _ _ Hd E)
    as [[-> _]|[k1 [k2 [k3 Hr]]]]; [left; reflexivity|right].
  pose proof (pop_earliest_perm _ _ _ E) as Hperm. rewrite <- HQ in Hperm.
  assert (Hfp : filter (λ e, utimeq.task e = b) (m :: r) ≡ₚ [eb]).
  { rewrite <- Hperm, HF. reflexivity. }
  assert (Hin : eb ∈ filter (λ e, utimeq.task e = b) r).
  { apply list_elem_of_filter. split; [reflexivity|]. rewrite Hr. set_solver. }
  destruct (decide (utimeq.task m = b)) as [Hm|Hm].
  - exfalso. rewrite filter_cons_True in Hfp by exact Hm.
    apply Permutation_length in Hfp. simpl in Hfp.
    destruct (filter _ r); [inversion Hin|simpl in Hfp; lia].
  - split; [exact Hm|].
    rewrite filter_cons_False in Hfp by exact Hm.
    apply Permutation_singleton_r in Hfp.
    unfold tie_pending. simpl.
    split; [exists k1, k2, k3; exact Hr|]. split; [exact Hfp|]. auto.
Qed.

(** *** The turns of the loop *)

Local Abbreviation ra := (resume_event (utimeq.value_ ea) (utimeq.task ea)).
Local Abbreviation Good := (@tie_inv code).

Lemma tie_inv_grows tr0 (st st' : @state code) :
  appends (λ _, true) st st' ->
  (∃ evs pre post, trace st = tr0 ++ evs ∧ evs = pre ++ ra :: post
     ∧ Forall (λ ev, resumes b ev = false) pre) ->
  Good tr0 ea eb st'.
Proof.
  intros [more [Hmore _]] [evs [pre [post [Ht [He Hpre]]]]].
  exists (evs ++ more). split; [rewrite Hmore, Ht, app_assoc; reflexivity|].
  left. exists pre, (post ++ more).
  split; [rewrite He, <- app_assoc; reflexivity|exact Hpre].
Qed.

Lemma quiet_resumes t evs :
  forallb (λ ev, negb (is_resume ev)) evs = true ->
  Forall (λ ev, resumes t ev = false) evs.
Proof.
  induction evs as [|ev evs IH]; simpl; [constructor|].
  intros H. apply andb_prop in H. destruct H as [Hev H].
  constructor; [|apply IH, H].
  destruct ev; simpl in *; try reflexivity; discriminate.
Qed.

Lemma resumes_other t v : t ≠ b -> resumes b (resume_event v t) = false.
Proof.
  intros Ht. destruct v; simpl; apply bool_decide_eq_false_2; exact Ht.
Qed.

Lemma grows__step fuel t v :
  respects (appends (λ _, true)) (_step run_code fuel t v).
Proof.
  apply respects__step; try exact _;
    intros; first [apply appends_frame; assumption
                  | eapply appends_emit; reflexivity
                  | apply appends_frame; reflexivity ].
Qed.

(** The step of a task other than the one of [eb] keeps the invariant. *)
Lemma tie_inv__step tr0 fuel t v (st st' : @state code) :
  t ≠ b ->
  Good tr0 ea eb st ->
  final_state (_step run_code fuel t v st) = Some st' ->
  Good tr0 ea eb st'.
Proof.
  intros Ht [evs [Htr [[pre [post [He Hpre]]]|[Hno HW]]]] Hfin.
  - apply (tie_inv_grows tr0 st st').
    + pose proof (grows__step fuel t v st) as H.
      destruct (_step run_code fuel t v st); inversion Hfin; subst; exact H.
    + exists evs, pre, post. auto.
  - pose proof (_step_trace run_code fuel t v st) as Htrace.
    pose proof (keeps__step fuel t v Ht st) as Hkeep.
    destruct (_step run_code fuel t v st) as [x s|e s|]; inversion Hfin; subst;
      destruct Htrace as [more [Hmore Hquiet]];
      (exists (evs ++ resume_event v t :: more));
      (split; [rewrite Hmore, Htr, <- app_assoc; reflexivity|]);
      right; (split; [|exact (Hkeep HW)]);
      (apply Forall_app; split; [exact Hno|]);
      (constructor; [apply resumes_other, Ht|apply quiet_resumes, Hquiet]).
Qed.

Lemma tie_inv_for_each tr0 fuel v l :
  (∀ t, t ∈ l -> t ≠ b) ->
  ∀ st st' : @state code,
    Good tr0 ea eb st ->
    final_state (for_each (λ t, _step run_code fuel t v) l st) = Some st' ->
    Good tr0 ea eb st'.
Proof.
  induction l as [|t l IH]; intros Hl st st' HG Hfin; simpl in Hfin.
  - inversion Hfin; subst. exact HG.
  - unfold bind in Hfin.
    destruct (_step run_code fuel t v st) as [x s|e s|] eqn:E;
      [| |discriminate].
    + apply (IH (λ t' Ht', Hl t' (list_elem_of_further _ _ _ Ht')) s st');
        [|exact Hfin].
      apply (tie_inv__step tr0 fuel t v st s); [apply Hl; left|exact HG|].
      rewrite E. reflexivity.
    + inversion Hfin; subst.
      apply (tie_inv__step tr0 fuel t v st st'); [apply Hl; left|exact HG|].
      rewrite E. reflexivity.
Qed.

Lemma tie_inv_polled tr0 delay elapsed (st : @state code) :
  Good tr0 ea eb st -> Good tr0 ea eb (polled delay elapsed st).
Proof.
  intros [evs [Htr H]]. exists (evs ++ [EvPoll delay]).
  split; [unfold polled; simpl; rewrite Htr, app_assoc; reflexivity|].
  destruct H as [[pre [post [He Hpre]]]|[Hno HW]].
  - left. exists pre, (post ++ [EvPoll delay]).
    split; [rewrite He, <- app_assoc; reflexivity|exact Hpre].
  - right. split.
    + apply Forall_app. split; [exact Hno|]. constructor; [reflexivity|constructor].
    + revert HW. refine (tie_frame _ _ eq_refl eq_refl eq_refl eq_refl eq_refl).
Qed.

Lemma tie_inv_run_turn tr0 fuel p (st st' : @state code) :
  Good tr0 ea eb st ->
  final_state (run_turn run_code fuel p st) = Some st' ->
  Good tr0 ea eb st'.
Proof.
  intros HG Hfin. rewrite run_turn_budget in Hfin.
  apply (tie_inv_polled tr0 (budget st) (elapsed_us p)) in HG.
  revert HG Hfin. generalize (polled (budget st) (elapsed_us p) st).
  clear st. intros st HG Hfin.
  destruct HG as [evs [Htr [[pre [post [He Hpre]]]|[Hno HW]]]].
  { apply (tie_inv_grows tr0 st st').
    - pose proof (grows_dispatch run_code fuel (outcome p) st) as H.
      destruct (dispatch run_code fuel (outcome p) st);
        inversion Hfin; subst; exact H.
    - exists evs, pre, post. auto. }
  destruct (outcome p) as [iface payload|]; simpl in Hfin.
  - unfold bind at 1, get at 1 in Hfin. unfold bind at 1, modify at 1 in Hfin.
    apply (tie_inv_for_each tr0 fuel payload _) in Hfin; [exact Hfin| |].
    + intros t Ht. apply elem_of_elements in Ht.
      destruct HW as (_ & _ & HP & _).
      destruct (_paused st !! iface) as [ws|] eqn:E; simpl in Ht.
      * intros ->. exact (HP _ _ E Ht).
      * set_solver.
    + exists evs. split; [exact Htr|]. right. split; [exact Hno|].
      destruct HW as (HQ & HF & HP & HG & HS & HN).
      unfold tie_pending. simpl.
      split; [exact HQ|]. split; [exact HF|]. split; [|auto].
      intros i ws Hi. apply lookup_delete_Some in Hi. apply (HP i ws), Hi.
  - unfold bind at 1, get at 1 in Hfin.
    assert (Hne : utimeq.nonempty (_queue st) = true).
    { destruct HW as ([l1 [l2 [l3 HQ]]] & _). unfold utimeq.nonempty.
      rewrite HQ. destruct l1; reflexivity. }
    rewrite Hne in Hfin.
    destruct (utimeq.pop (_queue st)) as [[m q]|] eqn:Hpop.
    + unfold bind at 1, modify at 1 in Hfin.
      destruct (tie_pop st m q HW Hpop) as [->|[Hm HWq]].
      * pose proof (_step_trace run_code fuel a (utimeq.value_ ea)
                      (set_queue q st)) as Htrace.
        destruct (_step run_code fuel a (utimeq.value_ ea) (set_queue q st))
          as [x s|e s|]; inversion Hfin; subst;
          destruct Htrace as [more [Hmore _]];
          (exists (evs ++ ra :: more));
          (split; [rewrite Hmore; simpl; rewrite Htr, <- app_assoc;
                   reflexivity|]);
          left; exists evs, more; auto.
      * apply (tie_inv__step tr0 fuel (utimeq.task m) (utimeq.value_ m)
                 (set_queue q st) st' Hm); [|exact Hfin].
        exists evs. split; [exact Htr|]. right. auto.
    + exfalso. unfold utimeq.pop in Hpop.
      destruct HW as ([l1 [l2 [l3 HQ]]] & _).
      destruct (pop_earliest_some (utimeq.heap (_queue st))) as [[m r] Hm].
      * rewrite HQ. destruct l1; discriminate.
      * rewrite Hm in Hpop. discriminate.
Qed.

Lemma tie_inv_run tr0 fuel polls :
  ∀ st st' : @state code,
    Good tr0 ea eb st ->
    final_state (run run_code fuel polls st) = Some st' ->
    Good tr0 ea eb st'.
Proof.
  induction polls as [|p polls IH]; intros st st' HG Hfin; simpl in Hfin;
    unfold bind at 1, get at 1 in Hfin;
    destruct (running st).
  - inversion Hfin; subst. exact HG.
  - inversion Hfin; subst. exact HG.
  - unfold bind in Hfin.
    destruct (run_turn run_code fuel p st) as [x s|e s|] eqn:E;
      [| |discriminate].
    + apply (IH s st'); [|exact Hfin].
      apply (tie_inv_run_turn tr0 fuel p st s HG). rewrite E. reflexivity.
    + inversion Hfin; subst.
      apply (tie_inv_run_turn tr0 fuel p st st' HG). rewrite E. reflexivity.
  - inversion Hfin; subst. exact HG.
Qed.

Lemma tie_inv_resumed_first tr0 (st : @state code) :
  Good tr0 ea eb st ->
  ∃ evs, trace st = tr0 ++ evs
         ∧ resumed_first ra b evs
         ∧ (ra ∈ evs
            ∨ ∃ l1 l2 l3, utimeq.heap (_queue st) = l1 ++ ea :: l2 ++ eb :: l3).
Proof.
  intros [evs [Htr H]]. exists evs. split; [exact Htr|]. split.
  - intros pre ev post He Hev.
    destruct H as [[pre0 [post0 [He0 Hpre0]]]|[Hno _]].
    + destruct (decide (length pre0 < length pre)%nat) as [Hlt|Hge].
      * assert (Hl : (pre ++ ev :: post) !! length pre0 = Some ra).
        { rewrite <- He, He0. apply list_lookup_middle. reflexivity. }
        rewrite lookup_app_l in Hl by exact Hlt.
        apply list_elem_of_lookup. eauto.
      * exfalso.
        assert (Hl : (pre0 ++ ra :: post0) !! length pre = Some ev).
        { rewrite <- He0, He. apply list_lookup_middle. reflexivity. }
        destruct (decide (length pre = length pre0)) as [Heq|Hne].
        -- rewrite Heq, list_lookup_middle in Hl by reflexivity.
           inversion Hl; subst ev.
           rewrite (resumes_other _ _ Hab) in Hev. discriminate.
        -- rewrite lookup_app_l in Hl by lia.
           rewrite Forall_forall in Hpre0.
           rewrite (Hpre0 ev) in Hev; [discriminate|].
           apply list_elem_of_lookup. eauto.
    + exfalso. rewrite Forall_forall in Hno.
      rewrite (Hno ev) in Hev; [discriminate|]. rewrite He. set_solver.
  - destruct H as [[pre0 [post0 [He0 _]]]|[_ (HQ & _)]].
    + left. rewrite He0. set_solver.
    + right. exact HQ.
Qed.

End TieOrder.




(** ** More fuel changes no result

    A run that ends within the bound on the nesting of [close] calls ends
    the same way under any larger bound. *)

Section Fuel.

Context {code : Type} (run_code : code -> resume_input -> @step_result code).

Lemma below_refl {A} (m : @M code A) : below m m.
Proof. intros st. right. reflexivity. Qed.

Lemma below_diverge {A} (m : @M code A) : below diverge m.
Proof. intros st. left. reflexivity. Qed.

Lemma below_trans {A} (m1 m2 m3 : @M code A) :
  below m1 m2 -> below m2 m3 -> below m1 m3.
Proof.
  intros H12 H23 st. destruct (H12 st) as [H|H]; [left; exact H|].
  rewrite H. apply H23.
Qed.

Lemma below_bind {A B} (m m' : @M code A) (k k' : A -> M B) :
  below m m' -> (∀ a, below (k a) (k' a)) -> below (bind m k) (bind m' k').
Proof.
  intros Hm Hk st. unfold bind. destruct (Hm st) as [H|H]; rewrite H.
  - left. reflexivity.
  - destruct (m' st) as [a st1|e st1|]; [apply Hk|right|right]; reflexivity.
Qed.

Lemma below_catch {A} (m m' : @M code A) (h h' : exn -> M A) :
  below m m' -> (∀ e, below (h e) (h' e)) -> below (catch m h) (catch m' h').
Proof.
  intros Hm Hh st. unfold catch. destruct (Hm st) as [H|H]; rewrite H.
  - left. reflexivity.
  - destruct (m' st) as [a st1|e st1|]; [right|apply Hh|right]; reflexivity.
Qed.

Lemma below_for_each {A} (f f' : A -> @M code unit) l :
  (∀ x, below (f x) (f' x)) -> below (for_each f l) (for_each f' l).
Proof.
  intros Hf. induction l as [|x l IH]; simpl.
  - apply below_refl.
  - apply below_bind; [apply Hf | intros _; exact IH].
Qed.

Ltac below_step :=
  lazymatch goal with
  | |- below (bind _ _) (bind _ _) => apply below_bind; [| intros ?]
  | |- below (catch _ _) (catch _ _) => apply below_catch; [| intros ?]
  | |- below (for_each _ _) (for_each _ _) => apply below_for_each; intros ?
  | |- below (match ?x with _ => _ end) (match ?x with _ => _ end) => destruct x
  | |- below _ _ => solve [apply below_refl | eauto]
  end.

Ltac below_auto := repeat (cbv zeta; below_step).

Section WithClose.

Variables closef closef' : Task -> @M code unit.
Hypothesis Hclose : ∀ t, below (closef t) (closef' t).

Lemma below_spawn_exit_with s except_for :
  below (spawn_exit_with closef s except_for)
        (spawn_exit_with closef' s except_for).
Proof. unfold spawn_exit_with. below_auto. Qed.

Lemma below_spawn__finish_with s task result :
  below (spawn__finish_with closef s task result)
        (spawn__finish_with closef' s task result).
Proof.
  pose proof below_spawn_exit_with.
  unfold spawn__finish_with. below_auto.
Qed.

Lemma below_finalize_with task v :
  below (finalize_with (spawn__finish_with closef) task v)
        (finalize_with (spawn__finish_with closef') task v).
Proof.
  pose proof below_spawn__finish_with.
  unfold finalize_with, call_finalizer. below_auto.
Qed.

Lemma below_gen_throw t e :
  below (gen_throw run_code closef t e) (gen_throw run_code closef' t e).
Proof.
  pose proof below_spawn_exit_with.
  unfold gen_throw, iter_except. below_auto.
Qed.

Lemma below_close_body t :
  below (close_body run_code closef t) (close_body run_code closef' t).
Proof.
  pose proof below_gen_throw. pose proof below_finalize_with.
  unfold close_body, gen_close. below_auto.
Qed.

End WithClose.

Lemma below_close_succ n : ∀ t,
  below (close run_code n t) (close run_code (S n) t).
Proof.
  induction n as [|n IH]; intros t.
  - apply below_diverge.
  - change (below (close_body run_code (close run_code n) t)
                  (close_body run_code (close run_code (S n)) t)).
    apply below_close_body, IH.
Qed.

Lemma below_close n m t :
  (n ≤ m)%nat -> below (close run_code n t) (close run_code m t).
Proof.
  induction 1 as [|m Hle IH].
  - apply below_refl.
  - eapply below_trans; [exact IH | apply below_close_succ].
Qed.

Lemma below__step n m task v :
  (n ≤ m)%nat -> below (_step run_code n task v) (_step run_code m task v).
Proof.
  intros Hle.
  pose proof (λ t, below_close n m t Hle) as Hc.
  pose proof (below_gen_throw _ _ Hc).
  pose proof (below_finalize_with _ _ Hc).
  unfold _step, _step_result, finalize, spawn__finish. below_auto.
Qed.

Lemma below_run_turn n m p :
  (n ≤ m)%nat -> below (run_turn run_code n p) (run_turn run_code m p).
Proof.
  intros Hle. pose proof (λ t v, below__step n m t v Hle).
  unfold run_turn, dispatch. below_auto.
Qed.

Lemma below_run_op n m o :
  (n ≤ m)%nat -> below (run_op run_code n o) (run_op run_code m o).
Proof.
  intros Hle. destruct o; simpl; try apply below_refl.
  - apply below_close, Hle.
  - apply below_run_turn, Hle.
Qed.

(** A sequence of operations that ends with the bound [n] ends in the
    same state with any bound [m] above [n]. *)
Lemma exec_more_fuel n m ops : ∀ st st' : @state code,
  (n ≤ m)%nat ->
  exec run_code n ops st = Some st' -> exec run_code m ops st = Some st'.
Proof.
  induction ops as [|o ops IH]; simpl; intros st st' Hle H; [exact H|].
  destruct (below_run_op n m o Hle st) as [Ho|Ho]; rewrite Ho in H.
  - discriminate.
  - destruct (run_op run_code m o st) as [a st1|e st1|];
      [apply (IH _ _ Hle H)|apply (IH _ _ Hle H)|discriminate].
Qed.

End Fuel.

(** * Further properties of the loop *)

(** ** [clear] and the end of [run] *)

Lemma pop_all_empties n : ∀ q,
  length (utimeq.heap q) = n ->
  pop_all n q = utimeq.Queue (utimeq.capacity q) [].
Proof.
  induction n as [|n IH]; intros [cap l] Hlen; simpl in *.
  - destruct l; [reflexivity|discriminate].
  - unfold utimeq.pop. simpl.
    destruct (utimeq.pop_earliest l) as [[m r]|] eqn:E.
    + rewrite IH; [reflexivity|]. simpl.
      pose proof (pop_earliest_length _ _ _ E). lia.
    + rewrite (pop_earliest_none _ E) in Hlen. discriminate.
Qed.

(** [clear] empties the timer queue, the paused index and the finalizer
    table without calling any finalizer or closing any task; a second
    [clear] changes nothing, and [run] returns at once, without polling. *)
Theorem clear_forgets_everything {code} (st : @state code) :
  ∃ st', clear st = Done tt st'
         ∧ utimeq.heap (_queue st') = []
         ∧ _paused st' = ∅
         ∧ _finalizers st' = ∅
         ∧ trace st' = trace st
         ∧ gens st' = gens st
         ∧ clear st' = Done tt st'
         ∧ ∀ run_code fuel polls, run run_code fuel polls st' = Done true st'.
Proof.
  unfold clear, bind, modify. simpl.
  rewrite (pop_all_empties _ (_queue st) eq_refl).
  eexists. split; [reflexivity|]. simpl.
  do 5 (split; [reflexivity|]).
  split; [reflexivity|].
  intros run_code fuel polls. destruct polls; reflexivity.
Qed.

(** While some interface has a set of waiters, even an empty one, and no
    task is scheduled, [run] does not return: each timeout of [io.poll],
    called with the budget [max_delay], leaves the loop where it was. *)
Theorem run_waits_while_paused {code}
    (run_code : code -> resume_input -> @step_result code) fuel polls :
  ∀ st : @state code,
    utimeq.nonempty (_queue st) = false ->
    _paused st ≠ ∅ ->
    Forall (λ p, outcome p = Timeout) polls ->
    ∃ st', run run_code fuel polls st = Done false st'
           ∧ _paused st' = _paused st
           ∧ _queue st' = _queue st
           ∧ _finalizers st' = _finalizers st
           ∧ trace st' = trace st ++ map (λ _, EvPoll max_delay) polls.
Proof.
  induction polls as [|p polls IH]; intros st Hq Hp Hall.
  - exists st. simpl. unfold bind, get, running. rewrite Hq. simpl.
    rewrite bool_decide_eq_true_2 by exact Hp.
    rewrite app_nil_r. auto.
  - inversion Hall as [|? ? Hout Hall']; subst.
    simpl. unfold bind at 1, get, running. rewrite Hq. simpl.
    rewrite bool_decide_eq_true_2 by exact Hp.
    unfold bind at 1. rewrite (run_turn_polled_idle run_code fuel p st Hq).
    rewrite Hout. unfold dispatch, bind at 1, get.
    change (utimeq.nonempty (_queue (polled max_delay (elapsed_us p) st)))
      with (utimeq.nonempty (_queue st)).
    rewrite Hq. unfold ret.
    destruct (IH (polled max_delay (elapsed_us p) st) Hq Hp Hall')
      as [st' [Hrun [H1 [H2 [H3 H4]]]]].
    exists st'. split; [exact Hrun|]. split; [exact H1|]. split; [exact H2|].
    split; [exact H3|]. rewrite H4. simpl. rewrite <- app_assoc. reflexivity.
Qed.

Lemma run_waits_while_paused_witness :
  let st : @state frame := set_paused {[ 7 := ∅ ]} Scenario.one_task in
  ∃ st', run run_frame 1 [Poll 5 Timeout; Poll 5 Timeout] st = Done false st'
         ∧ _paused st' = _paused st
         ∧ _queue st' = _queue st
         ∧ _finalizers st' = _finalizers st
         ∧ trace st' = trace st ++ [EvPoll max_delay; EvPoll max_delay].
Proof.
  intros st.
  refine (run_waits_while_paused run_frame 1 [Poll 5 Timeout; Poll 5 Timeout]
            st eq_refl _ _).
  - intros H. apply (f_equal (λ m : gmap Z (gset Task), m !! 7)) in H.
    vm_compute in H. discriminate H.
  - repeat constructor.
Defined.

(** ** Messages nobody waits for *)

(** A message on an interface that has no entry in the paused index is
    dropped: the turn steps no task and changes nothing but the clock. *)
Theorem message_without_waiters_is_dropped {code}
    (run_code : code -> resume_input -> @step_result code) fuel elapsed
    (st : @state code) iface payload :
  _paused st !! iface = None ->
  run_turn run_code fuel (Poll elapsed (Message iface payload)) st
  = Done tt (polled (budget st) elapsed st).
Proof.
  intros Hnone. rewrite run_turn_budget. simpl.
  unfold bind, get, modify. simpl. rewrite Hnone. simpl.
  rewrite elements_empty. simpl. unfold ret.
  rewrite (delete_id _ _ Hnone). reflexivity.
Qed.

Lemma message_without_waiters_is_dropped_witness :
  run_turn run_frame 1 (Poll 5 (Message 7 (VObj 1))) Scenario.one_task
  = Done tt (polled (budget Scenario.one_task) 5 Scenario.one_task).
Proof.
  exact (message_without_waiters_is_dropped run_frame 1 5 Scenario.one_task
           7 (VObj 1) eq_refl).
Defined.

(** ** [pause] *)

(** [pause(task, iface)] puts the task into the set of [iface], creating
    the set when there is none, and leaves the sets of the other
    interfaces, the queue and the finalizers as they are (so a task paused
    on one interface stays there when it is paused on another one);
    pausing a task twice on an interface is the same as pausing it
    once. *)
Theorem pause_adds_once {code} (st : @state code) task iface :
  ∃ st1, pause task iface st = Done tt st1
         ∧ (∃ tasks, _paused st1 !! iface = Some tasks ∧ task ∈ tasks
                     ∧ ∀ t, t ∈ tasks
                            ↔ t = task ∨ t ∈ default ∅ (_paused st !! iface))
         ∧ (∀ j, j ≠ iface -> _paused st1 !! j = _paused st !! j)
         ∧ _queue st1 = _queue st
         ∧ _finalizers st1 = _finalizers st
         ∧ pause task iface st1 = Done tt st1.
Proof.
  unfold pause, modify. eexists. split; [reflexivity|]. simpl.
  split.
  { eexists. split; [apply lookup_insert_eq|]. split; [set_solver|].
    intros t. set_solver. }
  split; [intros j Hj; apply lookup_insert_ne; congruence|].
  split; [reflexivity|]. split; [reflexivity|].
  rewrite lookup_insert_eq. simpl. rewrite insert_insert_eq.
  assert (Hidem : default ∅ (_paused st !! iface) ∪ {[task]} ∪ {[task]}
                  = default ∅ (_paused st !! iface) ∪ {[task]}) by set_solver.
  rewrite Hidem. reflexivity.
Qed.

(** ** Failures that leave the loop *)

(** A task that raises a failure outside [Exception] (a [GeneratorExit],
    say) when it is started ends [run]: the failure propagates out of
    [_step] and out of the loop, nothing is logged and the finalizer of the
    task is neither called nor removed. *)
Theorem base_exception_leaves_run {code}
    (run_code : code -> resume_input -> @step_result code) fuel elapsed polls
    (st : @state code) t c e d q :
  utimeq.pop (_queue st) = Some (utimeq.Entry d t VNone, q) ->
  gens st !! t = Some (GFresh c) ->
  run_code c (Send VNone) = ORaise e ->
  is_Exception e = false ->
  ∃ st', run run_code fuel (Poll elapsed Timeout :: polls) st = Fail e st'
         ∧ _finalizers st' = _finalizers st
         ∧ _queue st' = q
         ∧ trace st' = trace st ++ [EvPoll (utime.ticks_diff d (ticks_us st));
                                    EvSend t VNone].
Proof.
  intros Hpop Hg Hrun He.
  simpl. unfold bind at 1, get, running.
  rewrite (peektime_nonempty _ _ (pop_peektime _ _ _ Hpop)). simpl.
  unfold bind at 1.
  rewrite (run_turn_timeout run_code fuel elapsed st _ q Hpop). simpl.
  unfold _step, gen_send, settle, get_gen, set_gen, bind, get, modify, emit, ret.
  simpl. rewrite Hg. simpl. rewrite Hrun. simpl. rewrite He.
  eexists. split; [reflexivity|]. simpl.
  rewrite <- app_assoc. auto.
Qed.

Lemma base_exception_leaves_run_witness :
  let st : @state frame :=
    set_queue (utimeq.Queue 64 [utimeq.Entry 0 1%nat VNone])
      (set_gens {[ 1%nat := GFresh (Start (Raise GeneratorExit)) ]}
                Scenario.one_task) in
  ∃ st', run run_frame 1 [Poll 0 Timeout] st = Fail GeneratorExit st'
         ∧ _finalizers st' = _finalizers st
         ∧ _queue st' = utimeq.Queue 64 []
         ∧ trace st' = trace st ++ [EvPoll (utime.ticks_diff 0 (ticks_us st));
                                    EvSend 1%nat VNone].
Proof.
  intros st.
  exact (base_exception_leaves_run run_frame 1 0 [] st 1%nat
           (Start (Raise GeneratorExit)) GeneratorExit 0 (utimeq.Queue 64 [])
           eq_refl eq_refl eq_refl eq_refl).
Defined.

(** ** Cancellation, step by step

    Every run of [close], of [finalize] and of the functions they call is
    a sequence of the elementary changes of [cancel_step]. *)

Section CancelSteps.

Context {code : Type} (run_code : code -> resume_input -> @step_result code).

Abbreviation cancels := (rtc (@cancel_step code)).

Lemma cancels_once_modify (f : @state code -> @state code) :
  (∀ st, cancel_step st (f st)) -> respects cancels (modify f).
Proof. intros H. apply respects_modify. intros st. apply rtc_once, H. Qed.

Local Hint Extern 1 (respects _ (modify _)) =>
  (apply cancels_once_modify; intros ?; econstructor; eauto; exact I) : respects.

Lemma cancels_schedule task v :
  respects cancels (@schedule code task v None None).
Proof.
  intros st. unfold schedule, bind, get, modify, ret, raise. simpl.
  destruct (utimeq.push _ _ _ _) as [q|] eqn:E.
  - apply rtc_once. eapply cs_push. exact E.
  - reflexivity.
Qed.
Local Hint Resolve cancels_schedule : respects.

Lemma cancels_finalize_with finish task v :
  (∀ s t w, respects cancels (finish s t w)) ->
  respects cancels (@finalize_with code finish task v).
Proof.
  intros Hfin. unfold finalize_with, call_finalizer, emit. respects_auto.
Qed.

Section WithClose.

Variable closef : Task -> @M code unit.
Hypothesis cancels_closef : ∀ t, respects cancels (closef t).
Local Hint Resolve cancels_closef : respects.

Lemma cancels_spawn_exit_with s except_for :
  respects cancels (spawn_exit_with closef s except_for).
Proof. unfold spawn_exit_with, get_spawn. respects_auto. Qed.
Local Hint Resolve cancels_spawn_exit_with : respects.

Lemma cancels_append_finished (st : @state code) s child :
  finished (spawn_of st s) = [] ->
  ∃ st1, update_spawn s (λ sp, Spawn (children sp) (exit_others sp)
                                 (finished sp ++ [child])
                                 (scheduled sp) (callback sp)) st
         = Done tt st1
         ∧ cancel_step st st1.
Proof.
  intros Efin. eexists. split.
  - unfold update_spawn, get_spawn, bind, get, ret, modify.
    fold (spawn_of st s). rewrite Efin. reflexivity.
  - apply cs_finished, Efin.
Qed.

Lemma cancels_spawn__finish_with s task result :
  respects cancels (spawn__finish_with closef s task result).
Proof.
  intros st. unfold spawn__finish_with, get_spawn, bind at 1 2, get, ret.
  fold (spawn_of st s).
  destruct (finished (spawn_of st s)) as [|x l] eqn:Efin; [|reflexivity].
  destruct (index_of task (scheduled (spawn_of st s))) as [index|];
    [|unfold raise; reflexivity].
  destruct (children (spawn_of st s) !! index) as [child|];
    [|unfold raise; reflexivity].
  destruct (cancels_append_finished st s child Efin) as [st1 [Hupd Hstep]].
  unfold bind at 1. rewrite Hupd.
  match goal with |- context [bind ?m ?k st1] =>
    assert (Hrest : respects cancels (bind m k))
      by (unfold get_spawn; respects_auto; intros ?; reflexivity);
    specialize (Hrest st1);
    destruct (bind m k st1) as [a st'|e st'|]
  end; [| |exact I]; (eapply rtc_l; [exact Hstep|exact Hrest]).
Qed.
Local Hint Resolve cancels_spawn__finish_with : respects.

Lemma cancels_settle t r : respects cancels (@settle code t r).
Proof. unfold settle, set_gen. respects_auto. Qed.
Local Hint Resolve cancels_settle : respects.

Lemma cancels_iter_except via : respects cancels (iter_except closef via).
Proof.
  destruct via as [[| | |s|s]|]; simpl; try apply respects_ret; try exact _.
  - intros st. unfold update_signal, get_signal, bind, get, ret, modify.
    fold (signal_of st s). apply rtc_once, cs_forget_waiter.
  - apply cancels_spawn_exit_with.
Qed.
Local Hint Resolve cancels_iter_except : respects.

Lemma cancels_gen_throw t e :
  respects cancels (gen_throw run_code closef t e).
Proof. unfold gen_throw, get_gen, set_gen. respects_auto. Qed.
Local Hint Resolve cancels_gen_throw : respects.

Lemma cancels_gen_close t : respects cancels (gen_close run_code closef t).
Proof. unfold gen_close, get_gen, set_gen. respects_auto. Qed.
Local Hint Resolve cancels_gen_close : respects.

Lemma cancels_close_body t : respects cancels (close_body run_code closef t).
Proof.
  unfold close_body, emit. respects_auto.
  apply cancels_finalize_with. intros. apply cancels_spawn__finish_with.
Qed.

End WithClose.

Lemma cancels_close fuel t : respects cancels (close run_code fuel t).
Proof.
  revert t. induction fuel as [|n IH]; intros t; simpl.
  - apply respects_diverge.
  - apply cancels_close_body. exact IH.
Qed.

Lemma cancels_spawn__finish fuel s task result :
  respects cancels (spawn__finish run_code fuel s task result).
Proof. apply cancels_spawn__finish_with, cancels_close. Qed.

Lemma cancels_spawn_exit fuel s except_for :
  respects cancels (spawn_exit run_code fuel s except_for).
Proof. apply cancels_spawn_exit_with, cancels_close. Qed.

Lemma cancels_finalize fuel t v : respects cancels (finalize run_code fuel t v).
Proof. apply cancels_finalize_with. intros. apply cancels_spawn__finish. Qed.

End CancelSteps.

(** ** What cancellation keeps *)

Section CancelFacts.

Context {code : Type} (run_code : code -> resume_input -> @step_result code).

Lemma cancels_ind (P : relation (@state code)) :
  (∀ st, P st st) ->
  (∀ st1 st2 st3, P st1 st2 -> P st2 st3 -> P st1 st3) ->
  (∀ st st', cancel_step st st' -> P st st') ->
  ∀ st st', rtc cancel_step st st' -> P st st'.
Proof.
  intros Hrefl Htrans Hstep st st' H. induction H as [|st1 st2 st3 H12 _ IH].
  - apply Hrefl.
  - eapply Htrans; [apply Hstep, H12 | exact IH].
Qed.

Lemma spawn_of_insert (st : @state code) s s' sp :
  spawn_of (set_spawns (<[s := sp]> (spawns st)) st) s'
  = if decide (s = s') then sp else spawn_of st s'.
Proof.
  unfold spawn_of. simpl. rewrite lookup_insert.
  case_decide; reflexivity.
Qed.

Lemma signal_of_insert (st : @state code) s s' sg :
  signal_of (set_signals (<[s := sg]> (signals st)) st) s'
  = if decide (s = s') then sg else signal_of st s'.
Proof.
  unfold signal_of. simpl. rewrite lookup_insert.
  case_decide; reflexivity.
Qed.

(** Cancellation installs no finalizer. *)
Lemma cancels_finalizers (st st' : @state code) :
  rtc cancel_step st st' ->
  ∀ t, _finalizers st !! t = None -> _finalizers st' !! t = None.
Proof.
  revert st st'.
  apply (cancels_ind (λ st st', ∀ t, _finalizers st !! t = None ->
                                     _finalizers st' !! t = None)).
  - auto.
  - auto.
  - intros st st' Hstep t Ht. destruct Hstep; simpl; try exact Ht.
    rewrite lookup_delete. case_decide; [reflexivity|exact Ht].
Qed.

(** Cancellation keeps the interfaces of the paused index and only takes
    tasks out of their sets. *)
Lemma cancels_paused (st st' : @state code) :
  rtc cancel_step st st' ->
  dom (_paused st') = dom (_paused st)
  ∧ ∀ i ws', _paused st' !! i = Some ws' ->
             ∃ ws, _paused st !! i = Some ws ∧ ws' ⊆ ws.
Proof.
  revert st st'.
  apply (cancels_ind (λ st st',
           dom (_paused st') = dom (_paused st)
           ∧ ∀ i ws', _paused st' !! i = Some ws' ->
                      ∃ ws, _paused st !! i = Some ws ∧ ws' ⊆ ws)).
  - intros st. split; [reflexivity|]. intros i ws H. exists ws. auto.
  - intros st1 st2 st3 [Hd12 H12] [Hd23 H23]. split; [congruence|].
    intros i ws3 H3. destruct (H23 i ws3 H3) as [ws2 [H2 Hs2]].
    destruct (H12 i ws2 H2) as [ws1 [H1 Hs1]]. exists ws1.
    split; [exact H1|]. set_solver.
  - intros st st' Hstep.
    destruct Hstep; simpl;
      try (split; [reflexivity|]; intros i ws Hi; exists ws; auto).
    split; [apply dom_fmap_L|].
    intros i ws' Hi. rewrite lookup_fmap in Hi.
    destruct (_paused st !! i) as [ws|]; [|discriminate].
    simpl in Hi. inversion Hi; subst. exists ws.
    split; [reflexivity|set_solver].
Qed.

(** Cancellation reads the clock and the hook without changing them. *)
Lemma cancels_ticks (st st' : @state code) :
  rtc cancel_step st st' ->
  ticks_us st' = ticks_us st ∧ after_step_hook st' = after_step_hook st.
Proof.
  revert st st'.
  apply (cancels_ind (λ st st', ticks_us st' = ticks_us st
                                ∧ after_step_hook st' = after_step_hook st)).
  - auto.
  - intros st1 st2 st3 [H1 H2] [H3 H4]. split; congruence.
  - intros st st' Hstep. destruct Hstep; simpl; auto.
Qed.

(** Cancellation only adds to the trace, and what it adds are calls of
    [task.close()] and of finalizers. *)
Lemma cancels_trace (st st' : @state code) :
  rtc cancel_step st st' ->
  ∃ evs, trace st' = trace st ++ evs
         ∧ Forall (λ ev, match ev with
                         | EvClose _ | EvFinalizer _ _ _ => True
                         | _ => False
                         end) evs.
Proof.
  revert st st'.
  apply (cancels_ind (λ st st',
           ∃ evs, trace st' = trace st ++ evs
                  ∧ Forall (λ ev, match ev with
                                  | EvClose _ | EvFinalizer _ _ _ => True
                                  | _ => False
                                  end) evs)).
  - intros st. exists []. rewrite app_nil_r. auto.
  - intros st1 st2 st3 [e1 [H1 F1]] [e2 [H2 F2]]. exists (e1 ++ e2).
    split; [rewrite H2, H1, <- app_assoc; reflexivity|].
    apply Forall_app. auto.
  - intros st st' Hstep.
    destruct Hstep; simpl;
      try (exists []; rewrite app_nil_r; split; [reflexivity|constructor]).
    exists [ev]. split; [reflexivity|]. repeat constructor. assumption.
Qed.

(** Cancellation changes a spawn object in one way only: the first child
    to finish enters the empty list [finished]. *)
Lemma cancels_spawn (st st' : @state code) :
  rtc cancel_step st st' ->
  ∀ s, children (spawn_of st' s) = children (spawn_of st s)
       ∧ exit_others (spawn_of st' s) = exit_others (spawn_of st s)
       ∧ scheduled (spawn_of st' s) = scheduled (spawn_of st s)
       ∧ callback (spawn_of st' s) = callback (spawn_of st s)
       ∧ (finished (spawn_of st s) ≠ [] ->
          finished (spawn_of st' s) = finished (spawn_of st s)).
Proof.
  revert st st'.
  apply (cancels_ind (λ st st', ∀ s,
           children (spawn_of st' s) = children (spawn_of st s)
           ∧ exit_others (spawn_of st' s) = exit_others (spawn_of st s)
           ∧ scheduled (spawn_of st' s) = scheduled (spawn_of st s)
           ∧ callback (spawn_of st' s) = callback (spawn_of st s)
           ∧ (finished (spawn_of st s) ≠ [] ->
              finished (spawn_of st' s) = finished (spawn_of st s)))).
  - intros st s. auto 10.
  - intros st1 st2 st3 H12 H23 s.
    destruct (H12 s) as [A1 [A2 [A3 [A4 A5]]]].
    destruct (H23 s) as [B1 [B2 [B3 [B4 B5]]]].
    split; [congruence|]. split; [congruence|]. split; [congruence|].
    split; [congruence|].
    intros Hne. rewrite B5; [apply A5, Hne|]. rewrite A5; assumption.
  - intros st st' Hstep s. destruct Hstep; try (simpl; auto 10; fail).
    rewrite spawn_of_insert. case_decide as Hs.
    + subst. simpl. split; [reflexivity|]. split; [reflexivity|].
      split; [reflexivity|]. split; [reflexivity|].
      intros Hne. contradiction.
    + auto 10.
Qed.

(** Cancellation keeps the pending value of a signal, and a signal
    without a waiter gets none. *)
Lemma cancels_signal (st st' : @state code) :
  rtc cancel_step st st' ->
  ∀ s, sig_value (signal_of st' s) = sig_value (signal_of st s)
       ∧ (sig_task (signal_of st s) = None ->
          sig_task (signal_of st' s) = None).
Proof.
  revert st st'.
  apply (cancels_ind (λ st st', ∀ s,
           sig_value (signal_of st' s) = sig_value (signal_of st s)
           ∧ (sig_task (signal_of st s) = None ->
              sig_task (signal_of st' s) = None))).
  - auto.
  - intros st1 st2 st3 H12 H23 s.
    destruct (H12 s) as [A1 A2]. destruct (H23 s) as [B1 B2].
    split; [congruence|auto].
  - intros st st' Hstep s. destruct Hstep; try (simpl; auto; fail).
    rewrite signal_of_insert. case_decide as Hs.
    + subst. simpl. auto.
    + auto.
Qed.

Lemma bind_Done {A B} (m : @M code A) (k : A -> M B) st b st' :
  bind m k st = Done b st' ->
  ∃ a st1, m st = Done a st1 ∧ k a st1 = Done b st'.
Proof.
  unfold bind. destruct (m st) as [a st1|e st1|]; [|discriminate..].
  intros H. exists a, st1. auto.
Qed.

(** The state in which a run ended, when it is relevant how. *)
Lemma respects_final {A} R (m : @M code A) st st' :
  respects R m -> final_state (m st) = Some st' -> R st st'.
Proof.
  intros Hm H. specialize (Hm st).
  destruct (m st) as [a s|e s|]; simpl in H; inversion H; subst; exact Hm.
Qed.

Lemma finalize_with_absent finish t v (st st' : @state code) :
  (∀ s t w, respects (rtc cancel_step) (finish s t w)) ->
  final_state (finalize_with finish t v st) = Some st' ->
  _finalizers st' !! t = None.
Proof.
  intros Hfin. unfold finalize_with, bind at 1, get.
  destruct (_finalizers st !! t) as [fn|] eqn:E.
  - unfold bind at 1, modify. intros H.
    assert (Hc : respects (rtc cancel_step) (call_finalizer finish fn t v)).
    { unfold call_finalizer. apply respects_bind; [exact _| |intros _].
      - apply respects_modify. intros s. apply rtc_once, cs_emit. exact I.
      - destruct fn; [apply Hfin|apply respects_ret; exact _]. }
    apply (cancels_finalizers _ _ (respects_final _ _ _ _ Hc H)).
    apply lookup_delete_eq.
  - simpl. intros H. inversion H; subst. exact E.
Qed.

(** [finalize] is one-shot: however the first [finalize] of a task ended,
    a second one finds no finalizer and does nothing. *)
Theorem finalize_twice_is_noop fuel fuel' t v w (st st1 : @state code) :
  final_state (finalize run_code fuel t v st) = Some st1 ->
  finalize run_code fuel' t w st1 = Done tt st1.
Proof.
  intros H.
  assert (Habs : _finalizers st1 !! t = None).
  { apply (finalize_with_absent (spawn__finish run_code fuel) t v st st1);
      [|exact H].
    intros. apply cancels_spawn__finish. }
  unfold finalize, finalize_with, bind, get. rewrite Habs. reflexivity.
Qed.

(** When [close(t)] has returned, the finalizer of [t] has been popped. *)
Lemma close_pops_finalizer fuel t (st st' : @state code) :
  close run_code fuel t st = Done tt st' -> _finalizers st' !! t = None.
Proof.
  intros H.
  destruct fuel as [|n]; [discriminate|]. simpl in H. unfold close_body in H.
  apply bind_Done in H. destruct H as [[] [st1 [_ H]]].
  apply bind_Done in H. destruct H as [[] [st2 [_ H]]].
  apply bind_Done in H. destruct H as [[] [st3 [_ H]]].
  apply bind_Done in H. destruct H as [[] [st4 [_ H]]].
  apply (finalize_with_absent (spawn__finish_with (close run_code n)) t
           (VExc GeneratorExit) st4 st').
  - intros. apply cancels_spawn__finish_with, cancels_close.
  - rewrite H. reflexivity.
Qed.

(** [close(t)] discards [t] from every set of waiters first; what follows
    only takes tasks out of the sets. *)
Lemma close_paused_sets fuel t (st st' : @state code) :
  final_state (close run_code fuel t st) = Some st' ->
  dom (_paused st') = dom (_paused st)
  ∧ ∀ i ws', _paused st' !! i = Some ws' ->
             t ∉ ws' ∧ ∃ ws, _paused st !! i = Some ws ∧ ws' ⊆ ws.
Proof.
  intros H.
  destruct fuel as [|n]; [discriminate|]. simpl in H.
  unfold close_body, bind at 1, modify in H.
  match type of H with final_state (?rest ?st0) = _ =>
    assert (Hrest : respects (rtc cancel_step) rest);
      [|pose proof (cancels_paused _ _ (respects_final _ rest st0 st' Hrest H))
         as [Hdom Hsub]]
  end.
  { apply respects_bind; [exact _| |intros _].
    - apply respects_modify. intros s. apply rtc_once, cs_discard.
    - apply respects_bind; [exact _| |intros _].
      + apply respects_modify. intros s. apply rtc_once, cs_emit. exact I.
      + apply respects_bind; [exact _| |intros _].
        * apply cancels_gen_close, cancels_close.
        * apply cancels_finalize_with. intros.
          apply cancels_spawn__finish_with, cancels_close. }
  simpl in Hdom, Hsub. rewrite dom_fmap_L in Hdom.
  split; [exact Hdom|].
  intros i ws' Hi. destruct (Hsub i ws' Hi) as [ws0 [H0 Hs0]].
  rewrite lookup_fmap in H0.
  destruct (_paused st !! i) as [ws|]; [|discriminate].
  simpl in H0. inversion H0; subst.
  split; [set_solver|]. exists ws. split; [reflexivity|set_solver].
Qed.

(** [close] installs no finalizer, and when [close(t)] has returned
    normally no finalizer is installed for [t]: it was called, or there
    was none. *)
Theorem close_leaves_no_finalizer fuel t (st st' : @state code) :
  close run_code fuel t st = Done tt st' ->
  _finalizers st' !! t = None
  ∧ ∀ t', _finalizers st !! t' = None -> _finalizers st' !! t' = None.
Proof.
  intros H. split.
  - exact (close_pops_finalizer fuel t st st' H).
  - apply cancels_finalizers.
    apply (respects_final _ (close run_code fuel t) st st');
      [apply cancels_close | rewrite H; reflexivity].
Qed.

(** However [close(t)] ends, afterwards [t] waits on no interface, every
    set of waiters has lost tasks at most, and the paused index has the
    interfaces it had: [close] leaves the emptied sets in the index, so a
    loop that was waiting for messages goes on waiting. *)
Theorem close_unpauses_but_keeps_interfaces fuel t (st st' : @state code) :
  final_state (close run_code fuel t st) = Some st' ->
  dom (_paused st') = dom (_paused st)
  ∧ (∀ i ws', _paused st' !! i = Some ws' ->
              t ∉ ws' ∧ ∃ ws, _paused st !! i = Some ws ∧ ws' ⊆ ws)
  ∧ (_paused st ≠ ∅ -> running st' = true).
Proof.
  intros H.
  destruct (close_paused_sets fuel t st st' H) as [Hdom Hsub].
  split; [exact Hdom|]. split; [exact Hsub|].
  intros Hne. unfold running. apply orb_true_intro. right.
  apply bool_decide_eq_true_2. intros Hempty. apply Hne.
  apply dom_empty_inv_L. rewrite <- Hdom, Hempty. apply dom_empty_L.
Qed.

End CancelFacts.

Lemma finalize_twice_is_noop_witness :
  let st : @state frame := set_finalizers {[ 1%nat := FinExt 0 ]}
                                          Scenario.one_task in
  let st1 := set_trace [EvFinalizer (FinExt 0) 1%nat VNone]
                       Scenario.one_task in
  finalize run_frame 1 1%nat (VInt 3) st1 = Done tt st1.
Proof.
  intros st st1.
  exact (finalize_twice_is_noop run_frame 1 1 1%nat VNone (VInt 3) st st1
           eq_refl).
Defined.

Lemma close_leaves_no_finalizer_witness :
  let st : @state frame := set_finalizers {[ 1%nat := FinExt 0 ]}
                                          Scenario.one_task in
  ∃ st', close run_frame 1 1%nat st = Done tt st'
         ∧ _finalizers st' !! 1%nat = None.
Proof.
  intros st. eexists. split; [vm_compute; reflexivity|].
  refine (proj1 (close_leaves_no_finalizer run_frame 1 1%nat st _ _)).
  vm_compute. reflexivity.
Defined.

Lemma close_unpauses_but_keeps_interfaces_witness :
  let st : @state frame := set_paused {[ 7 := {[ 1%nat ]} ]}
                                      Scenario.one_task in
  ∃ st', final_state (close run_frame 1 1%nat st) = Some st'
         ∧ running st' = true.
Proof.
  intros st. eexists. split; [vm_compute; reflexivity|].
  refine (proj2 (proj2 (close_unpauses_but_keeps_interfaces run_frame 1 1%nat
                          st _ _)) _).
  - vm_compute. reflexivity.
  - intros H. apply (f_equal (λ m : gmap Z (gset Task), m !! 7)) in H.
    vm_compute in H. discriminate H.
Defined.

(** ** An installed finalizer is called once *)

Section CalledOnce.

Context {code : Type} (run_code : code -> resume_input -> @step_result code).

Lemma installs_cancel t evs :
  Forall (λ ev, match ev with
                | EvClose _ | EvFinalizer _ _ _ => True
                | _ => False
                end) evs ->
  count_events (is_install_of t) evs = 0%nat.
Proof.
  induction 1 as [|ev evs Hev _ IH]; [reflexivity|].
  unfold count_events in *. simpl.
  destruct ev; try contradiction; simpl; exact IH.
Qed.

Lemma fin_le_spawn__finish fuel s task v :
  respects fin_le (spawn__finish run_code fuel s task v).
Proof.
  apply respects_spawn__finish_with; try exact _.
  - apply fin_le_frame.
  - apply fin_le_install.
  - intros t. apply respects_close; try exact _.
    + apply fin_le_frame.
    + intros. apply fin_le_neutral. exact I.
    + apply fin_le_install.
    + apply fin_le_fire.
Qed.

(** Once the finalizer of a task is out of the table, the body of the
    finalizer does not bring it back and calls no finalizer on the task. *)
Lemma finalizer_body_once fuel fn task v (st st' : @state code) :
  _finalizers st !! task = None ->
  final_state (finalizer_body run_code fuel fn task v st) = Some st' ->
  fired task (trace st') = fired task (trace st)
  ∧ _finalizers st' !! task = None.
Proof.
  intros Hnone Hfin.
  assert (Hc : respects (rtc cancel_step)
                 (finalizer_body run_code fuel fn task v)).
  { destruct fn; simpl; [apply cancels_spawn__finish|].
    apply respects_ret. exact _. }
  assert (Hl : respects fin_le (finalizer_body run_code fuel fn task v)).
  { destruct fn; simpl; [apply fin_le_spawn__finish|].
    apply respects_ret. exact _. }
  pose proof (respects_final _ _ _ _ Hc Hfin) as Hsteps.
  pose proof (respects_final _ _ _ _ Hl Hfin task) as Hle.
  pose proof (cancels_finalizers _ _ Hsteps task Hnone) as Hnone'.
  destruct (cancels_trace _ _ Hsteps) as [evs [Htr Hevs]].
  split; [|exact Hnone'].
  unfold pending in Hle. rewrite Hnone, Hnone' in Hle.
  rewrite Htr in Hle |- *. unfold fired, installs in *.
  rewrite !count_events_app in Hle. rewrite count_events_app.
  rewrite (installs_cancel task evs Hevs) in Hle. lia.
Qed.

End CalledOnce.




(** ** The first child of a spawn to finish *)

Section FirstChild.

Context {code : Type} (run_code : code -> resume_input -> @step_result code).

Lemma schedule_frame (st st' : @state code) task v deadline :
  schedule task v deadline None st = Done tt st' ->
  spawns st' = spawns st ∧ trace st' = trace st
  ∧ _finalizers st' = _finalizers st ∧ _paused st' = _paused st.
Proof.
  unfold schedule, bind, get, modify, ret, raise. simpl.
  destruct (utimeq.push _ _ _ _); intros H; inversion H; subst. simpl. auto.
Qed.

(** [close(t)] calls [t.close()], after whatever the trace held. *)
Lemma close_Done_trace fuel t (st st' : @state code) :
  close run_code fuel t st = Done tt st' ->
  ∃ evs, trace st' = trace st ++ EvClose t :: evs.
Proof.
  intros H. destruct fuel as [|n]; [discriminate|]. simpl in H.
  unfold close_body in H.
  apply bind_Done in H. destruct H as [[] [st1 [H1 H]]].
  apply bind_Done in H. destruct H as [[] [st2 [H2 H]]].
  apply bind_Done in H. destruct H as [[] [st3 [H3 H]]].
  unfold modify in H1, H2. unfold emit, modify in H3.
  inversion H1; subst st1. inversion H2; subst st2. inversion H3; subst st3.
  clear H1 H2 H3.
  match type of H with ?rest ?st0 = _ =>
    assert (Hrest : respects (rtc cancel_step) rest)
  end.
  { apply respects_bind; [exact _| |intros _].
    - apply cancels_gen_close, cancels_close.
    - apply cancels_finalize_with. intros.
      apply cancels_spawn__finish_with, cancels_close. }
  eapply respects_final in Hrest; [|rewrite H; reflexivity].
  destruct (cancels_trace _ _ Hrest) as [evs [Ht _]].
  exists evs. rewrite Ht. simpl. rewrite <- app_assoc. reflexivity.
Qed.

Lemma spawn_exit_with_eq closef s except_for (st : @state code) :
  spawn_exit_with closef s except_for st
  = for_each (λ task, if decide (Some task ≠ except_for)
                      then closef task else ret tt)
             (scheduled (spawn_of st s)) st.
Proof. reflexivity. Qed.

(** [spawn.exit] closes every scheduled child but the excepted one. *)
Lemma spawn_exit_closes fuel except_for l : ∀ st st' : @state code,
  for_each (λ task, if decide (Some task ≠ except_for)
                    then close run_code fuel task else ret tt) l st
  = Done tt st' ->
  rtc cancel_step st st'
  ∧ ∃ evs, trace st' = trace st ++ evs
           ∧ ∀ t, t ∈ l -> Some t ≠ except_for -> EvClose t ∈ evs.
Proof.
  induction l as [|x l IH]; intros st st' H; simpl in H.
  - inversion H; subst. split; [reflexivity|]. exists [].
    rewrite app_nil_r. split; [reflexivity|]. intros t Ht. inversion Ht.
  - apply bind_Done in H. destruct H as [[] [st1 [Hx Hl]]].
    destruct (IH st1 st' Hl) as [Hc2 [evs2 [Ht2 Hin2]]].
    destruct (decide (Some x ≠ except_for)) as [Hne|Heq].
    + assert (Hc1 : rtc cancel_step st st1).
      { apply (respects_final _ (close run_code fuel x) st st1);
          [apply cancels_close | rewrite Hx; reflexivity]. }
      destruct (close_Done_trace fuel x st st1 Hx) as [evs1 Ht1].
      split; [etransitivity; eassumption|].
      exists (EvClose x :: evs1 ++ evs2).
      split; [rewrite Ht2, Ht1, <- app_assoc; reflexivity|].
      intros t Ht Hnt. apply elem_of_cons in Ht. destruct Ht as [->|Ht].
      * left.
      * right. apply elem_of_app. right. apply Hin2; assumption.
    + inversion Hx; subst.
      split; [exact Hc2|]. exists evs2. split; [exact Ht2|].
      intros t Ht Hnt. apply elem_of_cons in Ht. destruct Ht as [->|Ht].
      * contradiction.
      * apply Hin2; assumption.
Qed.

(** When the first child of a spawn finishes, [_finish] records it as the
    only entry of [finished], closes the other scheduled children if
    [exit_others] is set (and none otherwise), and pushes the parent on
    the queue, to be resumed with the result at the current time; it
    changes nothing else of the spawn.  From then on [_finish] does
    nothing for this spawn: a child that finishes later does not resume
    the parent again. *)
Theorem spawn_first_child_wins fuel s task result (st st' : @state code)
    index child :
  finished (spawn_of st s) = [] ->
  index_of task (scheduled (spawn_of st s)) = Some index ->
  children (spawn_of st s) !! index = Some child ->
  spawn__finish run_code fuel s task result st = Done tt st' ->
  finished (spawn_of st' s) = [child]
  ∧ children (spawn_of st' s) = children (spawn_of st s)
  ∧ scheduled (spawn_of st' s) = scheduled (spawn_of st s)
  ∧ (∃ parent l,
        callback (spawn_of st s) = Some parent
        ∧ utimeq.heap (_queue st')
          = l ++ [utimeq.Entry (ticks_us st) parent result])
  ∧ (∃ evs, trace st' = trace st ++ evs
            ∧ if exit_others (spawn_of st s)
              then ∀ t, t ∈ scheduled (spawn_of st s) -> t ≠ task ->
                        EvClose t ∈ evs
              else evs = [])
  ∧ ∀ fuel' task' result',
      spawn__finish run_code fuel' s task' result' st' = Done tt st'.
Proof.
  intros Efin Eidx Echild H.
  unfold spawn__finish, spawn__finish_with, get_spawn, bind at 1 2, get, ret in H.
  fold (spawn_of st s) in H. rewrite Efin, Eidx, Echild in H.
  destruct (cancels_append_finished st s child Efin) as [st1 [Hupd Hstep]].
  unfold bind at 1 in H. rewrite Hupd in H.
  apply bind_Done in H. destruct H as [[] [st2 [Hexit H]]].
  apply bind_Done in H. destruct H as [sp2 [st2' [Hget H]]].
  unfold get_spawn, bind, get, ret in Hget. inversion Hget; subst st2' sp2.
  fold (spawn_of st2 s) in H. clear Hget.
  (* the spawn after [finished.append(child)] *)
  assert (Hsp1 : spawn_of st1 s
                 = Spawn (children (spawn_of st s)) (exit_others (spawn_of st s))
                         [child] (scheduled (spawn_of st s))
                         (callback (spawn_of st s))).
  { unfold update_spawn, get_spawn, bind, get, ret, modify in Hupd.
    inversion Hupd; subst st1. rewrite spawn_of_insert.
    rewrite decide_True by reflexivity. fold (spawn_of st s).
    rewrite Efin. reflexivity. }
  assert (Hticks1 : ticks_us st1 = ticks_us st
                    ∧ trace st1 = trace st).
  { unfold update_spawn, get_spawn, bind, get, ret, modify in Hupd.
    inversion Hupd; subst st1. simpl. auto. }
  (* [self.exit(task)] *)
  assert (Hex : rtc cancel_step st1 st2
                ∧ ∃ evs, trace st2 = trace st1 ++ evs
                         ∧ if exit_others (spawn_of st s)
                           then ∀ t, t ∈ scheduled (spawn_of st s) ->
                                     t ≠ task -> EvClose t ∈ evs
                           else evs = []).
  { destruct (exit_others (spawn_of st s)) eqn:Eeo.
    - rewrite spawn_exit_with_eq, Hsp1 in Hexit. simpl in Hexit.
      destruct (spawn_exit_closes fuel (Some task) _ st1 st2 Hexit)
        as [Hc [evs [Ht Hin]]].
      split; [exact Hc|]. exists evs. split; [exact Ht|].
      intros t Ht' Hne. apply Hin; [exact Ht'|congruence].
    - inversion Hexit; subst. split; [reflexivity|]. exists [].
      rewrite app_nil_r. auto. }
  destruct Hex as [Hc12 [evs [Htr Hclosed]]].
  destruct (cancels_spawn _ _ Hc12 s) as [C1 [C2 [C3 [C4 C5]]]].
  rewrite Hsp1 in C1, C3, C4, C5. simpl in C1, C3, C4, C5.
  specialize (C5 ltac:(discriminate)).
  destruct (cancels_ticks _ _ Hc12) as [Hticks2 _].
  rewrite C4 in H.
  destruct (callback (spawn_of st s)) as [parent|] eqn:Ecb; [|discriminate].
  destruct (schedule_done _ _ _ _ _ _ H) as [Hheap _].
  destruct (schedule_frame _ _ _ _ _ H) as [Hspawns [Htrace _]].
  assert (Hsp' : spawn_of st' s = spawn_of st2 s).
  { unfold spawn_of. rewrite Hspawns. reflexivity. }
  assert (Hfin' : finished (spawn_of st' s) = [child]) by (rewrite Hsp'; exact C5).
  split; [exact Hfin'|].
  split; [rewrite Hsp'; exact C1|].
  split; [rewrite Hsp'; exact C3|].
  split.
  { exists parent, (utimeq.heap (_queue st2)). split; [reflexivity|].
    rewrite Hheap. simpl. rewrite Hticks2. destruct Hticks1 as [-> _].
    reflexivity. }
  split.
  { exists evs. split; [|exact Hclosed].
    rewrite Htrace, Htr. destruct Hticks1 as [_ ->]. reflexivity. }
  intros fuel' task' result'.
  unfold spawn__finish, spawn__finish_with, get_spawn, bind, get, ret.
  fold (spawn_of st' s). rewrite Hfin'. reflexivity.
Qed.

End FirstChild.

Lemma spawn_first_child_wins_witness :
  let st : @state frame :=
    set_spawns {[ 0%nat := Spawn [AGen 2%nat; AGen 3%nat] true [] [2%nat; 3%nat]
                                 (Some 1%nat) ]}
               Scenario.one_task in
  ∃ st', spawn__finish run_frame 1 0%nat 2%nat (VInt 4) st = Done tt st'
         ∧ finished (spawn_of st' 0%nat) = [AGen 2%nat].
Proof.
  intros st. eexists. split; [vm_compute; reflexivity|].
  refine (proj1 (spawn_first_child_wins run_frame 1 0%nat 2%nat (VInt 4) st _
                   0%nat (AGen 2%nat) eq_refl eq_refl eq_refl _)).
  vm_compute. reflexivity.
Defined.

(** ** Starting the children of a spawn *)

Section SpawnHandle.

Context {code : Type}.

Lemma spawn_of_spawns (st' st : @state code) s s' sp :
  spawns st' = <[s := sp]> (spawns st) ->
  spawn_of st' s' = if decide (s = s') then sp else spawn_of st s'.
Proof.
  intros H. unfold spawn_of. rewrite H, lookup_insert.
  case_decide; reflexivity.
Qed.

Lemma spawn_children_loop s : ∀ ts (st : @state code),
  (length (utimeq.heap (_queue st)) + length ts
   ≤ utimeq.capacity (_queue st))%nat ->
  ∃ st',
    for_each (λ child,
        bind (child_task_of child) (λ child_task,
        bind (schedule child_task VNone None (Some (FinSpawn s))) (λ _,
        update_spawn s (λ sp, Spawn (children sp) (exit_others sp)
                                (finished sp) (scheduled sp ++ [child_task])
                                (callback sp)))))
      (map AGen ts) st
    = Done tt st'
    ∧ _queue st'
      = utimeq.Queue (utimeq.capacity (_queue st))
          (utimeq.heap (_queue st)
           ++ map (λ t, utimeq.Entry (ticks_us st) t VNone) ts)
    ∧ spawn_of st' s
      = Spawn (children (spawn_of st s)) (exit_others (spawn_of st s))
              (finished (spawn_of st s)) (scheduled (spawn_of st s) ++ ts)
              (callback (spawn_of st s))
    ∧ (∀ t, _finalizers st' !! t
            = if decide (t ∈ ts) then Some (FinSpawn s)
              else _finalizers st !! t)
    ∧ trace st' = trace st ++ map (λ t, EvInstall t (FinSpawn s)) ts
    ∧ _paused st' = _paused st
    ∧ gens st' = gens st
    ∧ ticks_us st' = ticks_us st.
Proof.
  induction ts as [|t ts IH]; intros st Hroom.
  - exists st. simpl. rewrite !app_nil_r.
    split; [reflexivity|]. split; [destruct (_queue st); reflexivity|].
    split; [destruct (spawn_of st s); reflexivity|].
    split; [intros t; reflexivity|].
    auto.
  - simpl in Hroom.
    set (st1 := set_spawns
                  (<[s := Spawn (children (spawn_of st s))
                            (exit_others (spawn_of st s))
                            (finished (spawn_of st s))
                            (scheduled (spawn_of st s) ++ [t])
                            (callback (spawn_of st s))]> (spawns st))
                  (set_queue
                     (utimeq.Queue (utimeq.capacity (_queue st))
                        (utimeq.heap (_queue st)
                         ++ [utimeq.Entry (ticks_us st) t VNone]))
                     (set_trace (trace st ++ [EvInstall t (FinSpawn s)])
                        (set_finalizers (<[t := FinSpawn s]> (_finalizers st))
                           st)))).
    destruct (IH st1) as [st' [Hloop [Hq [Hsp [Hfin [Htr [Hp [Hg Htk]]]]]]]].
    { simpl. rewrite length_app. simpl. lia. }
    exists st'. split.
    { simpl. unfold bind at 1.
      unfold bind at 1, child_task_of, ret, schedule, update_spawn, get_spawn,
        bind, get, modify, emit, utimeq.push.
      simpl. rewrite decide_True by lia. simpl.
      exact Hloop. }
    split.
    { rewrite Hq. simpl. rewrite <- app_assoc. reflexivity. }
    split.
    { rewrite Hsp.
      rewrite (spawn_of_spawns st1 st s s _ eq_refl).
      rewrite decide_True by reflexivity. simpl.
      rewrite <- app_assoc. reflexivity. }
    split.
    { intros t0. rewrite Hfin. simpl.
      destruct (decide (t0 ∈ ts)) as [Hin|Hnin].
      - rewrite decide_True by set_solver. reflexivity.
      - rewrite lookup_insert. destruct (decide (t = t0)) as [->|Hne].
        + rewrite decide_True by set_solver. reflexivity.
        + rewrite decide_False by set_solver. reflexivity. }
    split.
    { rewrite Htr. simpl. rewrite <- app_assoc. reflexivity. }
    auto.
Qed.

(** Handling a spawn whose children are generators, with room in the
    queue for all of them: each child is pushed on the queue, for the
    current time and with the value [None], in the order of [children];
    [spawn._finish] becomes the finalizer of each child and of no other
    task; the spawn holds the children as [scheduled], no [finished]
    child, and the parent as [callback].  The parent itself is neither
    scheduled nor paused. *)
Theorem spawn_handle_starts_children (st : @state code) s parent ts :
  children (spawn_of st s) = map AGen ts ->
  (length (utimeq.heap (_queue st)) + length ts
   ≤ utimeq.capacity (_queue st))%nat ->
  ∃ st',
    handle (SysSpawn s) parent st = Done tt st'
    ∧ _queue st'
      = utimeq.Queue (utimeq.capacity (_queue st))
          (utimeq.heap (_queue st)
           ++ map (λ t, utimeq.Entry (ticks_us st) t VNone) ts)
    ∧ spawn_of st' s
      = Spawn (map AGen ts) (exit_others (spawn_of st s)) [] ts (Some parent)
    ∧ (∀ t, _finalizers st' !! t
            = if decide (t ∈ ts) then Some (FinSpawn s)
              else _finalizers st !! t)
    ∧ trace st' = trace st ++ map (λ t, EvInstall t (FinSpawn s)) ts
    ∧ _paused st' = _paused st.
Proof.
  intros Hch Hroom.
  set (st0 := set_spawns
                (<[s := Spawn (map AGen ts) (exit_others (spawn_of st s)) [] []
                          (Some parent)]> (spawns st)) st).
  assert (Hsp0 : spawn_of st0 s
                 = Spawn (map AGen ts) (exit_others (spawn_of st s)) [] []
                         (Some parent)).
  { unfold st0. rewrite spawn_of_insert. rewrite decide_True; reflexivity. }
  destruct (spawn_children_loop s ts st0 Hroom)
    as [st' [Hloop [Hq [Hsp [Hfin [Htr [Hp _]]]]]]].
  exists st'. split.
  { unfold handle, spawn_handle.
    unfold bind at 1 2 3 4, update_spawn, get_spawn, bind, get, ret, modify.
    simpl. rewrite !lookup_insert_eq. simpl. rewrite !insert_insert_eq.
    fold (spawn_of st s). rewrite Hch. exact Hloop. }
  split; [exact Hq|].
  split; [rewrite Hsp, Hsp0; reflexivity|].
  split; [exact Hfin|]. split; [exact Htr|exact Hp].
Qed.

End SpawnHandle.

Lemma spawn_handle_starts_children_witness :
  let st : @state frame :=
    set_spawns {[ 0%nat := Spawn [AGen 2%nat; AGen 3%nat] true [] [] None ]}
               Scenario.one_task in
  ∃ st',
    handle (SysSpawn 0) 1%nat st = Done tt st'
    ∧ _queue st'
      = utimeq.Queue 64 [utimeq.Entry 0 2%nat VNone; utimeq.Entry 0 3%nat VNone]
    ∧ spawn_of st' 0%nat
      = Spawn [AGen 2%nat; AGen 3%nat] true [] [2%nat; 3%nat] (Some 1%nat)
    ∧ (∀ t, _finalizers st' !! t
            = if decide (t ∈ [2%nat; 3%nat]) then Some (FinSpawn 0)
              else _finalizers st !! t)
    ∧ trace st' = trace st ++ [EvInstall 2%nat (FinSpawn 0);
                               EvInstall 3%nat (FinSpawn 0)]
    ∧ _paused st' = _paused st.
Proof.
  intros st.
  exact (spawn_handle_starts_children st 0%nat 1%nat [2%nat; 3%nat] eq_refl
           ltac:(vm_compute; lia)).
Defined.

(** ** Signals *)

(** A value sent to a signal and a task awaiting the signal meet in
    either order: from a signal that holds neither, [send] then the
    handling of the await, and the handling of the await then [send], end
    in the same state, in which the waiter is pushed on the queue, for the
    current time and with the value sent, and both slots of the signal are
    empty again.  The first of the two calls alone schedules nothing. *)
Theorem signal_rendezvous_either_order {code} (st : @state code) s t v :
  signal_of st s = Signal None None ->
  (length (utimeq.heap (_queue st)) < utimeq.capacity (_queue st))%nat ->
  ∃ st1 st2 st',
    signal_send s v st = Done tt st1 ∧ _queue st1 = _queue st
    ∧ signal_handle s t st = Done tt st2 ∧ _queue st2 = _queue st
    ∧ signal_handle s t st1 = Done tt st'
    ∧ signal_send s v st2 = Done tt st'
    ∧ _queue st'
      = utimeq.Queue (utimeq.capacity (_queue st))
          (utimeq.heap (_queue st) ++ [utimeq.Entry (ticks_us st) t v])
    ∧ signal_of st' s = Signal None None
    ∧ _finalizers st' = _finalizers st
    ∧ _paused st' = _paused st
    ∧ trace st' = trace st.
Proof.
  intros Hsig Hroom. unfold signal_of in Hsig.
  unfold signal_send, signal_handle, signal__deliver, update_signal, get_signal,
    schedule, bind, get, modify, ret, raise, utimeq.push.
  simpl. rewrite Hsig. simpl. rewrite !lookup_insert_eq. simpl.
  do 3 eexists.
  split; [reflexivity|]. split; [reflexivity|].
  split; [reflexivity|]. split; [reflexivity|].
  simpl. rewrite !lookup_insert_eq. simpl.
  rewrite decide_True by exact Hroom. simpl.
  rewrite !lookup_insert_eq. simpl. rewrite !insert_insert_eq.
  split; [reflexivity|]. split; [reflexivity|].
  split; [reflexivity|].
  split; [unfold signal_of; simpl; rewrite lookup_insert_eq; reflexivity|].
  auto.
Qed.

Lemma signal_rendezvous_either_order_witness :
  ∃ st1 st2 st' : @state frame,
    signal_send 0%nat (VInt 42) Scenario.one_task = Done tt st1
    ∧ _queue st1 = _queue Scenario.one_task
    ∧ signal_handle 0%nat 1%nat Scenario.one_task = Done tt st2
    ∧ _queue st2 = _queue Scenario.one_task
    ∧ signal_handle 0%nat 1%nat st1 = Done tt st'
    ∧ signal_send 0%nat (VInt 42) st2 = Done tt st'
    ∧ _queue st' = utimeq.Queue 64 [utimeq.Entry 0 1%nat (VInt 42)]
    ∧ signal_of st' 0%nat = Signal None None
    ∧ _finalizers st' = _finalizers Scenario.one_task
    ∧ _paused st' = _paused Scenario.one_task
    ∧ trace st' = trace Scenario.one_task.
Proof.
  exact (signal_rendezvous_either_order Scenario.one_task 0%nat 1%nat (VInt 42)
           eq_refl ltac:(vm_compute; lia)).
Defined.

(** A signal holds one value: of two values sent while no task awaits,
    the awaiting task receives the later one only; and after [reset] it
    receives none, the task is only recorded as the waiter. *)
Theorem signal_keeps_last_value {code} (st : @state code) s t v1 v2 :
  sig_task (signal_of st s) = None ->
  (length (utimeq.heap (_queue st)) < utimeq.capacity (_queue st))%nat ->
  (∃ st',
      bind (signal_send s v1) (λ _,
      bind (signal_send s v2) (λ _, signal_handle s t)) st = Done tt st'
      ∧ utimeq.heap (_queue st')
        = utimeq.heap (_queue st) ++ [utimeq.Entry (ticks_us st) t v2]
      ∧ signal_of st' s = Signal None None)
  ∧ (∃ st',
      bind (signal_send s v1) (λ _,
      bind (signal_reset s) (λ _, signal_handle s t)) st = Done tt st'
      ∧ _queue st' = _queue st
      ∧ signal_of st' s = Signal None (Some t)).
Proof.
  intros Hsig Hroom. unfold signal_of in Hsig.
  unfold signal_send, signal_handle, signal_reset, signal__deliver,
    update_signal, get_signal, schedule, bind, get, modify, ret, raise,
    utimeq.push.
  repeat (simpl; rewrite ?lookup_insert_eq, ?Hsig).
  rewrite decide_True by exact Hroom.
  repeat (simpl; rewrite ?lookup_insert_eq, ?Hsig).
  split; eexists; (split; [reflexivity|]); (split; [reflexivity|]);
    unfold signal_of; simpl; rewrite lookup_insert_eq; reflexivity.
Qed.

Lemma signal_keeps_last_value_witness :
  ∃ st' : @state frame,
    bind (signal_send 0%nat (VInt 1)) (λ _,
    bind (signal_send 0%nat (VInt 2)) (λ _, signal_handle 0%nat 1%nat))
      Scenario.one_task = Done tt st'
    ∧ utimeq.heap (_queue st')
      = utimeq.heap (_queue Scenario.one_task)
        ++ [utimeq.Entry (ticks_us Scenario.one_task) 1%nat (VInt 2)]
    ∧ signal_of st' 0%nat = Signal None None.
Proof.
  exact (proj1 (signal_keeps_last_value Scenario.one_task 0%nat 1%nat
                  (VInt 1) (VInt 2) eq_refl ltac:(vm_compute; lia))).
Defined.

(** When the value sent meets a waiter but the queue is full, [send]
    raises [QueueFull] and the signal keeps both the value and the
    waiter: nothing is lost, and nothing is scheduled. *)
Theorem signal_send_full_queue_keeps_slots {code} (st : @state code) s t v :
  sig_task (signal_of st s) = Some t ->
  ¬ (length (utimeq.heap (_queue st)) < utimeq.capacity (_queue st))%nat ->
  ∃ st', signal_send s v st = Fail QueueFull st'
         ∧ signal_of st' s = Signal (Some v) (Some t)
         ∧ _queue st' = _queue st
         ∧ trace st' = trace st.
Proof.
  intros Hsig Hfull. unfold signal_of in Hsig.
  unfold signal_send, signal__deliver, update_signal, get_signal, schedule,
    bind, get, modify, ret, raise, utimeq.push.
  simpl. rewrite !lookup_insert_eq. simpl. rewrite Hsig. simpl.
  rewrite decide_False by exact Hfull.
  eexists. split; [reflexivity|]. simpl.
  split; [unfold signal_of; simpl; rewrite lookup_insert_eq; reflexivity|].
  auto.
Qed.

Lemma signal_send_full_queue_keeps_slots_witness :
  let st : @state frame :=
    set_queue (utimeq.Queue 0 [])
      (set_signals {[ 0%nat := Signal None (Some 1%nat) ]} Scenario.one_task) in
  ∃ st', signal_send 0%nat (VInt 5) st = Fail QueueFull st'
         ∧ signal_of st' 0%nat = Signal (Some (VInt 5)) (Some 1%nat)
         ∧ _queue st' = _queue st
         ∧ trace st' = trace st.
Proof.
  intros st.
  exact (signal_send_full_queue_keeps_slots st 0%nat 1%nat (VInt 5) eq_refl
           ltac:(vm_compute; lia)).
Defined.


Lemma signal_send_no_waiter {code} (st : @state code) s v :
  sig_task (signal_of st s) = None ->
  signal_send s v st
  = Done tt (set_signals (<[s := Signal (Some v) None]> (signals st)) st).
Proof.
  intros Hsig. unfold signal_of in Hsig.
  unfold signal_send, signal__deliver, update_signal, get_signal, bind, get,
    modify, ret.
  simpl. rewrite lookup_insert_eq. simpl. rewrite Hsig. reflexivity.
Qed.

(** When a task that awaits a signal is closed, the unwinding of
    [signal.__iter__] takes the task out of the signal, however [close]
    ends; the pending value stays.  A value sent afterwards is stored and
    schedules nothing: [send] does not fire on the closed task. *)
Theorem close_clears_signal_waiter {code}
    (run_code : code -> resume_input -> @step_result code) fuel s t c
    (st st' : @state code) :
  gens st !! t = Some (GSusp (Some (SysSignal s)) c) ->
  final_state (close run_code (S fuel) t st) = Some st' ->
  sig_task (signal_of st' s) = None
  ∧ sig_value (signal_of st' s) = sig_value (signal_of st s)
  ∧ ∀ v, ∃ st'', signal_send s v st' = Done tt st''
                 ∧ _queue st'' = _queue st'
                 ∧ signal_of st'' s = Signal (Some v) None.
Proof.
  intros Hg H.
  assert (Hsig : sig_task (signal_of st' s) = None
                 ∧ sig_value (signal_of st' s) = sig_value (signal_of st s)).
  { change (close run_code (S fuel) t st)
      with (close_body run_code (close run_code fuel) t st) in H.
    unfold close_body in H.
    set (fin := finalize_with (spawn__finish_with (close run_code fuel)) t
                  (VExc GeneratorExit)) in H.
    assert (Hfin : respects (rtc cancel_step) fin).
    { apply cancels_finalize_with. intros.
      apply cancels_spawn__finish_with, cancels_close. }
    unfold gen_close, gen_throw, iter_except, update_signal, get_signal,
      get_gen, set_gen, catch, bind, get, modify, emit, ret, raise in H.
    repeat (simpl in H; rewrite ?Hg in H).
    fold (signal_of st s) in H.
    assert (Hend : ∀ st6 : @state code,
               signal_of st6 s = Signal (sig_value (signal_of st s)) None ->
               final_state (fin st6) = Some st' ->
               sig_task (signal_of st' s) = None
               ∧ sig_value (signal_of st' s) = sig_value (signal_of st s)).
    { intros st6 H6 Hf.
      destruct (cancels_signal _ _ (respects_final _ fin st6 st' Hfin Hf) s)
        as [Hv Ht].
      rewrite H6 in Hv, Ht. simpl in Hv, Ht. auto. }
    assert (Hsig6 : ∀ g, signal_of
               (set_gens (<[t := g]> (<[t := GRunning]> (gens st)))
                  (set_signals
                     (<[s := Signal (sig_value (signal_of st s)) None]>
                        (signals st))
                     (set_gens (<[t := GRunning]> (gens st))
                        (set_trace (trace st ++ [EvClose t])
                           (set_queue (utimeq.discard (_queue st) t)
                              (set_paused ((λ tasks, tasks ∖ {[t]})
                                             <$> _paused st) st)))))) s
             = Signal (sig_value (signal_of st s)) None).
    { intros g. unfold signal_of at 1. simpl. rewrite lookup_insert_eq.
      reflexivity. }
    destruct (run_code c (Throw GeneratorExit)) as [y k|sc k|v|e];
      simpl in H.
    - inversion H; subst st'. rewrite Hsig6. auto.
    - inversion H; subst st'. rewrite Hsig6. auto.
    - apply (Hend _ (Hsig6 GDone) H).
    - destruct e; simpl in H;
        first [apply (Hend _ (Hsig6 GDone) H)
              | inversion H; subst st'; rewrite Hsig6; auto]. }
  destruct Hsig as [Htask Hval]. split; [exact Htask|]. split; [exact Hval|].
  intros v. rewrite (signal_send_no_waiter st' s v Htask).
  eexists. split; [reflexivity|]. split; [reflexivity|].
  unfold signal_of. simpl. rewrite lookup_insert_eq. reflexivity.
Qed.

Lemma close_clears_signal_waiter_witness :
  let st : @state frame :=
    set_signals {[ 0%nat := Signal None (Some 1%nat) ]}
      (set_gens {[ 1%nat := GSusp (Some (SysSignal 0))
                                  (Resume (Return VNone) None) ]}
                Scenario.one_task) in
  ∃ st', final_state (close run_frame 1 1%nat st) = Some st'
         ∧ sig_task (signal_of st' 0%nat) = None.
Proof.
  intros st. eexists. split; [vm_compute; reflexivity|].
  refine (proj1 (close_clears_signal_waiter run_frame 0 0%nat 1%nat
                   (Resume (Return VNone) None) st _ eq_refl _)).
  vm_compute. reflexivity.
Defined.

(** ** Closing a task twice *)

Lemma discard_absent q t :
  Forall (λ e, utimeq.task e ≠ t) (utimeq.heap q) -> utimeq.discard q t = q.
Proof.
  destruct q as [cap l]. unfold utimeq.discard. simpl. intros H. f_equal.
  induction H as [|e l He _ IH]; [reflexivity|].
  rewrite filter_cons_True by exact He. f_equal. exact IH.
Qed.

Lemma discard_discards q t :
  Forall (λ e, utimeq.task e ≠ t) (utimeq.heap (utimeq.discard q t)).
Proof.
  unfold utimeq.discard. simpl. apply Forall_forall. intros e He.
  apply list_elem_of_filter in He. tauto.
Qed.

Lemma unpause_absent (m : gmap Z (gset Task)) t :
  (∀ i ws, m !! i = Some ws -> t ∉ ws) ->
  (λ tasks, tasks ∖ {[t]}) <$> m = m.
Proof.
  intros H. apply map_eq. intros i. rewrite lookup_fmap.
  destruct (m !! i) as [ws|] eqn:E; [|reflexivity]. simpl. f_equal.
  specialize (H i ws E). set_solver.
Qed.

(** Closing a task that is exhausted, has no entry in the queue, waits on
    no interface and has no finalizer does nothing but call
    [task.close()]. *)
Lemma close_exhausted {code}
    (run_code : code -> resume_input -> @step_result code) fuel t
    (st : @state code) :
  default GDone (gens st !! t) = GDone ->
  Forall (λ e, utimeq.task e ≠ t) (utimeq.heap (_queue st)) ->
  (∀ i ws, _paused st !! i = Some ws -> t ∉ ws) ->
  _finalizers st !! t = None ->
  close run_code (S fuel) t st
  = Done tt (set_trace (trace st ++ [EvClose t]) st).
Proof.
  intros Hg Hq Hp Hf. simpl.
  unfold close_body, gen_close, get_gen, finalize_with, bind, get, modify,
    emit, ret.
  simpl. rewrite Hg. simpl. rewrite Hf.
  rewrite (discard_absent _ _ Hq), (unpause_absent _ _ Hp).
  destruct st. reflexivity.
Qed.

(** Where [close(t)] leaves the queue and the generator, for a task that
    neither awaits a spawn nor is the child of one. *)
Lemma close_flat {code}
    (run_code : code -> resume_input -> @step_result code) fuel t
    (st st1 : @state code) :
  (∀ c s, gens st !! t ≠ Some (GSusp (Some (SysSpawn s)) c)) ->
  (∀ s, _finalizers st !! t ≠ Some (FinSpawn s)) ->
  close run_code (S fuel) t st = Done tt st1 ->
  _queue st1 = utimeq.discard (_queue st) t
  ∧ default GDone (gens st1 !! t) = GDone.
Proof.
  intros Hvia Hfin H. simpl in H.
  unfold close_body, gen_close, gen_throw, iter_except, update_signal,
    get_signal, finalize_with, call_finalizer, settle, set_gen, get_gen,
    catch, bind, get, modify, emit, ret, raise in H.
  simpl in H.
  destruct (gens st !! t) as [[c|via c| |]|] eqn:Hg; simpl in H.
  - destruct (_finalizers st !! t) as [[sf|f]|] eqn:Hf;
      [destruct (Hfin sf eq_refl)| |];
      inversion H; subst st1; simpl; rewrite lookup_insert_eq; auto.
  - rewrite Hg in H. simpl in H.
    assert (Hcases : via = None ∨ via = Some SysBase
                     ∨ (∃ d, via = Some (SysSleep d))
                     ∨ (∃ i, via = Some (SysWait i))
                     ∨ (∃ s, via = Some (SysSignal s))).
    { destruct via as [[| | | |s]|]; eauto 10. destruct (Hvia c s eq_refl). }
    destruct Hcases as [->|[->|[[d ->]|[[i ->]|[s ->]]]]]; simpl in H;
      (destruct (run_code c (Throw GeneratorExit)) as [y k|sc k|v|e];
       simpl in H; try discriminate H;
       [|destruct e; simpl in H; try discriminate H];
       (destruct (_finalizers st !! t) as [[sf|f]|] eqn:Hf;
        [destruct (Hfin sf eq_refl)| |];
        inversion H; subst st1; simpl; rewrite lookup_insert_eq; auto)).
  - discriminate H.
  - destruct (_finalizers st !! t) as [[sf|f]|] eqn:Hf;
      [destruct (Hfin sf eq_refl)| |];
      inversion H; subst st1; simpl; rewrite Hg; auto.
  - destruct (_finalizers st !! t) as [[sf|f]|] eqn:Hf;
      [destruct (Hfin sf eq_refl)| |];
      inversion H; subst st1; simpl; rewrite Hg; auto.
Qed.

(** [close(t)] followed by [close(t)]: for a task that neither awaits a
    spawn nor is the child of one, once [close(t)] has returned a second
    [close(t)] calls [t.close()] on the exhausted generator and changes
    nothing. *)
Theorem close_twice_is_noop {code}
    (run_code : code -> resume_input -> @step_result code) fuel fuel' t
    (st st1 : @state code) :
  (∀ c s, gens st !! t ≠ Some (GSusp (Some (SysSpawn s)) c)) ->
  (∀ s, _finalizers st !! t ≠ Some (FinSpawn s)) ->
  close run_code (S fuel) t st = Done tt st1 ->
  close run_code (S fuel') t st1
  = Done tt (set_trace (trace st1 ++ [EvClose t]) st1).
Proof.
  intros Hvia Hfin H.
  destruct (close_flat run_code fuel t st st1 Hvia Hfin H) as [Hq Hg].
  apply close_exhausted.
  - exact Hg.
  - rewrite Hq. apply discard_discards.
  - intros i ws Hi.
    assert (Hfs : final_state (close run_code (S fuel) t st) = Some st1)
      by (rewrite H; reflexivity).
    destruct (close_paused_sets run_code (S fuel) t st st1 Hfs) as [_ Hsub].
    exact (proj1 (Hsub i ws Hi)).
  - exact (close_pops_finalizer run_code (S fuel) t st st1 H).
Qed.

Lemma close_twice_is_noop_witness :
  let st : @state frame :=
    set_queue (utimeq.Queue 64 [utimeq.Entry 0 1%nat VNone])
      (set_finalizers {[ 1%nat := FinExt 0 ]} Scenario.one_task) in
  ∃ st1, close run_frame 1 1%nat st = Done tt st1
         ∧ close run_frame 1 1%nat st1
           = Done tt (set_trace (trace st1 ++ [EvClose 1%nat]) st1).
Proof.
  intros st. eexists. split; [vm_compute; reflexivity|].
  refine (close_twice_is_noop run_frame 0 0 1%nat st _ _ _ _).
  - intros c s. vm_compute. discriminate.
  - intros s. vm_compute. discriminate.
  - vm_compute. reflexivity.
Defined.

(** ** What handling a request changes *)

Section HandleSteps.

Context {code : Type}.

Abbreviation handles := (rtc (@handle_step code)).

Lemma handles_schedule task v deadline finalizer :
  respects handles (@schedule code task v deadline finalizer).
Proof.
  intros st. unfold schedule, bind, get, modify, emit, ret, raise.
  destruct finalizer as [fn|]; simpl.
  - destruct (utimeq.push _ _ _ _) as [q|] eqn:E; simpl.
    + eapply rtc_l; [apply hs_install|].
      eapply rtc_l; [apply hs_emit|].
      apply rtc_once. eapply hs_push. exact E.
    + eapply rtc_l; [apply (hs_install st task fn)|].
      apply rtc_once.
      apply (hs_emit (set_finalizers (<[task:=fn]> (_finalizers st)) st)).
  - destruct (utimeq.push _ _ _ _) as [q|] eqn:E; simpl.
    + apply rtc_once. eapply hs_push. exact E.
    + reflexivity.
Qed.

Lemma handles_once_modify (f : @state code -> @state code) :
  (∀ st, handle_step st (f st)) -> respects handles (modify f).
Proof. intros H. apply respects_modify. intros st. apply rtc_once, H. Qed.

Lemma handles_child_task_of child : respects handles (@child_task_of code child).
Proof.
  destruct child as [t|obj c]; simpl; [apply respects_ret; exact _|].
  intros st. unfold bind, get, modify, set_gen, ret. simpl.
  apply rtc_once. apply (hs_iter st (next_task st) c).
Qed.

Lemma handles_handle sc task : respects handles (@handle code sc task).
Proof.
  pose proof handles_schedule. pose proof handles_child_task_of.
  assert (Hmod : ∀ f : @state code -> @state code,
             (∀ st, handle_step st (f st)) -> respects handles (modify f))
    by exact handles_once_modify.
  unfold handle, sleep_handle, wait_handle, pause, signal_handle,
    signal__deliver, spawn_handle, update_signal, update_spawn, get_signal,
    get_spawn.
  respects_auto; apply Hmod; intros ?; econstructor.
Qed.

(** Handling a request changes neither the clock nor the hook, and adds
    to the trace the installations of finalizers only. *)
Lemma handles_facts (st st' : @state code) :
  rtc handle_step st st' ->
  ticks_us st' = ticks_us st
  ∧ after_step_hook st' = after_step_hook st
  ∧ ∃ evs, trace st' = trace st ++ evs
           ∧ Forall (λ ev, ∃ t fn, ev = EvInstall t fn) evs.
Proof.
  induction 1 as [st|st1 st2 st3 Hstep _ IH].
  - split; [reflexivity|]. split; [reflexivity|]. exists [].
    rewrite app_nil_r. auto.
  - destruct IH as [H1 [H2 [evs [H3 H4]]]].
    destruct Hstep; simpl in *;
      try (split; [exact H1|]; split; [exact H2|]; exists evs; auto; fail).
    split; [exact H1|]. split; [exact H2|].
    exists (EvInstall t fn :: evs).
    split; [rewrite H3, <- app_assoc; reflexivity|].
    constructor; [eauto|exact H4].
Qed.

End HandleSteps.

(** After a step in which the task has yielded and the request was
    handled without a failure, the hook is called when it is installed,
    once and as the last action of the step; handling the request does
    not call it. *)
Theorem hook_runs_last_after_yield {code}
    (run_code : code -> resume_input -> @step_result code) fuel task y
    (st st' : @state code) :
  _step_result run_code fuel task (Yielded y) st = Done tt st' ->
  ∃ evs, trace st'
         = trace st ++ evs ++ (if after_step_hook st then [EvHook] else [])
         ∧ EvHook ∉ evs
         ∧ after_step_hook st' = after_step_hook st.
Proof.
  intros H. unfold _step_result in H.
  apply bind_Done in H. destruct H as [[] [st1 [Hhandle Hhook]]].
  assert (H1 : after_step_hook st1 = after_step_hook st
               ∧ ∃ evs, trace st1 = trace st ++ evs ∧ EvHook ∉ evs).
  { assert (Hsteps : ∀ m : @M code unit, respects (rtc handle_step) m ->
              m st = Done tt st1 ->
              after_step_hook st1 = after_step_hook st
              ∧ ∃ evs, trace st1 = trace st ++ evs ∧ EvHook ∉ evs).
    { intros m Hm Hrun.
      assert (Hfs : final_state (m st) = Some st1) by (rewrite Hrun; reflexivity).
      destruct (handles_facts _ _ (respects_final _ m st st1 Hm Hfs))
        as [_ [Hh [evs [Ht Hall]]]].
      split; [exact Hh|]. exists evs. split; [exact Ht|].
      intros Hin. rewrite Forall_forall in Hall.
      destruct (Hall _ Hin) as [t [fn Heq]]. discriminate Heq. }
    destruct y as [sc| |v].
    - apply (Hsteps _ (handles_handle sc task) Hhandle).
    - apply (Hsteps _ (handles_schedule task VNone None None) Hhandle).
    - unfold emit, modify in Hhandle. inversion Hhandle; subst st1. simpl.
      split; [reflexivity|]. exists [EvLogError v]. split; [reflexivity|].
      intros Hin. apply list_elem_of_singleton in Hin. discriminate Hin. }
  destruct H1 as [Hh [evs [Ht Hno]]].
  unfold bind, get in Hhook. rewrite Hh in Hhook.
  exists evs. destruct (after_step_hook st).
  - unfold emit, modify in Hhook. inversion Hhook; subst st'. simpl.
    rewrite Ht, <- app_assoc. auto.
  - unfold ret in Hhook. inversion Hhook; subst st'.
    rewrite app_nil_r. auto.
Qed.

Lemma hook_runs_last_after_yield_witness :
  let st : @state frame := set_hook true Scenario.one_task in
  ∃ st' evs,
    _step_result run_frame 1 1%nat (Yielded (YSyscall (SysSleep 10))) st
    = Done tt st'
    ∧ trace st' = trace st ++ evs ++ [EvHook]
    ∧ EvHook ∉ evs.
Proof.
  intros st. eexists.
  destruct (hook_runs_last_after_yield run_frame 1 1%nat
              (YSyscall (SysSleep 10)) st _ ltac:(vm_compute; reflexivity))
    as [evs [Ht [Hno _]]].
  exists evs. split; [vm_compute; reflexivity|]. split; [exact Ht|exact Hno].
Defined.

(** ** A full timer queue *)

(** When the timer queue is full, [schedule] raises [QueueFull] after it
    has installed the finalizer: the queue and the paused index are as
    before, the finalizer is in the table.  A task that yields [None]
    while the queue is full is therefore lost: the failure leaves [_step]
    before the hook is called, and the task has been neither scheduled nor
    finalized. *)
Theorem schedule_on_full_queue {code}
    (run_code : code -> resume_input -> @step_result code) fuel
    (st : @state code) task v deadline finalizer :
  (utimeq.capacity (_queue st) <= length (utimeq.heap (_queue st)))%nat ->
  (∃ st', schedule task v deadline finalizer st = Fail QueueFull st'
          ∧ _queue st' = _queue st
          ∧ _paused st' = _paused st
          ∧ _finalizers st'
            = match finalizer with
              | Some fn => <[task := fn]> (_finalizers st)
              | None => _finalizers st
              end)
  ∧ _step_result run_code fuel task (Yielded YNone) st = Fail QueueFull st.
Proof.
  intros Hfull.
  assert (Hpush : ∀ d t w, utimeq.push (_queue st) d t w = None).
  { intros d t w. unfold utimeq.push. apply decide_False. lia. }
  split.
  - unfold schedule, bind, get, modify, emit, raise, ret.
    destruct finalizer as [fn|]; simpl; rewrite Hpush;
      (eexists; split; [reflexivity|]); simpl; auto.
  - unfold _step_result, schedule, bind, get, raise, ret. simpl.
    rewrite Hpush. reflexivity.
Qed.

Lemma schedule_on_full_queue_witness :
  let st : @state frame :=
    set_queue (utimeq.Queue 1 [utimeq.Entry 0 2%nat VNone]) Scenario.one_task in
  (∃ st', schedule 1%nat VNone None (Some (FinExt 3)) st = Fail QueueFull st'
          ∧ _queue st' = _queue st
          ∧ _paused st' = _paused st
          ∧ _finalizers st' = <[1%nat := FinExt 3]> (_finalizers st))
  ∧ _step_result run_frame 1 1%nat (Yielded YNone) st = Fail QueueFull st.
Proof.
  intros st.
  exact (schedule_on_full_queue run_frame 1 st 1%nat VNone None
           (Some (FinExt 3)) ltac:(simpl; lia)).
Defined.

(** ** Waiting for a message *)

Lemma bind_ret_tt {code} (m : @M code unit) st :
  bind m (λ _, ret tt) st = m st.
Proof. unfold bind, ret. destruct (m st) as [[] ?|? ?|]; reflexivity. Qed.

(** A task (suspended, or new and started with [None]) that awaits
    [wait(iface)] on an interface nobody waits on is put into the paused
    index alone, with the queue and the finalizers
    untouched; the turn in which [io.poll] reports a message on [iface]
    takes the entry out of the index and resumes the task where it was
    suspended, sending it the payload of the message. *)
Theorem wait_resumes_with_message {code}
    (run_code : code -> resume_input -> @step_result code) fuel elapsed
    (st : @state code) t c k v iface payload :
  ((∃ via, gens st !! t = Some (GSusp via c))
   ∨ (gens st !! t = Some (GFresh c) ∧ v = VNone)) ->
  run_code c (Send v) = OAwait (SysWait iface) k ->
  (∀ e, v ≠ VExc e) ->
  (∀ e, payload ≠ VExc e) ->
  _paused st !! iface = None ->
  ∃ st1,
    _step run_code fuel t v st = Done tt st1
    ∧ gens st1 !! t = Some (GSusp (Some (SysWait iface)) k)
    ∧ _paused st1 !! iface = Some {[t]}
    ∧ _queue st1 = _queue st
    ∧ _finalizers st1 = _finalizers st
    ∧ run_turn run_code fuel (Poll elapsed (Message iface payload)) st1
      = bind (settle t (run_code k (Send payload)))
             (_step_result run_code fuel t)
          (set_trace (trace st1 ++ [EvPoll (budget st1); EvSend t payload])
             (set_paused (delete iface (_paused st1))
                (set_ticks (utime.ticks_add (ticks_us st1) elapsed) st1))).
Proof.
  intros Hg Hrun Hv Hp Hnone.
  assert (Hstep : ∃ st1, _step run_code fuel t v st = Done tt st1
            ∧ gens st1 = <[t := GSusp (Some (SysWait iface)) k]> (gens st)
            ∧ _paused st1 = <[iface := {[t]}]> (_paused st)
            ∧ _queue st1 = _queue st
            ∧ _finalizers st1 = _finalizers st).
  { unfold _step.
    assert (Hsend : ∀ st0 : @state code, gens st0 = gens st ->
              gen_send run_code t v st0
              = settle t (run_code c (Send v)) st0).
    { intros st0 H0. unfold gen_send, bind, get_gen, get, ret. simpl.
      rewrite H0. destruct Hg as [[via Hg]|[Hg Hnew]]; rewrite Hg; simpl.
      - reflexivity.
      - subst v. reflexivity. }
    destruct v as [|z|e|n]; [| |exfalso; exact (Hv e eq_refl)|];
      (unfold bind at 1; unfold bind at 1; unfold emit at 1, modify at 1;
       rewrite Hsend by reflexivity; rewrite Hrun;
       unfold settle, _step_result, handle, wait_handle, pause, set_gen,
         bind, modify, get, ret, emit; simpl; rewrite Hnone; simpl;
       destruct (after_step_hook st); simpl;
       (eexists; split; [reflexivity|]); simpl;
       rewrite union_empty_l_L; auto). }
  destruct Hstep as [st1 [H1 [Hg1 [Hp1 [Hq1 Hf1]]]]].
  exists st1. split; [exact H1|].
  split; [rewrite Hg1; apply lookup_insert_eq|].
  split; [rewrite Hp1; apply lookup_insert_eq|].
  split; [exact Hq1|]. split; [exact Hf1|].
  rewrite run_turn_budget. simpl.
  assert (Hl : _paused st1 !! iface = Some {[t]})
    by (rewrite Hp1; apply lookup_insert_eq).
  unfold bind at 1, get at 1. unfold polled at 1. simpl. rewrite Hl. simpl.
  unfold bind at 1, modify at 1.
  rewrite elements_singleton. simpl. rewrite bind_ret_tt.
  unfold _step.
  assert (Hsend : ∀ st0 : @state code, gens st0 = gens st1 ->
            gen_send run_code t payload st0
            = settle t (run_code k (Send payload)) st0).
  { intros st0 H0. unfold gen_send, bind, get_gen, get, ret. simpl.
    rewrite H0, Hg1, lookup_insert_eq. reflexivity. }
  destruct payload as [|z|e|n]; [| |exfalso; exact (Hp e eq_refl)|];
    (unfold bind at 1; unfold bind at 1; unfold emit at 1, modify at 1;
     rewrite Hsend by reflexivity;
     unfold bind, polled; simpl; rewrite <- app_assoc; reflexivity).
Qed.

Lemma wait_resumes_with_message_witness :
  let st := Scenario.two_waiters in
  let k := Resume (Await (SysWait 7) (Return VNone)) None in
  ∃ st1,
    _step run_frame 1 1%nat VNone st = Done tt st1
    ∧ gens st1 !! 1%nat = Some (GSusp (Some (SysWait 7)) k)
    ∧ _paused st1 !! 7 = Some {[1%nat]}
    ∧ _queue st1 = _queue st
    ∧ _finalizers st1 = _finalizers st
    ∧ run_turn run_frame 1 (Poll 5 (Message 7 (VObj 9))) st1
      = bind (settle 1%nat (run_frame k (Send (VObj 9))))
             (_step_result run_frame 1 1%nat)
          (set_trace (trace st1 ++ [EvPoll (budget st1); EvSend 1%nat (VObj 9)])
             (set_paused (delete 7 (_paused st1))
                (set_ticks (utime.ticks_add (ticks_us st1) 5) st1))).
Proof.
  intros st k.
  apply (wait_resumes_with_message run_frame 1 5 st 1%nat
           (Start (Await (SysWait 7) (Await (SysWait 7) (Return VNone))))
           k VNone 7 (VObj 9)).
  - right. split; reflexivity.
  - reflexivity.
  - intros e. discriminate.
  - intros e. discriminate.
  - reflexivity.
Defined.
